(** * The llama.cpp bridge of the Nova companion app

    A shallow embedding of [app/src/main/cpp/llama_jni.cpp]: the process-wide
    engine state, model loading and unloading, the buffering and the streaming
    generation loops, stop-string matching, batch construction and cooperative
    cancellation.

    The llama.cpp runtime and the JNI host are not part of the repository;
    they enter as an interface ([llama_api]) and as a record of host
    behaviour ([host]).  [std::string] and [llama_batch] are modelled
    concretely, with [size_t] arithmetic and array bounds written out;
    a string crosses to the JVM through [NewStringUTF], which reads it as
    a C string ([StdString.c_str]).
    The [int] counters ([i], [n_cur], [n_tokens]) are integers in [Z]: [i]
    stays below [maxTokens] and [n_cur] below [n_tokens + maxTokens].

    The text-to-speech bridge [app/src/main/cpp/piper_jni.cpp] follows in
    module [Piper]: its globals, the sentence splitting of
    [synthesizeStreaming] and the chunks handed to the callback, over an
    interface for the Piper library ([piper_api]). *)

From stdpp Require Import base option list strings.
From Stdlib Require Import ZArith QArith Lia.

Local Open Scope Z_scope.

(** ** [std::string] with [size_t] positions *)

Module StdString.

(** [size_t] of the LP64 Android ABI.  Nothing below depends on the width
    beyond strings being shorter than [npos]. *)
Definition size_bits : Z := 64.
Definition npos : Z := 2 ^ size_bits - 1.

(** Unsigned subtraction: wraps around below zero. *)
Definition size_sub (a b : Z) : Z := (a - b) mod 2 ^ size_bits.

Definition length (s : string) : Z := Z.of_nat (String.length s).

Fixpoint drop (n : nat) (s : string) : string :=
  match n, s with
  | O, _ => s
  | S _, EmptyString => EmptyString
  | S n', String _ s' => drop n' s'
  end.

(** Smallest offset at which [pat] starts in [s]; [i0] is the offset of
    [s] itself in the whole text. *)
Fixpoint find_at (pat s : string) (i0 : nat) : option nat :=
  if String.prefix pat s then Some i0
  else match s with
       | EmptyString => None
       | String _ s' => find_at pat s' (S i0)
       end.

(** Largest such offset. *)
Fixpoint rfind_at (pat s : string) (i0 : nat) : option nat :=
  match s with
  | EmptyString => if String.prefix pat s then Some i0 else None
  | String _ s' =>
      match rfind_at pat s' (S i0) with
      | Some j => Some j
      | None => if String.prefix pat s then Some i0 else None
      end
  end.

(** [s.find(pat, pos)]: the first match starting at or after [pos];
    [npos] when there is none, in particular when [pos > s.size()]. *)
Definition find (s pat : string) (pos : Z) : Z :=
  if length s <? pos then npos
  else match find_at pat (drop (Z.to_nat pos) s) (Z.to_nat pos) with
       | Some i => Z.of_nat i
       | None => npos
       end.

(** [s.rfind(pat)]: the last match. *)
Definition rfind (s pat : string) : Z :=
  match rfind_at pat s 0 with
  | Some i => Z.of_nat i
  | None => npos
  end.

(** [s.substr(0, n)]: the first [n] characters, or all of [s]. *)
Definition substr0 (s : string) (n : Z) : string :=
  String.substring 0 (Z.to_nat n) s.

(** [pat] occurs in [s]. *)
Definition occurs (pat s : string) : Prop :=
  ∃ pre post, s = pre +:+ pat +:+ post.

(** [s.c_str()] as a reader of C strings sees it: the bytes before the
    first NUL. *)
Fixpoint c_str (s : string) : string :=
  match s with
  | EmptyString => EmptyString
  | String c s' =>
      if Ascii.eqb c Ascii.zero then EmptyString else String c (c_str s')
  end.

End StdString.

(** ** Batches *)

Definition llama_token := Z.
Definition llama_pos := Z.

Record llama_batch := mk_batch {
  n_tokens : Z;
  token : list llama_token;
  pos : list llama_pos;
  n_seq_id : list Z;
  seq_id : list (list Z);
  logits : list Z
}.

(** [llama_batch_init(n_alloc, 0, n_seq_max)]: arrays of [n_alloc] cells,
    each [seq_id] row of [n_seq_max] cells, no token enqueued.  The cells are
    uninitialised in the runtime; only cells written later are ever read. *)
Definition llama_batch_init (n_alloc n_seq_max : Z) : llama_batch :=
  let n := Z.to_nat n_alloc in
  {| n_tokens := 0;
     token := replicate n 0;
     pos := replicate n 0;
     n_seq_id := replicate n 0;
     seq_id := replicate n (replicate (Z.to_nat n_seq_max) 0);
     logits := replicate n 0 |}.

(** [a[i] = v] on a C array of [length a] cells.  An index outside the
    array is undefined behaviour: [None]. *)
Definition array_set {A} (a : list A) (i : Z) (v : A) : option (list A) :=
  if decide (0 ≤ i < Z.of_nat (length a)) then Some (<[Z.to_nat i := v]> a)
  else None.

Definition array_get {A} (a : list A) (i : Z) : option A :=
  if decide (0 ≤ i) then a !! Z.to_nat i else None.

Definition batch_add_token (batch : llama_batch) (id : llama_token)
    (p : llama_pos) (lg : bool) : option llama_batch :=
  let idx := n_tokens batch in
  token' ← array_set (token batch) idx id;
  pos' ← array_set (pos batch) idx p;
  n_seq_id' ← array_set (n_seq_id batch) idx 1;
  row ← array_get (seq_id batch) idx;
  row' ← array_set row 0 0;
  seq_id' ← array_set (seq_id batch) idx row';
  logits' ← array_set (logits batch) idx (if lg then 1 else 0);
  Some {| n_tokens := idx + 1; token := token'; pos := pos';
          n_seq_id := n_seq_id'; seq_id := seq_id'; logits := logits' |}.

(** [for (int i = 0; i < n_tokens; i++) batch_add_token(batch, tokens[i], i, false);]
    with [tokens.size() = n_tokens]. *)
Fixpoint add_prompt_tokens (batch : llama_batch) (tokens : list llama_token)
    (i : Z) : option llama_batch :=
  match tokens with
  | [] => Some batch
  | t :: rest =>
      b ← batch_add_token batch t i false;
      add_prompt_tokens b rest (i + 1)
  end.

Definition set_logits (lg : list Z) (b : llama_batch) : llama_batch :=
  {| n_tokens := n_tokens b; token := token b; pos := pos b;
     n_seq_id := n_seq_id b; seq_id := seq_id b; logits := lg |}.

(** The prompt batch of [generate] and [generateStreaming]:
    [llama_batch_init(tokens.size(), 0, 1)], the loop above, then
    [batch.logits[batch.n_tokens - 1] = true]. *)
Definition prompt_batch (tokens : list llama_token) : option llama_batch :=
  b ← add_prompt_tokens (llama_batch_init (Z.of_nat (length tokens)) 1) tokens 0;
  lg ← array_set (logits b) (n_tokens b - 1) 1;
  Some (set_logits lg b).

(** The batch of one generated token:
    [llama_batch_init(1, 0, 1); batch_add_token(single, new_token, n_cur, true)]. *)
Definition single_batch (new_token : llama_token) (n_cur : llama_pos)
    : option llama_batch :=
  batch_add_token (llama_batch_init 1 1) new_token n_cur true.

(** The batch the bridge means to build for a generated token. *)
Definition single_of (t : llama_token) (p : llama_pos) : llama_batch :=
  {| n_tokens := 1; token := [t]; pos := [p]; n_seq_id := [1];
     seq_id := [[0]]; logits := [1] |}.

(** The batch the bridge means to build for a prompt: every token at its
    index, one sequence id 0 each, the flag raised on the last entry only. *)
Definition prompt_of (tokens : list llama_token) : llama_batch :=
  let n := length tokens in
  {| n_tokens := Z.of_nat n; token := tokens; pos := seqZ 0 (Z.of_nat n);
     n_seq_id := replicate n 1; seq_id := replicate n [0];
     logits := replicate (n - 1) 0 ++ [1] |}.

(** A batch of capacity [length done + room] in which [done] has been
    enqueued from position 0, no flag raised yet. *)
Definition partly_filled (done : list llama_token) (room : nat) : llama_batch :=
  let n := length done in
  {| n_tokens := Z.of_nat n;
     token := done ++ replicate room 0;
     pos := seqZ 0 (Z.of_nat n) ++ replicate room 0;
     n_seq_id := replicate n 1 ++ replicate room 0;
     seq_id := replicate n [0] ++ replicate room [0];
     logits := replicate n 0 ++ replicate room 0 |}.

(** ** The llama.cpp runtime and the JNI host *)

(** [jfloat] values are only stored, passed on and read back by this file;
    no arithmetic is done on them. *)
Definition jfloat := Q.

(** The stages added to a sampler chain. *)
Inductive sampler_stage :=
| TopP (p : jfloat) (min_keep : Z)
| Temp (t : jfloat)
| Dist (seed : Z).

(** [LLAMA_DEFAULT_SEED] of [llama.h]: a draw stage given this seed takes
    its seed from the random device instead. *)
Definition LLAMA_DEFAULT_SEED : Z := 4294967295.

(** Some stage of the chain asks for a random seed.  The seed parameter of
    [llama_sampler_init_dist] is a [uint32_t]. *)
Definition draws_entropy (stages : list sampler_stage) : bool :=
  existsb (λ stage, match stage with
                    | Dist seed => seed mod 2 ^ 32 =? LLAMA_DEFAULT_SEED
                    | _ => false
                    end) stages.

Record llama_context_params := {
  n_ctx : Z;
  n_threads : Z;
  n_threads_batch : Z
}.

(** The part of [llama.h] the bridge calls.  A context value stands for the
    state behind the [llama_context] pointer; calls that mutate it return
    the new state. *)
Record llama_api := {
  llama_model : Type;
  llama_context : Type;
  llama_sampler : Type;
  (** the fractions passed to the progress callback, in order, and the
      model (null on failure) *)
  llama_model_load_from_file : string → list jfloat * option llama_model;
  llama_init_from_model : llama_model → llama_context_params → option llama_context;
  (** the return value (negative on failure) and the tokens written into a
      buffer of the given capacity *)
  llama_tokenize : llama_model → string → Z → Z * list llama_token;
  llama_memory_clear : llama_context → llama_context;
  (** the status (0 on success) and the context afterwards *)
  llama_decode : llama_context → llama_batch → Z * llama_context;
  (** [llama_sampler_chain_init] followed by one [llama_sampler_chain_add]
      per stage; the first argument is what the random device gives a
      stage that asks for a random seed *)
  llama_sampler_chain : Z → list sampler_stage → llama_sampler;
  (** [llama_sampler_sample(smpl, ctx, -1)] *)
  llama_sampler_sample : llama_sampler → llama_context → llama_token * llama_sampler;
  llama_vocab_is_eog : llama_model → llama_token → bool;
  (** the return value and the bytes written into a buffer of the given
      size *)
  llama_token_to_piece : llama_model → llama_token → Z → Z * string
}.

(** What the JVM and the other threads do during one generation call. *)
Record host := {
  (** another thread runs [cancelGeneration] after the call has cleared the
      flag and before step [i] polls it *)
  cancel_arrives : nat → bool;
  (** another thread runs [cancelGeneration] during the call, after the
      last time the call reads or stores the flag *)
  cancel_late : bool;
  (** what the random device of the runtime gives during the call *)
  random_device : Z;
  (** [GetMethodID] finds [onToken] on the callback *)
  has_onToken : bool;
  (** [NewStringUTF] returns a reference for this C string *)
  new_string_utf : string → bool;
  (** [onToken] leaves a pending exception at step [i] for this string *)
  onToken_throws : nat → string → bool
}.

Inductive decode_site := PromptEval | TokenEval.

(** Calls into the runtime and the host, in program order. *)
Inductive event :=
| EvBackendInit
| EvBackendFree
| EvFreeContext
| EvFreeModel
| EvMemoryClear
| EvDecode (site : decode_site) (batch : llama_batch) (status : Z)
| EvSample (tok : llama_token)
| EvOnToken (piece : string) (threw : bool).

Section Engine.
Context (L : llama_api).

(** *** Global state *)

Record engine := mk_engine {
  g_model : option (llama_model L);
  g_ctx : option (llama_context L);
  g_is_generating : bool;
  g_cancel_generation : bool;
  g_load_progress : jfloat
}.

(** The state at process start. *)
Definition engine_init : engine :=
  {| g_model := None; g_ctx := None; g_is_generating := false;
     g_cancel_generation := false; g_load_progress := 0%Q |}.

Definition set_model (m : option (llama_model L)) (st : engine) : engine :=
  mk_engine m (g_ctx st) (g_is_generating st) (g_cancel_generation st)
    (g_load_progress st).
Definition set_ctx (c : option (llama_context L)) (st : engine) : engine :=
  mk_engine (g_model st) c (g_is_generating st) (g_cancel_generation st)
    (g_load_progress st).
Definition set_is_generating (b : bool) (st : engine) : engine :=
  mk_engine (g_model st) (g_ctx st) b (g_cancel_generation st)
    (g_load_progress st).
Definition set_cancel_generation (b : bool) (st : engine) : engine :=
  mk_engine (g_model st) (g_ctx st) (g_is_generating st) b
    (g_load_progress st).
Definition set_load_progress (p : jfloat) (st : engine) : engine :=
  mk_engine (g_model st) (g_ctx st) (g_is_generating st)
    (g_cancel_generation st) p.

(** *** Observers *)

Definition isModelLoaded (st : engine) : bool :=
  match g_model st, g_ctx st with
  | Some _, Some _ => true
  | _, _ => false
  end.

Definition getLoadProgress (st : engine) : jfloat := g_load_progress st.

Definition isGenerating (st : engine) : bool := g_is_generating st.

(** *** Loading and unloading *)

(** The progress callback: stores the fraction (and never cancels). *)
Definition model_load_progress (st : engine) (progress : jfloat) : engine :=
  set_load_progress progress st.

(** [if (g_ctx) { llama_free(g_ctx); g_ctx = nullptr; }
     if (g_model) { llama_model_free(g_model); g_model = nullptr; }] *)
Definition release_handles (st : engine) : engine * list event :=
  let ev_ctx := match g_ctx st with Some _ => [EvFreeContext] | None => [] end in
  let ev_model := match g_model st with Some _ => [EvFreeModel] | None => [] end in
  (set_model None (set_ctx None st), ev_ctx ++ ev_model).

(** [path] is the result of [GetStringUTFChars], [None] when it is null. *)
Definition loadModel (path : option string) (nThreads : Z) (st : engine)
    : bool * engine * list event :=
  let '(st, ev0) := release_handles st in
  match path with
  | None => (false, st, ev0)
  | Some p =>
      let st := set_load_progress 0%Q st in
      let '(reports, loaded) := llama_model_load_from_file L p in
      let st := foldl model_load_progress st reports in
      match loaded with
      | None => (false, st, ev0 ++ [EvBackendInit; EvBackendFree])
      | Some m =>
          let st := set_model (Some m) st in
          let ctx_params :=
            {| n_ctx := 2048; n_threads := nThreads;
               n_threads_batch := nThreads |} in
          match llama_init_from_model L m ctx_params with
          | None =>
              (false, set_model None st,
               ev0 ++ [EvBackendInit; EvFreeModel; EvBackendFree])
          | Some c =>
              (true, set_load_progress 1%Q (set_ctx (Some c) st),
               ev0 ++ [EvBackendInit])
          end
      end
  end.

Definition unloadModel (st : engine) : engine * list event :=
  let '(st, ev0) := release_handles st in
  (set_load_progress 0%Q st, ev0 ++ [EvBackendFree]).

Definition cancelGeneration (st : engine) : engine :=
  set_cancel_generation true st.

(** A path on which both the weights load and the context is built. *)
Definition valid_path (p : string) (nThreads : Z) : Prop :=
  ∃ m c, (llama_model_load_from_file L p).2 = Some m
         ∧ llama_init_from_model L m
             {| n_ctx := 2048; n_threads := nThreads;
                n_threads_batch := nThreads |} = Some c.

(** *** Generation *)

Record gen_args := {
  prompt : string;
  maxTokens : Z;
  temperature : jfloat;
  topP : jfloat;
  (** [None] for a null [stopStrings] array *)
  stopStrings : option (list string)
}.

(** The sampler chain both variants build, in this order. *)
Definition sampler_stages (a : gen_args) : list sampler_stage :=
  [TopP (topP a) 1; Temp (temperature a); Dist 42].

(** [std::vector<llama_token> tokens(prompt_str.size() + 128)], the call
    of [llama_tokenize] on it, and (for a non-negative count)
    [tokens.resize(n_tokens)]. *)
Definition tokenize_prompt (model : llama_model L) (prompt_str : string)
    : Z * list llama_token :=
  let capacity := (String.length prompt_str + 128)%nat in
  let '(n, written) :=
    llama_tokenize L model prompt_str (Z.of_nat capacity) in
  (n, resize (Z.to_nat n) 0 (resize capacity 0 written)).

(** [std::string piece(buf, n)] for [n > 0]. *)
Definition piece_of (model : llama_model L) (tok : llama_token) : Z * string :=
  let '(n, buf) := llama_token_to_piece L model tok 256 in
  (n, StdString.substr0 buf n).

(** The stop-string loop of [generate]: the new [result] and
    [should_stop]. *)
Fixpoint check_stop_strings (result : string) (stop_strs : list string)
    : string * bool :=
  match stop_strs with
  | [] => (result, false)
  | stop :: rest =>
      if (StdString.length stop <=? StdString.length result)
         && negb (StdString.find result stop
                    (StdString.size_sub
                       (StdString.size_sub (StdString.length result)
                                           (StdString.length stop)) 1)
                  =? StdString.npos)
      then
        let pos := StdString.rfind result stop in
        (if pos =? StdString.npos then result
         else StdString.substr0 result pos, true)
      else check_stop_strings result rest
  end.

(** The stop-string loop of [generateStreaming]: [should_stop]. *)
Fixpoint stream_should_stop (accumulated : string) (stop_strs : list string)
    : bool :=
  match stop_strs with
  | [] => false
  | stop :: rest =>
      if negb (StdString.rfind accumulated stop =? StdString.npos) then true
      else stream_should_stop accumulated rest
  end.

(** [if (!piece.empty())] with the calls below it: [NewStringUTF] on
    [piece.c_str()], [onToken] when the reference is not null,
    [ExceptionCheck].  Returns the call of the sink, if made, with the
    string it is given, and whether an exception was pending after it. *)
Definition send_token (h : host) (i : nat) (piece : string)
    : list event * bool :=
  let jPiece := StdString.c_str piece in
  if negb (String.eqb piece EmptyString) && new_string_utf h jPiece then
    ([EvOnToken jPiece (onToken_throws h i jPiece)],
     onToken_throws h i jPiece)
  else ([], false).

Section Loops.
Context (model : llama_model L) (stop_strs : list string) (h : host).

(** The variables a generation loop carries from step to step. *)
Record loop_state := mk_loop {
  ls_text : string;
  ls_n_cur : Z;
  ls_ctx : llama_context L;
  ls_smpl : llama_sampler L;
  ls_cancel : bool
}.

(** [for (int i = 0; i < maxTokens; i++)] of [generate], started at
    step [i] with [fuel = maxTokens - i] steps to go.  Returns the
    variables at loop exit and the calls made. *)
Fixpoint generate_loop (fuel i : nat) (s : loop_state)
    : option (loop_state * list event) :=
  match fuel with
  | O => Some (s, [])
  | S fuel' =>
      if ls_cancel s || cancel_arrives h i then
        Some (mk_loop (ls_text s) (ls_n_cur s) (ls_ctx s) (ls_smpl s) true, [])
      else
        let '(new_token, smpl) :=
          llama_sampler_sample L (ls_smpl s) (ls_ctx s) in
        if llama_vocab_is_eog L model new_token then
          Some (mk_loop (ls_text s) (ls_n_cur s) (ls_ctx s) smpl false,
                [EvSample new_token])
        else
          let '(n, piece) := piece_of model new_token in
          let '(result, should_stop) :=
            if 0 <? n then check_stop_strings (ls_text s +:+ piece) stop_strs
            else (ls_text s, false) in
          if should_stop then
            Some (mk_loop result (ls_n_cur s) (ls_ctx s) smpl false,
                  [EvSample new_token])
          else
            single ← single_batch new_token (ls_n_cur s);
            let '(status, ctx) := llama_decode L (ls_ctx s) single in
            if negb (status =? 0) then
              Some (mk_loop result (ls_n_cur s) ctx smpl false,
                    [EvSample new_token; EvDecode TokenEval single status])
            else
              '(s', evs) ←
                generate_loop fuel' (S i)
                  (mk_loop result (ls_n_cur s + 1) ctx smpl false);
              Some (s', EvSample new_token
                          :: EvDecode TokenEval single status :: evs)
  end.

(** The body of [if (n > 0) { ... }] in [generateStreaming]: the new
    [accumulated], the call of the sink if there is one, and whether the
    loop is left (a pending exception or [should_stop]). *)
Definition stream_fragment (i : nat) (accumulated0 : string) (n : Z)
    (piece0 : string) : string * list event * bool :=
  if 0 <? n then
    let accumulated := accumulated0 +:+ piece0 in
    let should_stop := stream_should_stop accumulated stop_strs in
    (* [piece] is emptied on a match *)
    let piece := if should_stop then EmptyString else piece0 in
    let '(sink, threw) := send_token h i piece in
    (accumulated, sink, threw || should_stop)
  else (accumulated0, [], false).

(** The loop of [generateStreaming]. *)
Fixpoint streaming_loop (fuel i : nat) (s : loop_state)
    : option (loop_state * list event) :=
  match fuel with
  | O => Some (s, [])
  | S fuel' =>
      if ls_cancel s || cancel_arrives h i then
        Some (mk_loop (ls_text s) (ls_n_cur s) (ls_ctx s) (ls_smpl s) true, [])
      else
        let '(new_token, smpl) :=
          llama_sampler_sample L (ls_smpl s) (ls_ctx s) in
        if llama_vocab_is_eog L model new_token then
          Some (mk_loop (ls_text s) (ls_n_cur s) (ls_ctx s) smpl false,
                [EvSample new_token])
        else
          let '(n, piece0) := piece_of model new_token in
          let '(accumulated, sink, leave) :=
            stream_fragment i (ls_text s) n piece0 in
          if leave then
            Some (mk_loop accumulated (ls_n_cur s) (ls_ctx s) smpl false,
                  EvSample new_token :: sink)
          else
            single ← single_batch new_token (ls_n_cur s);
            let '(status, ctx) := llama_decode L (ls_ctx s) single in
            if negb (status =? 0) then
              Some (mk_loop accumulated (ls_n_cur s) ctx smpl false,
                    EvSample new_token :: sink
                      ++ [EvDecode TokenEval single status])
            else
              '(s', evs) ←
                streaming_loop fuel' (S i)
                  (mk_loop accumulated (ls_n_cur s + 1) ctx smpl false);
              Some (s', EvSample new_token :: sink
                          ++ EvDecode TokenEval single status :: evs)
  end.

End Loops.

(** The globals when a call returns that has stored [false] in
    [g_is_generating]: the cancellation flag is set if it was when the call
    last read it, or if another thread has set it since. *)
Definition on_return (h : host) (st : engine) : engine :=
  set_is_generating false
    (set_cancel_generation (g_cancel_generation st || cancel_late h) st).

(** What a generation call leaves in the globals after its loop: the
    context as the loop left it, the cancellation flag as the loop last
    read it or as set since, and [g_is_generating.store(false)]. *)
Definition finish (h : host) (st : engine) (s : loop_state) : engine :=
  on_return h (set_cancel_generation (ls_cancel s) (set_ctx (Some (ls_ctx s)) st)).

(** The part both variants share once the model check has passed and the
    flags are stored: tokenize, clear the cache, evaluate the prompt, build
    the sampler, run [loop].  [None] is undefined behaviour. *)
Definition run_generation
    (loop : llama_model L → list string → host → nat → nat → loop_state
            → option (loop_state * list event))
    (a : gen_args) (h : host) (model : llama_model L)
    (ctx : llama_context L) (st : engine)
    : option (string * engine * list event) :=
  let stop_strs := default [] (stopStrings a) in
  let '(n_tok, tokens) := tokenize_prompt model (prompt a) in
  if n_tok <? 0 then Some (EmptyString, on_return h st, [])
  else
    let ctx := llama_memory_clear L ctx in
    batch ← prompt_batch tokens;
    let '(status, ctx) := llama_decode L ctx batch in
    if negb (status =? 0) then
      Some (EmptyString, on_return h (set_ctx (Some ctx) st),
            [EvMemoryClear; EvDecode PromptEval batch status])
    else
      let smpl :=
        llama_sampler_chain L (random_device h) (sampler_stages a) in
      '(s, evs) ←
        loop model stop_strs h (Z.to_nat (maxTokens a)) 0%nat
          (mk_loop EmptyString n_tok ctx smpl (g_cancel_generation st));
      Some (ls_text s, finish h st s,
            EvMemoryClear :: EvDecode PromptEval batch status :: evs).

(** A call that returns at the model check writes no global; the
    cancellation flag is set afterwards if it was before or if another
    thread has set it meanwhile. *)
Definition on_absent (h : host) (st : engine) : engine :=
  set_cancel_generation (g_cancel_generation st || cancel_late h) st.

(** [generate]: the string made by [NewStringUTF], which reads
    [result.c_str()], the globals and the calls made. *)
Definition generate (a : gen_args) (h : host) (st : engine)
    : option (string * engine * list event) :=
  match g_model st, g_ctx st with
  | Some model, Some ctx =>
      let st := set_cancel_generation false (set_is_generating true st) in
      '(result, st, evs) ← run_generation generate_loop a h model ctx st;
      Some (StdString.c_str result, st, evs)
  | _, _ => Some (EmptyString, on_absent h st, [])
  end.

(** [generateStreaming] returns nothing; the first component is the local
    [accumulated] at exit, kept for the statements below. *)
Definition generateStreaming (a : gen_args) (h : host) (st : engine)
    : option (string * engine * list event) :=
  match g_model st, g_ctx st with
  | Some model, Some ctx =>
      let st := set_cancel_generation false (set_is_generating true st) in
      if has_onToken h then
        run_generation streaming_loop a h model ctx st
      else Some (EmptyString, on_return h st, [])
  | _, _ => Some (EmptyString, on_absent h st, [])
  end.

(** *** Reading a trace *)

(** The text one sampled token adds to the accumulated text: nothing for
    an end-of-generation token or a non-positive length. *)
Definition fragment_of (model : llama_model L) (tok : llama_token) : string :=
  if llama_vocab_is_eog L model tok then EmptyString
  else let '(n, piece) := piece_of model tok in
       if 0 <? n then piece else EmptyString.

(** The text accumulated by the sampled tokens of a trace. *)
Fixpoint text_of (model : llama_model L) (evs : list event) : string :=
  match evs with
  | [] => EmptyString
  | EvSample tok :: rest => fragment_of model tok +:+ text_of model rest
  | _ :: rest => text_of model rest
  end.

Definition sampled (evs : list event) : list llama_token :=
  omap (λ e, match e with EvSample t => Some t | _ => None end) evs.

(** Two sequences of sampled tokens that agree as far as both go. *)
Definition agree (t1 t2 : list llama_token) : Prop :=
  t1 `prefix_of` t2 ∨ t2 `prefix_of` t1.

Definition delivered (evs : list event) : list string :=
  omap (λ e, match e with EvOnToken p _ => Some p | _ => None end) evs.

Definition token_batches (evs : list event) : list llama_batch :=
  omap (λ e, match e with EvDecode TokenEval b _ => Some b | _ => None end) evs.

Definition prompt_batches (evs : list event) : list llama_batch :=
  omap (λ e, match e with EvDecode PromptEval b _ => Some b | _ => None end) evs.

(** The fragments of a list, one after the other. *)
Definition joined (fragments : list string) : string :=
  foldr String.append EmptyString fragments.

(** A trace without its calls of the sink. *)
Definition without_sink (evs : list event) : list event :=
  omap (λ e, match e with EvOnToken _ _ => None | _ => Some e end) evs.

(** The same request with another token budget. *)
Definition with_maxTokens (k : Z) (a : gen_args) : gen_args :=
  {| prompt := prompt a; maxTokens := k; temperature := temperature a;
     topP := topP a; stopStrings := stopStrings a |}.

(** The text and the calls of a finished request. *)
Definition outcome (r : option (string * engine * list event))
    : option (string * list event) :=
  (λ x, (x.1.1, x.2)) <$> r.

(** The step at which a cancellation first arrives. *)
Definition first_cancel (h : host) (k : nat) : Prop :=
  cancel_arrives h k = true ∧ ∀ j, (j < k)%nat → cancel_arrives h j = false.

(** Two loop exits that differ at most in the cancellation flag. *)
Definition same_exit (r1 r2 : option (loop_state * list event)) : Prop :=
  match r1, r2 with
  | Some (s1, e1), Some (s2, e2) =>
      ls_text s1 = ls_text s2 ∧ ls_n_cur s1 = ls_n_cur s2
      ∧ ls_ctx s1 = ls_ctx s2 ∧ ls_smpl s1 = ls_smpl s2 ∧ e1 = e2
  | None, None => True
  | _, _ => False
  end.

(** Seeded sampling as [llama.h] promises it: a chain none of whose stages
    asks for a random seed is built without reading the random device. *)
Definition reproducible : Prop :=
  ∀ e1 e2 stages,
    draws_entropy stages = false →
    llama_sampler_chain L e1 stages = llama_sampler_chain L e2 stages.

(** Two calls during which the other threads and the sink do the same;
    the random device may give each of them something else. *)
Definition same_interaction (h1 h2 : host) : Prop :=
  (∀ i, cancel_arrives h1 i = cancel_arrives h2 i)
  ∧ has_onToken h1 = has_onToken h2
  ∧ (∀ p, new_string_utf h1 p = new_string_utf h2 p)
  ∧ (∀ i p, onToken_throws h1 i p = onToken_throws h2 i p).

(** The prompt of the request tokenizes to no token at all on the loaded
    model. *)
Definition tokenless (a : gen_args) (st : engine) : Prop :=
  ∃ model ctx, g_model st = Some model ∧ g_ctx st = Some ctx
               ∧ (tokenize_prompt model (prompt a)).1 = 0.

(** What the sink may see, replayed along a trace: [acc] is the text
    accumulated so far and [pending] the fragment of the token sampled last.
    A call of [onToken] carries that fragment, which is not empty, as a C
    string, and the accumulated text then matches no stop string; a sampled
    token whose fragment completes a match is the last event. *)
Fixpoint sink_respects_stops (model : llama_model L) (stop_strs : list string)
    (acc : string) (pending : option string) (evs : list event) : Prop :=
  match evs with
  | [] => True
  | EvSample tok :: rest =>
      let acc' := acc +:+ fragment_of model tok in
      (fragment_of model tok ≠ EmptyString →
       stream_should_stop acc' stop_strs = true → rest = [])
      ∧ sink_respects_stops model stop_strs acc'
          (Some (fragment_of model tok)) rest
  | EvOnToken p _ :: rest =>
      match pending with
      | Some fragment =>
          fragment ≠ EmptyString ∧ p = StdString.c_str fragment
      | None => False
      end
      ∧ stream_should_stop acc stop_strs = false
      ∧ sink_respects_stops model stop_strs acc None rest
  | _ :: rest => sink_respects_stops model stop_strs acc None rest
  end.

(** *** The states the bridge can be in

    Calls are serialised by [g_mutex], so the globals between two calls are
    those left by a sequence of completed calls. *)
Inductive reachable : engine → Prop :=
| reach_init : reachable engine_init
| reach_load path nThreads st :
    reachable st → reachable (loadModel path nThreads st).1.2
| reach_unload st :
    reachable st → reachable (unloadModel st).1
| reach_cancel st :
    reachable st → reachable (cancelGeneration st)
| reach_generate a h st txt st' evs :
    reachable st → generate a h st = Some (txt, st', evs) → reachable st'
| reach_streaming a h st txt st' evs :
    reachable st → generateStreaming a h st = Some (txt, st', evs) →
    reachable st'.

End Engine.

Arguments engine_init {L}.
Arguments mk_loop {L}.
Arguments isModelLoaded {L}.
Arguments getLoadProgress {L}.
Arguments isGenerating {L}.
Arguments loadModel {L}.
Arguments unloadModel {L}.
Arguments cancelGeneration {L}.
Arguments generate {L}.
Arguments generateStreaming {L}.
Arguments outcome {L}.
Arguments reachable {L}.
Arguments mk_engine {L}.
Arguments release_handles {L}.
Arguments model_load_progress {L}.
Arguments set_model {L}.
Arguments set_ctx {L}.
Arguments set_is_generating {L}.
Arguments set_cancel_generation {L}.
Arguments set_load_progress {L}.
Arguments finish {L}.
Arguments on_return {L}.
Arguments on_absent {L}.
Arguments run_generation {L}.
Arguments generate_loop {L}.
Arguments streaming_loop {L}.
Arguments tokenize_prompt {L}.
Arguments piece_of {L}.
Arguments fragment_of {L}.
Arguments text_of {L}.
Arguments same_exit {L}.
Arguments reproducible L : clear implicits.
Arguments tokenless {L}.
Arguments sink_respects_stops {L}.
Arguments g_model {L}.
Arguments g_ctx {L}.
Arguments g_is_generating {L}.
Arguments g_cancel_generation {L}.
Arguments g_load_progress {L}.
Arguments ls_text {L}.
Arguments ls_n_cur {L}.
Arguments ls_ctx {L}.
Arguments ls_smpl {L}.
Arguments ls_cancel {L}.

(** ** A small runtime to run the bridge on

    A vocabulary of a few fragments, a model that emits a fixed script of
    tokens after any prompt, and a cache of bounded capacity.  A sampler
    chain that asks for a random seed starts the script at the offset the
    random device gives. *)

Module Toy.

Record model := {
  script : list llama_token;
  capacity : nat;
  context_fits : bool
}.

Record context := { of_model : model; cache : list llama_token }.

Definition eog : llama_token := 3.

(** Tokens from 256 on are the bytes of a prompt; the fragments of tokens
    7 and 8 start with a NUL byte. *)
Definition fragment (t : llama_token) : string :=
  if 256 <=? t then String (Ascii.ascii_of_N (Z.to_N (t - 256))) EmptyString
  else if t =? 0 then "there"
  else if t =? 1 then "!"
  else if t =? 2 then "more"
  else if t =? 5 then "a!bc"
  else if t =? 6 then "a!!"
  else if t =? 7 then String Ascii.zero "x"
  else if t =? 8 then String Ascii.zero EmptyString
  else EmptyString.

Fixpoint bytes (s : string) : list llama_token :=
  match s with
  | EmptyString => []
  | String c s' => (256 + Z.of_N (Ascii.N_of_ascii c)) :: bytes s'
  end.

(** One token per byte and no beginning-of-sequence token; a star stands
    for 200 tokens, more than any buffer sized for it. *)
Fixpoint count_tokens (s : string) : nat :=
  match s with
  | EmptyString => O
  | String c s' =>
      ((if Ascii.eqb c (Ascii.ascii_of_N 42) then 200 else 1) + count_tokens s')%nat
  end.

Definition tokenize (m : model) (text : string) (n_max : Z) : Z * list llama_token :=
  let n := Z.of_nat (count_tokens text) in
  if n_max <? n then (- n, []) else (n, bytes text).

Definition generated (c : context) : nat :=
  length (filter (λ t, t < 256) (cache c)).

Definition decode (c : context) (b : llama_batch) : Z * context :=
  if n_tokens b <=? 0 then (-1, c)
  else if Z.of_nat (capacity (of_model c)) <? Z.of_nat (length (cache c)) + n_tokens b
  then (1, c)
  else (0, {| of_model := of_model c;
              cache := cache c ++ take (Z.to_nat (n_tokens b)) (token b) |}).

Definition load (path : string) : list jfloat * option model :=
  if String.eqb path "toy.gguf" then
    ([(1#2)%Q; 1%Q],
     Some {| script := [0; 1; 2]; capacity := 64; context_fits := true |})
  else if String.eqb path "bang.gguf" then
    ([(1#2)%Q; 1%Q],
     Some {| script := [1; 2]; capacity := 64; context_fits := true |})
  else if String.eqb path "inner.gguf" then
    ([(1#2)%Q; 1%Q],
     Some {| script := [5; 2]; capacity := 64; context_fits := true |})
  else if String.eqb path "double.gguf" then
    ([(1#2)%Q; 1%Q],
     Some {| script := [6; 2]; capacity := 64; context_fits := true |})
  else if String.eqb path "small.gguf" then
    ([(1#2)%Q; 1%Q],
     Some {| script := [0; 2; 0; 2]; capacity := 7; context_fits := true |})
  else if String.eqb path "huge.gguf" then
    ([(1#2)%Q; 1%Q],
     Some {| script := [0; 1; 2]; capacity := 64; context_fits := false |})
  else if String.eqb path "nul.gguf" then
    ([(1#2)%Q; 1%Q],
     Some {| script := [0; 7; 2]; capacity := 64; context_fits := true |})
  else if String.eqb path "nul-small.gguf" then
    ([(1#2)%Q; 1%Q],
     Some {| script := [0; 7; 2]; capacity := 5; context_fits := true |})
  else if String.eqb path "nul-only.gguf" then
    ([(1#2)%Q; 1%Q],
     Some {| script := [8; 0]; capacity := 64; context_fits := true |})
  else if String.eqb path "corrupt.gguf" then ([(1#2)%Q], None)
  else ([], None).

(** The chain has a draw stage that asks for a random seed. *)
Definition random_seeded (stages : list sampler_stage) : bool :=
  existsb (λ stage, match stage with
                    | Dist seed => (seed =? LLAMA_DEFAULT_SEED) || (seed =? -1)
                    | _ => false
                    end) stages.

Definition api : llama_api := {|
  llama_model := model;
  llama_context := context;
  llama_sampler := nat * list sampler_stage;
  llama_model_load_from_file := load;
  llama_init_from_model m _ :=
    if context_fits m then Some {| of_model := m; cache := [] |} else None;
  llama_tokenize := tokenize;
  llama_memory_clear c := {| of_model := of_model c; cache := [] |};
  llama_decode := decode;
  llama_sampler_chain e stages :=
    (if random_seeded stages then Z.to_nat e else 0%nat, stages);
  llama_sampler_sample smpl c :=
    (nth (smpl.1 + generated c) (script (of_model c)) eog, smpl);
  llama_vocab_is_eog _ t := t =? eog;
  llama_token_to_piece _ t _ :=
    (Z.of_nat (String.length (fragment t)), fragment t)
|}.

(** A host that never cancels and whose sink accepts everything. *)
Definition quiet : host := {|
  cancel_arrives _ := false;
  cancel_late := false;
  random_device := 0;
  has_onToken := true;
  new_string_utf _ := true;
  onToken_throws _ _ := false
|}.

(** A host on which another thread cancels before step [k] polls. *)
Definition cancel_at (k : nat) : host := {|
  cancel_arrives i := Nat.eqb i k;
  cancel_late := false;
  random_device := 0;
  has_onToken := true;
  new_string_utf _ := true;
  onToken_throws _ _ := false
|}.

(** A host on which another thread cancels after the last poll. *)
Definition cancel_after : host := {|
  cancel_arrives _ := false;
  cancel_late := true;
  random_device := 0;
  has_onToken := true;
  new_string_utf _ := true;
  onToken_throws _ _ := false
|}.

(** A host that never cancels, whose sink accepts everything and whose
    random device gives [e]. *)
Definition quiet_with (e : Z) : host := {|
  cancel_arrives _ := false;
  cancel_late := false;
  random_device := e;
  has_onToken := true;
  new_string_utf _ := true;
  onToken_throws _ _ := false
|}.

(** A host whose sink throws on every fragment. *)
Definition throwing : host := {|
  cancel_arrives _ := false;
  cancel_late := false;
  random_device := 0;
  has_onToken := true;
  new_string_utf _ := true;
  onToken_throws _ _ := true
|}.

Definition request (p : string) (n : Z) (stops : list string) : gen_args := {|
  prompt := p; maxTokens := n; temperature := (7#10)%Q; topP := (9#10)%Q;
  stopStrings := Some stops
|}.

(** The engine after [loadModel(path, 4)] at process start. *)
Definition loaded (path : string) : engine api :=
  (loadModel (L := api) (Some path) 4 engine_init).1.2.

(** The engine after one request on it. *)
Definition after_request (path : string) (a : gen_args) (h : host) : engine api :=
  match generate a h (loaded path) with
  | Some (_, st, _) => st
  | None => loaded path
  end.

End Toy.

(** ** The Piper bridge

    [piper_jni.cpp]: a voice is loaded once, then texts are synthesized to
    16-bit samples, in one piece or sentence by sentence. *)

Module Piper.

Definition int16_t := Z.

(** The three characters of [" \t\n"]: space, tab and newline. *)
Definition blanks : string :=
  String (Ascii.ascii_of_N 32)
    (String (Ascii.ascii_of_N 9) (String (Ascii.ascii_of_N 10) EmptyString)).

Fixpoint contains (chars : string) (c : Ascii.ascii) : bool :=
  match chars with
  | EmptyString => false
  | String d chars' => Ascii.eqb c d || contains chars' c
  end.

(** [s.find_first_not_of(chars)]: the offset of the first character of
    [s] that is not in [chars]; [None] stands for [npos].  [i] is the
    offset of [s] itself in the whole string. *)
Fixpoint find_first_not_of_at (chars s : string) (i : nat) : option nat :=
  match s with
  | EmptyString => None
  | String c s' =>
      if contains chars c then find_first_not_of_at chars s' (S i) else Some i
  end.

Definition find_first_not_of (s chars : string) : option nat :=
  find_first_not_of_at chars s 0.

(** [c == '.' || c == '!' || c == '?'] *)
Definition ends_sentence (c : Ascii.ascii) : bool :=
  Ascii.eqb c (Ascii.ascii_of_N 46) || Ascii.eqb c (Ascii.ascii_of_N 33)
  || Ascii.eqb c (Ascii.ascii_of_N 63).

(** [size_t start = current.find_first_not_of(" \t\n");
     if (start != npos) sentences.push_back(current.substr(start));] *)
Definition push_trimmed (sentences : list string) (current : string)
    : list string :=
  match find_first_not_of current blanks with
  | Some start => sentences ++ [StdString.drop start current]
  | None => sentences
  end.

(** [for (char c : fullText)] of [synthesizeStreaming], with [text] still
    to be read: [current] and [sentences] at loop exit. *)
Fixpoint split_loop (text current : string) (sentences : list string)
    : string * list string :=
  match text with
  | EmptyString => (current, sentences)
  | String c text' =>
      let current := current +:+ String c EmptyString in
      if ends_sentence c then
        split_loop text' EmptyString (push_trimmed sentences current)
      else split_loop text' current sentences
  end.

(** The sentences [synthesizeStreaming] synthesizes one by one: the loop
    above, the remaining text if any, and the whole text when that gave
    nothing. *)
Definition split_sentences (fullText : string) : list string :=
  let '(current, sentences) := split_loop fullText EmptyString [] in
  let sentences :=
    if negb (String.eqb current EmptyString)
    then push_trimmed sentences current else sentences in
  match sentences with
  | [] => [fullText]
  | _ :: _ => sentences
  end.

(** The fields of [piper::SynthesisConfig] the bridge touches. *)
Record SynthesisConfig := {
  sampleRate : Z;
  lengthScale : jfloat;
  noiseScale : jfloat;
  noiseW : jfloat;
  speakerId : option Z
}.

(** The part of [piper.hpp] the bridge calls.  A [Voice] value stands for
    the state behind [g_piperConfig] and [g_voice], which the calls take by
    reference. *)
Record piper_api := {
  Voice : Type;
  synthesisConfig : Voice → SynthesisConfig;
  (** the state afterwards and whether the call returned ([false]: it
      threw a [std::exception]) *)
  loadVoice : Voice → string → string → Voice * bool;
  (** the state afterwards and the audio buffer, [None] when the call
      threw a [std::exception] *)
  textToAudio : Voice → string → Voice * option (list int16_t)
}.

(** One call of [onAudioChunk]. *)
Record chunk := mk_chunk {
  samples : list int16_t;
  rate : Z;
  isLast : bool
}.

Section Bridge.
Context (P : piper_api).

Record tts := mk_tts {
  g_voice : Voice P;
  g_initialized : bool;
  g_sampleRate : Z
}.

(** The state at process start, [g_voice] default-constructed. *)
Definition tts_init (voice : Voice P) : tts :=
  {| g_voice := voice; g_initialized := false; g_sampleRate := 22050 |}.

Definition isInitialized (st : tts) : bool := g_initialized st.
Definition getSampleRate (st : tts) : Z := g_sampleRate st.

(** Both paths are the results of [GetStringUTFChars]. *)
Definition initialize (modelPath configPath : string) (st : tts)
    : bool * tts :=
  let st :=
    if g_initialized st then mk_tts (g_voice st) false (g_sampleRate st)
    else st in
  let '(voice, returned) := loadVoice P (g_voice st) modelPath configPath in
  if returned then
    (true, mk_tts voice true (sampleRate (synthesisConfig P voice)))
  else (false, mk_tts voice false (g_sampleRate st)).

Definition release (st : tts) : tts :=
  if g_initialized st then mk_tts (g_voice st) false (g_sampleRate st)
  else st.

(** [synthesize]: the samples of the returned array. *)
Definition synthesize (text : string) (speaker : Z)
    (length_scale noise_scale noise_w : jfloat) (st : tts)
    : list int16_t * tts :=
  if negb (g_initialized st) then ([], st)
  else
    (* the local copy that receives the parameters *)
    let synthConfig :=
      {| sampleRate := sampleRate (synthesisConfig P (g_voice st));
         lengthScale := length_scale;
         noiseScale := noise_scale;
         noiseW := noise_w;
         speakerId := if 0 <? speaker then Some speaker
                      else speakerId (synthesisConfig P (g_voice st)) |} in
    (* [textToAudio] is given [g_piperConfig] and [g_voice] *)
    let '(voice, audio) := textToAudio P (g_voice st) text in
    (default [] audio, mk_tts voice (g_initialized st) (g_sampleRate st)).

(** [for (size_t i = 0; i < sentences.size(); i++)] of
    [synthesizeStreaming] from index [i] on, [size] being
    [sentences.size()]: the calls of [onAudioChunk] and the voice state at
    exit.  An exception leaves the loop. *)
Fixpoint stream_sentences (sentences : list string) (size : Z) (i : nat)
    (voice : Voice P) (sample_rate : Z) : list chunk * Voice P :=
  match sentences with
  | [] => ([], voice)
  | sentence :: rest =>
      let '(voice, audio) := textToAudio P voice sentence in
      match audio with
      | None => ([], voice)
      | Some audioBuffer =>
          let '(chunks, voice') :=
            stream_sentences rest size (S i) voice sample_rate in
          if bool_decide (audioBuffer = []) then (chunks, voice')
          else
            let is_last := Z.of_nat i =? StdString.size_sub size 1 in
            (mk_chunk audioBuffer sample_rate is_last :: chunks, voice')
      end
  end.

(** [synthesizeStreaming]; [has_onAudioChunk] tells whether [GetMethodID]
    finds the method on the callback. *)
Definition synthesizeStreaming (text : string) (has_onAudioChunk : bool)
    (st : tts) : list chunk * tts :=
  if negb (g_initialized st) then ([], st)
  else if negb has_onAudioChunk then ([], st)
  else
    let sentences := split_sentences text in
    let '(chunks, voice) :=
      stream_sentences sentences (Z.of_nat (length sentences)) 0
        (g_voice st) (g_sampleRate st) in
    (chunks, mk_tts voice (g_initialized st) (g_sampleRate st)).

End Bridge.

Arguments mk_tts {P}.
Arguments g_voice {P}.
Arguments g_initialized {P}.
Arguments g_sampleRate {P}.
Arguments isInitialized {P}.
Arguments getSampleRate {P}.
Arguments initialize {P}.
Arguments release {P}.
Arguments synthesize {P}.
Arguments stream_sentences {P}.
Arguments synthesizeStreaming {P}.

(** *** Reading a list of sentences *)

(** A string without the characters of [" \t\n"]. *)
Fixpoint without_blanks (s : string) : string :=
  match s with
  | EmptyString => EmptyString
  | String c s' =>
      if contains blanks c then without_blanks s'
      else String c (without_blanks s')
  end.

(** No character of [s] ends a sentence. *)
Fixpoint unterminated (s : string) : bool :=
  match s with
  | EmptyString => true
  | String c s' => negb (ends_sentence c) && unterminated s'
  end.

(** [s] ends with a character that ends a sentence, its only one. *)
Fixpoint terminated (s : string) : bool :=
  match s with
  | EmptyString => false
  | String c s' =>
      if ends_sentence c then String.eqb s' EmptyString else terminated s'
  end.

(** A sentence as the loop of [synthesizeStreaming] pushes it: it starts
    with a character that is not a blank and ends with its only [.], [!]
    or [?]. *)
Definition pushed (s : string) : Prop :=
  find_first_not_of s blanks = Some 0%nat ∧ terminated s = true.

(** A voice for examples: every sentence of two characters or more gives
    one sample, its length; shorter ones give no audio; ["boom."] makes
    the synthesizer throw. *)
Definition toy : piper_api := {|
  Voice := nat;
  synthesisConfig _ :=
    {| sampleRate := 16000; lengthScale := 1%Q; noiseScale := (2#3)%Q;
       noiseW := (4#5)%Q; speakerId := None |};
  loadVoice n model _ := (n, String.eqb model "voice.onnx");
  textToAudio n s :=
    (S n, if String.eqb s "boom." then None
          else if (String.length s <=? 1)%nat then Some []
          else Some [Z.of_nat (String.length s)])
|}.

End Piper.

(** * Properties *)

(** ** Strings *)

Section StringFacts.

Lemma string_app_cons (c : Ascii.ascii) (s t : string) :
  String c s +:+ t = String c (s +:+ t).
Proof. reflexivity. Qed.

Lemma string_app_nil_l (s : string) : EmptyString +:+ s = s.
Proof. reflexivity. Qed.

Lemma string_app_nil_r (s : string) : s +:+ EmptyString = s.
Proof.
  induction s as [|c s IH]; [done|]. by rewrite string_app_cons, IH.
Qed.

Lemma string_app_assoc (s1 s2 s3 : string) :
  (s1 +:+ s2) +:+ s3 = s1 +:+ s2 +:+ s3.
Proof.
  induction s1 as [|c s1 IH]; [done|]. by rewrite !string_app_cons, IH.
Qed.

Lemma string_length_app (s1 s2 : string) :
  String.length (s1 +:+ s2) = (String.length s1 + String.length s2)%nat.
Proof.
  induction s1 as [|c s1 IH]; [done|].
  rewrite string_app_cons; simpl. by rewrite IH.
Qed.

End StringFacts.

(** ** Batch construction *)

Section BatchFacts.

Lemma array_set_middle {A} (l1 l2 : list A) (x v : A) (n : nat) :
  length l1 = n →
  array_set (l1 ++ x :: l2) (Z.of_nat n) v = Some (l1 ++ v :: l2).
Proof.
  intros <-. unfold array_set.
  rewrite decide_True; last (rewrite length_app; simpl; lia).
  rewrite Nat2Z.id. f_equal.
  rewrite insert_app_r_alt by lia. by rewrite Nat.sub_diag.
Qed.

Lemma array_get_middle {A} (l1 l2 : list A) (x : A) (n : nat) :
  length l1 = n → array_get (l1 ++ x :: l2) (Z.of_nat n) = Some x.
Proof.
  intros <-. unfold array_get.
  rewrite decide_True; last lia.
  rewrite Nat2Z.id. by rewrite list_lookup_middle.
Qed.

Lemma batch_add_token_partly (done : list llama_token) (room : nat)
    (t : llama_token) :
  batch_add_token (partly_filled done (S room)) t (Z.of_nat (length done)) false
  = Some (partly_filled (done ++ [t]) room).
Proof.
  unfold batch_add_token, partly_filled; simpl.
  rewrite (array_set_middle done); last done.
  rewrite (array_set_middle (seqZ _ _)); last by rewrite length_seqZ, Nat2Z.id.
  rewrite (array_set_middle (replicate _ 1)); last by rewrite length_replicate.
  rewrite (array_get_middle (replicate _ [0])); last by rewrite length_replicate.
  simpl. change (array_set [0] 0 0) with (Some [0]). simpl.
  rewrite (array_set_middle (replicate _ [0])); last by rewrite length_replicate.
  rewrite (array_set_middle (replicate _ 0)); last by rewrite length_replicate.
  simpl. f_equal.
  rewrite length_app; simpl.
  replace (length done + 1)%nat with (S (length done)) by lia.
  rewrite seqZ_S, !replicate_S_end, <- !(assoc_L (++)); simpl.
  f_equal; lia.
Qed.

Lemma add_prompt_tokens_partly (rest done : list llama_token) :
  add_prompt_tokens (partly_filled done (length rest)) rest
    (Z.of_nat (length done))
  = Some (partly_filled (done ++ rest) 0).
Proof.
  revert done. induction rest as [|t rest IH]; intros done; simpl.
  - by rewrite (right_id_L [] (++)).
  - rewrite batch_add_token_partly; simpl.
    replace (Z.of_nat (length done) + 1) with (Z.of_nat (length (done ++ [t])))
      by (rewrite length_app; simpl; lia).
    rewrite IH. by rewrite <- (assoc_L (++)).
Qed.

(** The prompt batch is the intended one whenever there is a final entry
    to flag. *)
Lemma prompt_batch_nonempty (tokens : list llama_token) :
  tokens ≠ [] → prompt_batch tokens = Some (prompt_of tokens).
Proof.
  intros Hne. unfold prompt_batch.
  assert (llama_batch_init (Z.of_nat (length tokens)) 1
          = partly_filled [] (length tokens)) as ->.
  { unfold llama_batch_init, partly_filled; simpl. by rewrite Nat2Z.id. }
  pose proof (add_prompt_tokens_partly tokens []) as Hadd.
  change (Z.of_nat (length [])) with 0 in Hadd. rewrite Hadd; simpl.
  destruct (length tokens) as [|n] eqn:Hlen.
  { destruct tokens; [done | discriminate]. }
  unfold array_set; simpl.
  rewrite decide_True; last (rewrite length_app, length_replicate; simpl; lia).
  simpl. f_equal. unfold set_logits, prompt_of; simpl.
  rewrite Hlen. rewrite !(right_id_L [] (++)).
  f_equal.
  replace (Z.to_nat (Z.of_nat (S n) - 1)) with n by lia.
  replace (S n - 1)%nat with n by lia.
  change (0 :: replicate n 0) with (replicate (S n) 0).
  rewrite replicate_S_end.
  rewrite insert_app_r_alt; rewrite length_replicate; [|lia].
  by rewrite Nat.sub_diag.
Qed.

(** With no token there is no final entry: the write to
    [batch.logits[-1]] falls outside the batch. *)
Lemma prompt_batch_empty : prompt_batch [] = None.
Proof. reflexivity. Qed.

Lemma single_batch_defined (t : llama_token) (p : llama_pos) :
  single_batch t p = Some (single_of t p).
Proof. reflexivity. Qed.

End BatchFacts.

(** ** Loading and unloading *)

Section LifecycleFacts.
Context {L : llama_api}.

Implicit Types st : engine L.

Lemma release_handles_state st :
  (release_handles st).1
  = mk_engine (L := L) None None (g_is_generating st) (g_cancel_generation st)
      (g_load_progress st).
Proof. reflexivity. Qed.

Lemma release_handles_none gen cancel progress :
  release_handles (mk_engine (L := L) None None gen cancel progress)
  = (mk_engine (L := L) None None gen cancel progress, []).
Proof. reflexivity. Qed.

(** The callback only moves the progress fraction: after the reports it
    holds the last one. *)
Lemma progress_reports_fold (reports : list jfloat) st :
  foldl model_load_progress st reports
  = set_load_progress (default (g_load_progress st) (last reports)) st.
Proof.
  revert st. induction reports as [|p reports IH]; intros st; simpl.
  - by destruct st.
  - rewrite IH, last_cons. by destruct (last reports).
Qed.

(** X1.  A failed load leaves no handle behind, whatever was loaded
    before it and whatever made it fail. *)
Lemma loadModel_failure_unloaded path nThreads st :
  (loadModel path nThreads st).1.1 = false →
  g_model (loadModel path nThreads st).1.2 = None
  ∧ g_ctx (loadModel path nThreads st).1.2 = None
  ∧ isModelLoaded (loadModel path nThreads st).1.2 = false.
Proof.
  unfold loadModel.
  destruct (release_handles st) as [st0 ev0] eqn:Hrel.
  assert (st0 = (release_handles st).1) as Hst0 by by rewrite Hrel.
  rewrite release_handles_state in Hst0.
  destruct path as [p|]; [|by subst st0].
  destruct (llama_model_load_from_file L p) as [reports [m|]];
    rewrite progress_reports_fold.
  - destruct (llama_init_from_model L m _); [done|]. by subst st0.
  - by subst st0.
Qed.


(** No state blocks a later load: on a valid path [loadModel] succeeds
    from any state. *)
Lemma loadModel_valid_path p nThreads st :
  valid_path L p nThreads →
  (loadModel (Some p) nThreads st).1.1 = true
  ∧ isModelLoaded (loadModel (Some p) nThreads st).1.2 = true
  ∧ getLoadProgress (loadModel (Some p) nThreads st).1.2 = 1%Q.
Proof.
  intros (m & c & Hm & Hc). unfold loadModel.
  destruct (release_handles st) as [st0 ev0].
  destruct (llama_model_load_from_file L p) as [reports loaded].
  simpl in Hm; subst loaded. by rewrite Hc.
Qed.

(** C8.  [unloadModel] is idempotent: after any call nothing is loaded and
    the progress fraction is 0; a second call changes nothing and releases
    no handle (it only repeats [llama_backend_free]); and called with no
    handle present it releases nothing and leaves every global but the
    progress fraction, which it stores as 0, as it was. *)
Theorem unloadModel_idempotent st :
  let st1 := (unloadModel st).1 in
  unloadModel st1 = (st1, [EvBackendFree])
  ∧ isModelLoaded st1 = false
  ∧ getLoadProgress st1 = 0%Q
  ∧ isModelLoaded (unloadModel st1).1 = false
  ∧ getLoadProgress (unloadModel st1).1 = 0%Q
  ∧ ∀ gen cancel progress,
      unloadModel (mk_engine (L := L) None None gen cancel progress)
      = (mk_engine (L := L) None None gen cancel 0%Q, [EvBackendFree]).
Proof. by repeat split. Qed.

End LifecycleFacts.

(** C2.  A load whose weights are read in full and whose context cannot be
    built fails and leaves nothing loaded, and a later load of a valid path
    succeeds; but the progress fraction stays at the last value the loader
    reported, here 1, not 0.  Likewise weights that fail half way leave
    one half. *)
Theorem loadModel_failure_keeps_progress :
  let r := loadModel (L := Toy.api) (Some "huge.gguf") 4 engine_init in
  let r' := loadModel (L := Toy.api) (Some "corrupt.gguf") 4 engine_init in
  r.1.1 = false
  ∧ isModelLoaded r.1.2 = false
  ∧ getLoadProgress r.1.2 = 1%Q
  ∧ (loadModel (Some "toy.gguf") 4 r.1.2).1.1 = true
  ∧ r'.1.1 = false
  ∧ isModelLoaded r'.1.2 = false
  ∧ getLoadProgress r'.1.2 = (1#2)%Q.
Proof. by vm_compute. Qed.

(** ** The generation loops *)

Opaque single_batch prompt_batch.

Section LoopFacts.
Context {L : llama_api}.
Context (model : llama_model L) (stop_strs : list string) (h : host).

Implicit Types s : loop_state L.

(** A stop-string loop that does not stop leaves [result] as it was. *)
Lemma check_stop_strings_continue (result result' : string) :
  check_stop_strings result stop_strs = (result', false) → result' = result.
Proof.
  induction stop_strs as [|stop rest IH]; simpl.
  - by intros [= <-].
  - destruct (_ && _); [by destruct (_ =? _) | exact IH].
Qed.

(** Both loops always come to an exit: the singleton batch is always
    within its capacity. *)
Lemma generate_loop_defined fuel i s :
  is_Some (generate_loop model stop_strs h fuel i s).
Proof.
  revert i s. induction fuel as [|fuel IH]; intros i s; simpl; [done|].
  destruct (ls_cancel s || cancel_arrives h i); [done|].
  destruct (llama_sampler_sample L _ _) as [tok smpl].
  destruct (llama_vocab_is_eog L model tok); [done|].
  destruct (piece_of model tok) as [n piece].
  destruct (if 0 <? n then _ else _) as [result [|]]; [done|].
  rewrite single_batch_defined; simpl.
  destruct (llama_decode L _ _) as [status ctx].
  destruct (negb (status =? 0)); [done|].
  destruct (IH (S i) (mk_loop result (ls_n_cur s + 1) ctx smpl false))
    as [[s' evs] ->]. done.
Qed.

Lemma streaming_loop_defined fuel i s :
  is_Some (streaming_loop model stop_strs h fuel i s).
Proof.
  revert i s. induction fuel as [|fuel IH]; intros i s; simpl; [done|].
  destruct (ls_cancel s || cancel_arrives h i); [done|].
  destruct (llama_sampler_sample L _ _) as [tok smpl].
  destruct (llama_vocab_is_eog L model tok); [done|].
  destruct (piece_of model tok) as [n piece].
  destruct (stream_fragment _ _ _ _ _ _) as [[accumulated sink] [|]]; [done|].
  rewrite single_batch_defined; simpl.
  destruct (llama_decode L _ _) as [status ctx].
  destruct (negb (status =? 0)); [done|].
  destruct (IH (S i) (mk_loop accumulated (ls_n_cur s + 1) ctx smpl false))
    as [[s' evs] ->]. done.
Qed.

(** What one streamed fragment does: the sink is called at most once, with
    the fragment just decoded, and only when that fragment is not empty
    and the accumulated text matches no stop string; a match leaves the
    loop. *)
Lemma stream_fragment_spec i accumulated0 n piece0 accumulated sink leave :
  stream_fragment stop_strs h i accumulated0 n piece0
  = (accumulated, sink, leave) →
  accumulated = accumulated0 +:+ (if 0 <? n then piece0 else EmptyString)
  ∧ (sink = []
     ∨ ∃ threw, sink = [EvOnToken (StdString.c_str piece0) threw]
                ∧ (threw = true → leave = true)
                ∧ 0 < n ∧ piece0 ≠ EmptyString
                ∧ stream_should_stop accumulated stop_strs = false)
  ∧ (0 < n → stream_should_stop accumulated stop_strs = true →
     sink = [] ∧ leave = true).
Proof.
  unfold stream_fragment, send_token.
  destruct (0 <? n) eqn:Hn.
  - apply Z.ltb_lt in Hn.
    destruct (stream_should_stop (accumulated0 +:+ piece0) stop_strs)
      eqn:Hstop; simpl.
    { intros [= <- <- <-]. split_and!; [done | by left | done]. }
    destruct (negb (String.eqb piece0 EmptyString)) eqn:Hne; simpl;
      [destruct (new_string_utf h (StdString.c_str piece0)); simpl|];
      intros [= <- <- <-]; (split_and!; [done | | congruence]);
      try (by left).
    right. eexists. split_and!; try done.
    + by rewrite orb_false_r.
    + by apply negb_true_iff, String.eqb_neq in Hne.
  - intros [= <- <- <-]. rewrite string_app_nil_r.
    apply Z.ltb_ge in Hn. split_and!; [done | by left | lia].
Qed.

(** *** Cancellation *)

(** A flag seen set at a step boundary ends the loop there: nothing is
    called and the text is the one accumulated so far. *)
Lemma generate_loop_cancelled fuel i s :
  ls_cancel s || cancel_arrives h i = true →
  ∃ s', generate_loop model stop_strs h fuel i s = Some (s', [])
        ∧ ls_text s' = ls_text s ∧ ls_ctx s' = ls_ctx s.
Proof.
  intros Hflag. destruct fuel as [|fuel]; simpl; [by eexists|].
  rewrite Hflag. by eexists.
Qed.

Lemma streaming_loop_cancelled fuel i s :
  ls_cancel s || cancel_arrives h i = true →
  ∃ s', streaming_loop model stop_strs h fuel i s = Some (s', [])
        ∧ ls_text s' = ls_text s ∧ ls_ctx s' = ls_ctx s.
Proof.
  intros Hflag. destruct fuel as [|fuel]; simpl; [by eexists|].
  rewrite Hflag. by eexists.
Qed.

(** A loop whose flag is first seen set at step [i + k] does what the loop
    with a budget of [k] more steps does. *)
Lemma generate_loop_cut k : ∀ fuel i s,
  ls_cancel s = false →
  (∀ j, (i ≤ j < i + k)%nat → cancel_arrives h j = false) →
  cancel_arrives h (i + k) = true → (k < fuel)%nat →
  same_exit (generate_loop model stop_strs h fuel i s)
            (generate_loop model stop_strs h k i s).
Proof.
  induction k as [|k IH]; intros fuel i s Hs Hno Hyes Hlt;
    (destruct fuel as [|fuel]; [lia|]); simpl.
  - rewrite Nat.add_0_r in Hyes. by rewrite Hyes, orb_true_r.
  - rewrite Hs, (Hno i) by lia; simpl.
    destruct (llama_sampler_sample L _ _) as [tok smpl].
    destruct (llama_vocab_is_eog L model tok); [done|].
    destruct (piece_of model tok) as [n piece].
    destruct (if 0 <? n then _ else _) as [result [|]]; [done|].
    rewrite single_batch_defined; simpl.
    destruct (llama_decode L _ _) as [status ctx].
    destruct (negb (status =? 0)); [done|].
    assert (∀ j, (S i ≤ j < S i + k)%nat → cancel_arrives h j = false)
      as Hno' by (intros j Hj; apply Hno; lia).
    assert (cancel_arrives h (S i + k) = true) as Hyes'
      by (by replace (S i + k)%nat with (i + S k)%nat by lia).
    match goal with
    | |- context [generate_loop _ _ _ fuel (S i) ?s1] =>
        specialize (IH fuel (S i) s1 eq_refl Hno' Hyes' ltac:(lia))
    end.
    destruct (generate_loop _ _ _ fuel _ _) as [[s1 e1]|],
             (generate_loop _ _ _ k _ _) as [[s2 e2]|]; simpl in *; try done.
    by destruct IH as (?&?&?&?&->).
Qed.

Lemma streaming_loop_cut k : ∀ fuel i s,
  ls_cancel s = false →
  (∀ j, (i ≤ j < i + k)%nat → cancel_arrives h j = false) →
  cancel_arrives h (i + k) = true → (k < fuel)%nat →
  same_exit (streaming_loop model stop_strs h fuel i s)
            (streaming_loop model stop_strs h k i s).
Proof.
  induction k as [|k IH]; intros fuel i s Hs Hno Hyes Hlt;
    (destruct fuel as [|fuel]; [lia|]); simpl.
  - rewrite Nat.add_0_r in Hyes. by rewrite Hyes, orb_true_r.
  - rewrite Hs, (Hno i) by lia; simpl.
    destruct (llama_sampler_sample L _ _) as [tok smpl].
    destruct (llama_vocab_is_eog L model tok); [done|].
    destruct (piece_of model tok) as [n piece].
    destruct (stream_fragment _ _ _ _ _ _) as [[accumulated sink] [|]];
      [done|].
    rewrite single_batch_defined; simpl.
    destruct (llama_decode L _ _) as [status ctx].
    destruct (negb (status =? 0)); [done|].
    assert (∀ j, (S i ≤ j < S i + k)%nat → cancel_arrives h j = false)
      as Hno' by (intros j Hj; apply Hno; lia).
    assert (cancel_arrives h (S i + k) = true) as Hyes'
      by (by replace (S i + k)%nat with (i + S k)%nat by lia).
    match goal with
    | |- context [streaming_loop _ _ _ fuel (S i) ?s1] =>
        specialize (IH fuel (S i) s1 eq_refl Hno' Hyes' ltac:(lia))
    end.
    destruct (streaming_loop _ _ _ fuel _ _) as [[s1 e1]|],
             (streaming_loop _ _ _ k _ _) as [[s2 e2]|]; simpl in *; try done.
    by destruct IH as (?&?&?&?&->).
Qed.

(** Every step samples at most once. *)
Lemma generate_loop_sampled fuel : ∀ i s s' evs,
  generate_loop model stop_strs h fuel i s = Some (s', evs) →
  (length (sampled evs) ≤ fuel)%nat.
Proof.
  induction fuel as [|fuel IH]; intros i s s' evs; simpl.
  { by intros [= <- <-]. }
  destruct (ls_cancel s || cancel_arrives h i);
    [intros [= <- <-]; simpl; lia|].
  destruct (llama_sampler_sample L _ _) as [tok smpl].
  destruct (llama_vocab_is_eog L model tok); [intros [= <- <-]; simpl; lia|].
  destruct (piece_of model tok) as [n piece].
  destruct (if 0 <? n then _ else _) as [result [|]];
    [intros [= <- <-]; simpl; lia|].
  rewrite single_batch_defined; simpl.
  destruct (llama_decode L _ _) as [status ctx].
  destruct (negb (status =? 0)); [intros [= <- <-]; simpl; lia|].
  destruct (generate_loop _ _ _ fuel _ _) as [[s1 e1]|] eqn:Hrec;
    simpl; [|done].
  intros [= <- <-]. apply IH in Hrec. simpl. lia.
Qed.

Lemma sampled_app (e1 e2 : list event) :
  sampled (e1 ++ e2) = sampled e1 ++ sampled e2.
Proof. apply omap_app. Qed.

Lemma stream_fragment_sampled i accumulated0 n piece0 accumulated sink leave :
  stream_fragment stop_strs h i accumulated0 n piece0
  = (accumulated, sink, leave) →
  sampled sink = [].
Proof.
  intros Hfrag. apply stream_fragment_spec in Hfrag as (_ & Hsink & _).
  by destruct Hsink as [->|(threw & -> & _)].
Qed.

Lemma streaming_loop_sampled fuel : ∀ i s s' evs,
  streaming_loop model stop_strs h fuel i s = Some (s', evs) →
  (length (sampled evs) ≤ fuel)%nat.
Proof.
  induction fuel as [|fuel IH]; intros i s s' evs; simpl.
  { by intros [= <- <-]. }
  destruct (ls_cancel s || cancel_arrives h i);
    [intros [= <- <-]; simpl; lia|].
  destruct (llama_sampler_sample L _ _) as [tok smpl].
  destruct (llama_vocab_is_eog L model tok); [intros [= <- <-]; simpl; lia|].
  destruct (piece_of model tok) as [n piece].
  destruct (stream_fragment _ _ _ _ _ _) as [[accumulated sink] leave]
    eqn:Hfrag.
  apply stream_fragment_sampled in Hfrag.
  assert (∀ e, sampled (EvSample tok :: sink ++ e) = tok :: sampled e) as Hs.
  { intros e. change (sampled (EvSample tok :: sink ++ e))
      with (tok :: sampled (sink ++ e)). by rewrite sampled_app, Hfrag. }
  destruct leave.
  { intros [= <- <-]. rewrite <- (right_id_L [] (++) sink), Hs. simpl; lia. }
  rewrite single_batch_defined; simpl.
  destruct (llama_decode L _ _) as [status ctx].
  destruct (negb (status =? 0)).
  { intros [= <- <-]. rewrite Hs. simpl; lia. }
  destruct (streaming_loop _ _ _ fuel _ _) as [[s1 e1]|] eqn:Hrec;
    simpl; [|done].
  intros [= <- <-]. apply IH in Hrec. rewrite Hs. simpl. lia.
Qed.

(** A loop that starts with the flag clear and ends with it set has seen
    a cancellation arrive. *)
Lemma generate_loop_flag fuel : ∀ i s s' evs,
  generate_loop model stop_strs h fuel i s = Some (s', evs) →
  ls_cancel s = false → ls_cancel s' = true →
  ∃ j, (i ≤ j < i + fuel)%nat ∧ cancel_arrives h j = true.
Proof.
  induction fuel as [|fuel IH]; intros i s s' evs; simpl.
  { intros [= <- <-] Hs Hs'. congruence. }
  intros Hrun Hs. rewrite Hs in Hrun; simpl in Hrun.
  destruct (cancel_arrives h i) eqn:Hi.
  { intros _. exists i. split; [lia | done]. }
  revert Hrun.
  destruct (llama_sampler_sample L _ _) as [tok smpl].
  destruct (llama_vocab_is_eog L model tok); [by intros [= <- <-]|].
  destruct (piece_of model tok) as [n piece].
  destruct (if 0 <? n then _ else _) as [result [|]]; [by intros [= <- <-]|].
  rewrite single_batch_defined; simpl.
  destruct (llama_decode L _ _) as [status ctx].
  destruct (negb (status =? 0)); [by intros [= <- <-]|].
  destruct (generate_loop _ _ _ fuel _ _) as [[s1 e1]|] eqn:Hrec;
    simpl; [|done].
  intros [= <- <-] Hs'.
  destruct (IH _ _ _ _ Hrec eq_refl Hs') as (j & Hj & Harr).
  exists j. split; [lia | done].
Qed.

Lemma streaming_loop_flag fuel : ∀ i s s' evs,
  streaming_loop model stop_strs h fuel i s = Some (s', evs) →
  ls_cancel s = false → ls_cancel s' = true →
  ∃ j, (i ≤ j < i + fuel)%nat ∧ cancel_arrives h j = true.
Proof.
  induction fuel as [|fuel IH]; intros i s s' evs; simpl.
  { intros [= <- <-] Hs Hs'. congruence. }
  intros Hrun Hs. rewrite Hs in Hrun; simpl in Hrun.
  destruct (cancel_arrives h i) eqn:Hi.
  { intros _. exists i. split; [lia | done]. }
  revert Hrun.
  destruct (llama_sampler_sample L _ _) as [tok smpl].
  destruct (llama_vocab_is_eog L model tok); [by intros [= <- <-]|].
  destruct (piece_of model tok) as [n piece].
  destruct (stream_fragment _ _ _ _ _ _) as [[accumulated sink] [|]];
    [by intros [= <- <-]|].
  rewrite single_batch_defined; simpl.
  destruct (llama_decode L _ _) as [status ctx].
  destruct (negb (status =? 0)); [by intros [= <- <-]|].
  destruct (streaming_loop _ _ _ fuel _ _) as [[s1 e1]|] eqn:Hrec;
    simpl; [|done].
  intros [= <- <-] Hs'.
  destruct (IH _ _ _ _ Hrec eq_refl Hs') as (j & Hj & Harr).
  exists j. split; [lia | done].
Qed.

(** *** The accumulated text *)

Lemma text_of_app (e1 e2 : list event) :
  text_of model (e1 ++ e2) = text_of model e1 +:+ text_of model e2.
Proof.
  induction e1 as [|e e1 IH]; [done|].
  destruct e; simpl; try done. by rewrite IH, string_app_assoc.
Qed.

Lemma fragment_of_piece tok n piece :
  llama_vocab_is_eog L model tok = false →
  piece_of model tok = (n, piece) →
  fragment_of model tok = if 0 <? n then piece else EmptyString.
Proof. intros Heog Hpiece. unfold fragment_of. by rewrite Heog, Hpiece. Qed.

Lemma fragment_of_eog tok :
  llama_vocab_is_eog L model tok = true → fragment_of model tok = EmptyString.
Proof. intros Heog. unfold fragment_of. by rewrite Heog. Qed.

(** A step of [generate] that goes on has appended the fragment. *)
Lemma generate_step_text (text : string) n piece result :
  (if 0 <? n then check_stop_strings (text +:+ piece) stop_strs
   else (text, false)) = (result, false) →
  result = text +:+ (if 0 <? n then piece else EmptyString).
Proof.
  destruct (0 <? n).
  - apply check_stop_strings_continue.
  - intros [= <-]. by rewrite string_app_nil_r.
Qed.

Lemma stream_fragment_text i accumulated0 n piece0 accumulated sink leave :
  stream_fragment stop_strs h i accumulated0 n piece0
  = (accumulated, sink, leave) →
  text_of model sink = EmptyString.
Proof.
  intros Hfrag. apply stream_fragment_spec in Hfrag as (_ & Hsink & _).
  by destruct Hsink as [->|(threw & -> & _)].
Qed.

(** *** Failure of a per-token evaluation *)

(** When the evaluation of a sampled token fails, the loop ends there and
    its text is everything the sampled tokens decoded to. *)
Lemma generate_loop_eval_failure fuel : ∀ i s s' evs b status,
  generate_loop model stop_strs h fuel i s = Some (s', evs) →
  EvDecode TokenEval b status ∈ evs → status ≠ 0 →
  ls_text s' = ls_text s +:+ text_of model evs
  ∧ last evs = Some (EvDecode TokenEval b status).
Proof.
  induction fuel as [|fuel IH]; intros i s s' evs b status; simpl.
  { intros [= <- <-] Hin. by apply elem_of_nil in Hin. }
  destruct (ls_cancel s || cancel_arrives h i).
  { intros [= <- <-] Hin. by apply elem_of_nil in Hin. }
  destruct (llama_sampler_sample L _ _) as [tok smpl].
  destruct (llama_vocab_is_eog L model tok) eqn:Heog.
  { intros [= <- <-] Hin. apply list_elem_of_singleton in Hin. done. }
  destruct (piece_of model tok) as [n piece] eqn:Hpiece.
  destruct (if 0 <? n then _ else _) as [result [|]] eqn:Hstep.
  { intros [= <- <-] Hin. apply list_elem_of_singleton in Hin. done. }
  apply generate_step_text in Hstep.
  rewrite <- (fragment_of_piece _ _ _ Heog Hpiece) in Hstep.
  rewrite single_batch_defined; simpl.
  destruct (llama_decode L _ _) as [status0 ctx].
  destruct (negb (status0 =? 0)) eqn:Hstatus.
  - intros [= <- <-] Hin Hne.
    apply elem_of_cons in Hin as [Hin|Hin]; [done|].
    apply list_elem_of_singleton in Hin as [= -> ->].
    simpl. by rewrite string_app_nil_r.
  - destruct (generate_loop _ _ _ fuel _ _) as [[s1 e1]|] eqn:Hrec;
      simpl; [|done].
    intros [= <- <-] Hin Hne.
    apply negb_false_iff, Z.eqb_eq in Hstatus as ->.
    apply elem_of_cons in Hin as [Hin|Hin]; [done|].
    apply elem_of_cons in Hin as [[= _ ->]|Hin]; [done|].
    destruct (IH _ _ _ _ _ _ Hrec Hin Hne) as [Htext Hlast].
    simpl in Htext. split.
    + simpl. by rewrite Htext, Hstep, string_app_assoc.
    + by rewrite !last_cons, Hlast.
Qed.

Lemma streaming_loop_eval_failure fuel : ∀ i s s' evs b status,
  streaming_loop model stop_strs h fuel i s = Some (s', evs) →
  EvDecode TokenEval b status ∈ evs → status ≠ 0 →
  ls_text s' = ls_text s +:+ text_of model evs
  ∧ last evs = Some (EvDecode TokenEval b status).
Proof.
  induction fuel as [|fuel IH]; intros i s s' evs b status; simpl.
  { intros [= <- <-] Hin. by apply elem_of_nil in Hin. }
  destruct (ls_cancel s || cancel_arrives h i).
  { intros [= <- <-] Hin. by apply elem_of_nil in Hin. }
  destruct (llama_sampler_sample L _ _) as [tok smpl].
  destruct (llama_vocab_is_eog L model tok) eqn:Heog.
  { intros [= <- <-] Hin. apply list_elem_of_singleton in Hin. done. }
  destruct (piece_of model tok) as [n piece] eqn:Hpiece.
  destruct (stream_fragment _ _ _ _ _ _) as [[accumulated sink] leave]
    eqn:Hfrag.
  pose proof (stream_fragment_text _ _ _ _ _ _ _ Hfrag) as Htsink.
  apply stream_fragment_spec in Hfrag as (Hacc & Hsink & _).
  rewrite <- (fragment_of_piece _ _ _ Heog Hpiece) in Hacc.
  assert (∀ b status, EvDecode TokenEval b status ∉ sink) as Hnot.
  { intros ?? Hin. destruct Hsink as [->|(threw & -> & _)].
    - by apply elem_of_nil in Hin.
    - by apply list_elem_of_singleton in Hin. }
  destruct leave.
  { intros [= <- <-] Hin. apply elem_of_cons in Hin as [Hin|Hin]; [done|].
    by apply Hnot in Hin. }
  rewrite single_batch_defined; simpl.
  destruct (llama_decode L _ _) as [status0 ctx].
  destruct (negb (status0 =? 0)) eqn:Hstatus.
  - intros [= <- <-] Hin Hne.
    apply elem_of_cons in Hin as [Hin|Hin]; [done|].
    apply elem_of_app in Hin as [Hin|Hin]; [by apply Hnot in Hin|].
    apply list_elem_of_singleton in Hin as [= -> ->].
    split.
    + simpl. rewrite text_of_app, Htsink, Hacc; simpl.
      by rewrite string_app_nil_l, string_app_nil_r.
    + by rewrite last_cons, last_snoc.
  - destruct (streaming_loop _ _ _ fuel _ _) as [[s1 e1]|] eqn:Hrec;
      simpl; [|done].
    intros [= <- <-] Hin Hne.
    apply negb_false_iff, Z.eqb_eq in Hstatus as ->.
    apply elem_of_cons in Hin as [Hin|Hin]; [done|].
    apply elem_of_app in Hin as [Hin|Hin]; [by apply Hnot in Hin|].
    apply elem_of_cons in Hin as [[= _ ->]|Hin]; [done|].
    destruct (IH _ _ _ _ _ _ Hrec Hin Hne) as [Htext Hlast].
    simpl in Htext. split.
    + simpl. rewrite text_of_app, Htsink; simpl.
      by rewrite string_app_nil_l, Htext, Hacc, string_app_assoc.
    + rewrite last_cons, last_app, last_cons, Hlast. done.
Qed.

(** *** Positions of the per-token batches *)

(** The [k]-th batch evaluated in the loop holds the [k]-th sampled token,
    at the position [k] after the one the loop started from, with the flag
    raised. *)
Lemma generate_loop_batches fuel : ∀ i s s' evs k b,
  generate_loop model stop_strs h fuel i s = Some (s', evs) →
  token_batches evs !! k = Some b →
  ∃ t, sampled evs !! k = Some t
       ∧ b = single_of t (ls_n_cur s + Z.of_nat k).
Proof.
  induction fuel as [|fuel IH]; intros i s s' evs k b; simpl.
  { by intros [= <- <-]. }
  destruct (ls_cancel s || cancel_arrives h i); [by intros [= <- <-]|].
  destruct (llama_sampler_sample L _ _) as [tok smpl].
  destruct (llama_vocab_is_eog L model tok); [by intros [= <- <-]|].
  destruct (piece_of model tok) as [n piece].
  destruct (if 0 <? n then _ else _) as [result [|]]; [by intros [= <- <-]|].
  rewrite single_batch_defined; simpl.
  destruct (llama_decode L _ _) as [status0 ctx].
  destruct (negb (status0 =? 0)).
  - intros [= <- <-]. destruct k as [|[|k]]; simpl; [|done..].
    intros [= <-]. exists tok. by rewrite Z.add_0_r.
  - destruct (generate_loop _ _ _ fuel _ _) as [[s1 e1]|] eqn:Hrec;
      simpl; [|done].
    intros [= <- <-]. destruct k as [|k]; simpl.
    + intros [= <-]. exists tok. by rewrite Z.add_0_r.
    + intros Hk. destruct (IH _ _ _ _ _ _ Hrec Hk) as (t & Ht & ->).
      exists t. split; [done|]. simpl. f_equal. lia.
Qed.

Lemma streaming_loop_batches fuel : ∀ i s s' evs k b,
  streaming_loop model stop_strs h fuel i s = Some (s', evs) →
  token_batches evs !! k = Some b →
  ∃ t, sampled evs !! k = Some t
       ∧ b = single_of t (ls_n_cur s + Z.of_nat k).
Proof.
  induction fuel as [|fuel IH]; intros i s s' evs k b; simpl.
  { by intros [= <- <-]. }
  destruct (ls_cancel s || cancel_arrives h i); [by intros [= <- <-]|].
  destruct (llama_sampler_sample L _ _) as [tok smpl].
  destruct (llama_vocab_is_eog L model tok); [by intros [= <- <-]|].
  destruct (piece_of model tok) as [n piece].
  destruct (stream_fragment _ _ _ _ _ _) as [[accumulated sink] leave]
    eqn:Hfrag.
  pose proof (stream_fragment_sampled _ _ _ _ _ _ _ Hfrag) as Hssink.
  assert (token_batches sink = []) as Hbsink.
  { apply stream_fragment_spec in Hfrag as (_ & Hsink & _).
    by destruct Hsink as [->|(threw & -> & _)]. }
  assert (∀ e, sampled (EvSample tok :: sink ++ e) = tok :: sampled e) as Hs.
  { intros e. change (sampled (EvSample tok :: sink ++ e))
      with (tok :: sampled (sink ++ e)). by rewrite sampled_app, Hssink. }
  assert (∀ e, token_batches (EvSample tok :: sink ++ e) = token_batches e)
    as Hb.
  { intros e. change (token_batches (EvSample tok :: sink ++ e))
      with (token_batches (sink ++ e)).
    unfold token_batches at 1. rewrite omap_app.
    fold (token_batches sink). by rewrite Hbsink. }
  destruct leave.
  { intros [= <- <-]. rewrite <- (right_id_L [] (++) sink), Hb. done. }
  rewrite single_batch_defined; simpl.
  destruct (llama_decode L _ _) as [status0 ctx].
  destruct (negb (status0 =? 0)).
  - intros [= <- <-]. rewrite Hb, Hs.
    destruct k as [|[|k]]; simpl; [|done..].
    intros [= <-]. exists tok. by rewrite Z.add_0_r.
  - destruct (streaming_loop _ _ _ fuel _ _) as [[s1 e1]|] eqn:Hrec;
      simpl; [|done].
    intros [= <- <-]. rewrite Hb, Hs. destruct k as [|k]; simpl.
    + intros [= <-]. exists tok. by rewrite Z.add_0_r.
    + intros Hk. destruct (IH _ _ _ _ _ _ Hrec Hk) as (t & Ht & ->).
      exists t. split; [done|]. simpl. f_equal. lia.
Qed.

(** The loops evaluate no prompt batch. *)
Lemma generate_loop_no_prompt fuel : ∀ i s s' evs,
  generate_loop model stop_strs h fuel i s = Some (s', evs) →
  prompt_batches evs = [].
Proof.
  induction fuel as [|fuel IH]; intros i s s' evs; simpl.
  { by intros [= <- <-]. }
  destruct (ls_cancel s || cancel_arrives h i); [by intros [= <- <-]|].
  destruct (llama_sampler_sample L _ _) as [tok smpl].
  destruct (llama_vocab_is_eog L model tok); [by intros [= <- <-]|].
  destruct (piece_of model tok) as [n piece].
  destruct (if 0 <? n then _ else _) as [result [|]]; [by intros [= <- <-]|].
  rewrite single_batch_defined; simpl.
  destruct (llama_decode L _ _) as [status0 ctx].
  destruct (negb (status0 =? 0)); [by intros [= <- <-]|].
  destruct (generate_loop _ _ _ fuel _ _) as [[s1 e1]|] eqn:Hrec;
    simpl; [|done].
  intros [= <- <-]. by apply IH in Hrec.
Qed.

Lemma streaming_loop_no_prompt fuel : ∀ i s s' evs,
  streaming_loop model stop_strs h fuel i s = Some (s', evs) →
  prompt_batches evs = [].
Proof.
  induction fuel as [|fuel IH]; intros i s s' evs; simpl.
  { by intros [= <- <-]. }
  destruct (ls_cancel s || cancel_arrives h i); [by intros [= <- <-]|].
  destruct (llama_sampler_sample L _ _) as [tok smpl].
  destruct (llama_vocab_is_eog L model tok); [by intros [= <- <-]|].
  destruct (piece_of model tok) as [n piece].
  destruct (stream_fragment _ _ _ _ _ _) as [[accumulated sink] leave]
    eqn:Hfrag.
  assert (∀ e, prompt_batches (EvSample tok :: sink ++ e) = prompt_batches e)
    as Hb.
  { intros e. apply stream_fragment_spec in Hfrag as (_ & Hsink & _).
    by destruct Hsink as [->|(threw & -> & _)]. }
  destruct leave.
  { intros [= <- <-]. by rewrite <- (right_id_L [] (++) sink), Hb. }
  rewrite single_batch_defined; simpl.
  destruct (llama_decode L _ _) as [status0 ctx].
  destruct (negb (status0 =? 0)); [intros [= <- <-]; by rewrite Hb|].
  destruct (streaming_loop _ _ _ fuel _ _) as [[s1 e1]|] eqn:Hrec;
    simpl; [|done].
  intros [= <- <-]. rewrite Hb. simpl. by apply IH in Hrec.
Qed.

(** *** What reaches the sink *)

Lemma streaming_loop_sink fuel : ∀ i s s' evs pending,
  streaming_loop model stop_strs h fuel i s = Some (s', evs) →
  sink_respects_stops model stop_strs (ls_text s) pending evs.
Proof.
  induction fuel as [|fuel IH]; intros i s s' evs pending; simpl.
  { by intros [= <- <-]. }
  destruct (ls_cancel s || cancel_arrives h i); [by intros [= <- <-]|].
  destruct (llama_sampler_sample L _ _) as [tok smpl].
  destruct (llama_vocab_is_eog L model tok) eqn:Heog.
  { intros [= <- <-]. simpl. by rewrite fragment_of_eog. }
  destruct (piece_of model tok) as [n piece] eqn:Hpiece.
  destruct (stream_fragment _ _ _ _ _ _) as [[accumulated sink] leave]
    eqn:Hfrag.
  apply stream_fragment_spec in Hfrag as (Hacc & Hsink & Hmatch).
  pose proof (fragment_of_piece _ _ _ Heog Hpiece) as Hfragment.
  rewrite <- Hfragment in Hacc.
  assert (fragment_of model tok ≠ EmptyString → 0 < n) as Hpos.
  { rewrite Hfragment. destruct (0 <? n) eqn:Hn; [|done].
    intros _. by apply Z.ltb_lt. }
  (* what follows the sampled token, once the sink has had its call *)
  assert (∀ rest,
    (leave = true → rest = []) →
    sink_respects_stops model stop_strs accumulated None rest →
    (∀ pending, sink_respects_stops model stop_strs accumulated pending rest) →
    sink_respects_stops model stop_strs (ls_text s) pending
      (EvSample tok :: sink ++ rest)) as Hstep.
  { intros rest Hleave Hrest Hrest'. simpl. rewrite <- Hacc. split.
    - intros Hne Hstop. destruct (Hmatch (Hpos Hne) Hstop) as [-> ->].
      by apply Hleave.
    - destruct Hsink as [->|(threw & -> & _ & Hn & Hne & Hstop)].
      + apply Hrest'.
      + simpl. rewrite Hfragment. apply Z.ltb_lt in Hn. rewrite Hn.
        by split_and!. }
  destruct leave.
  { intros [= <- <-]. rewrite <- (right_id_L [] (++) sink). by apply Hstep. }
  rewrite single_batch_defined; simpl.
  destruct (llama_decode L _ _) as [status0 ctx].
  destruct (negb (status0 =? 0)).
  - intros [= <- <-]. by apply Hstep.
  - destruct (streaming_loop _ _ _ fuel _ _) as [[s1 e1]|] eqn:Hrec;
      simpl; [|done].
    intros [= <- <-]. apply Hstep; [done|..]; simpl; intros;
      by apply (IH _ _ _ _ _ Hrec).
Qed.

End LoopFacts.

(** ** Reading the sink's obligations off a trace *)

Section SinkFacts.
Context {L : llama_api}.
Context (model : llama_model L) (stop_strs : list string).

(** Before every call of the sink the accumulated text, fragment
    included, matches no stop string, and the string handed over is the
    non-empty fragment of the token sampled just before, as a C string. *)
Lemma sink_respects_delivery pre : ∀ acc pending p threw post,
  sink_respects_stops model stop_strs acc pending
    (pre ++ EvOnToken p threw :: post) →
  stream_should_stop (acc +:+ text_of model pre) stop_strs = false
  ∧ ((pre = []
      ∧ ∃ fragment, pending = Some fragment ∧ fragment ≠ EmptyString
                    ∧ p = StdString.c_str fragment)
     ∨ ∃ pre0 tok, pre = pre0 ++ [EvSample tok]
                   ∧ fragment_of model tok ≠ EmptyString
                   ∧ p = StdString.c_str (fragment_of model tok)).
Proof.
  induction pre as [|e pre IH]; intros acc pending p threw post; simpl.
  { intros (Hpending & Hstop & _). rewrite string_app_nil_r.
    split; [done|]. left. split; [done|].
    destruct pending as [fragment|]; [|done]. by exists fragment. }
  assert (∀ acc' pending',
    text_of model (e :: pre) = text_of model pre → acc' = acc →
    sink_respects_stops model stop_strs acc' pending'
      (pre ++ EvOnToken p threw :: post) →
    pending' = None →
    stream_should_stop (acc +:+ text_of model (e :: pre)) stop_strs = false
    ∧ ((e :: pre = []
        ∧ ∃ fragment, pending = Some fragment ∧ fragment ≠ EmptyString
                      ∧ p = StdString.c_str fragment)
       ∨ ∃ pre0 tok, e :: pre = pre0 ++ [EvSample tok]
                     ∧ fragment_of model tok ≠ EmptyString
                     ∧ p = StdString.c_str (fragment_of model tok)))
    as Hskip.
  { intros acc' pending' -> -> Hmon ->.
    destruct (IH _ _ _ _ _ Hmon)
      as (Hstop & [[_ (fragment & [=] & _)]|Hpre]).
    destruct Hpre as (pre0 & tok & -> & Hfrag).
    split; [done|]. right. by exists (e :: pre0), tok. }
  destruct e; try (intros Hmon; by eapply Hskip).
  - intros (_ & Hmon).
    destruct (IH _ _ _ _ _ Hmon) as (Hstop & Hpre).
    rewrite string_app_assoc in Hstop. split; [done|]. right.
    destruct Hpre
      as [[-> (fragment & [= <-] & Hfrag)]|(pre0 & tok' & -> & Hfrag)].
    + by exists [], tok.
    + by exists (EvSample tok :: pre0), tok'.
  - intros (_ & _ & Hmon). by eapply Hskip.
Qed.

(** A sampled token whose fragment completes a match ends the trace. *)
Lemma sink_respects_match pre : ∀ acc pending tok post,
  sink_respects_stops model stop_strs acc pending
    (pre ++ EvSample tok :: post) →
  fragment_of model tok ≠ EmptyString →
  stream_should_stop (acc +:+ text_of model pre +:+ fragment_of model tok)
    stop_strs = true →
  post = [].
Proof.
  induction pre as [|e pre IH]; intros acc pending tok post; simpl.
  { intros [Hlast _] Hne Hstop. rewrite string_app_nil_l in Hstop. auto. }
  destruct e; try (intros Hmon; by eapply IH).
  - intros (_ & Hmon) Hne Hstop. eapply IH; [done..|].
    by rewrite !string_app_assoc in *.
  - intros (_ & _ & Hmon). by eapply IH.
Qed.

End SinkFacts.

(** ** Generation requests *)

Section RequestFacts.
Context {L : llama_api}.

Implicit Types st : engine L.
Implicit Types loop :
  llama_model L → list string → host → nat → nat → loop_state L
  → option (loop_state L * list event).

Lemma tokenize_prompt_length (m : llama_model L) (p : string) :
  length (tokenize_prompt m p).2 = Z.to_nat (tokenize_prompt m p).1.
Proof.
  unfold tokenize_prompt. destruct (llama_tokenize L m p _) as [n written].
  simpl. by rewrite length_resize.
Qed.

(** The prompt batch exists exactly when the prompt has a token. *)
Lemma prompt_batch_tokenized (m : llama_model L) (p : string) :
  0 ≤ (tokenize_prompt m p).1 →
  prompt_batch (tokenize_prompt m p).2
  = if decide ((tokenize_prompt m p).1 = 0) then None
    else Some (prompt_of (tokenize_prompt m p).2).
Proof.
  intros Hn. pose proof (tokenize_prompt_length m p) as Hlen.
  destruct (tokenize_prompt m p) as [n tokens]; simpl in *.
  case_decide as Hz.
  - subst n. destruct tokens; [apply prompt_batch_empty | done].
  - apply prompt_batch_nonempty. intros ->. simpl in Hlen. lia.
Qed.

(** What a request that got past the model check leaves behind. *)
Lemma run_generation_result loop a h m c st :
  (∀ stops fuel i s, is_Some (loop m stops h fuel i s)) →
  match run_generation loop a h m c st with
  | Some (_, st', _) =>
      g_is_generating st' = false ∧ g_model st' = g_model st
      ∧ (is_Some (g_ctx st) → is_Some (g_ctx st'))
      ∧ g_load_progress st' = g_load_progress st
  | None => (tokenize_prompt m (prompt a)).1 = 0
  end.
Proof.
  intros Hloop. unfold run_generation.
  pose proof (prompt_batch_tokenized m (prompt a)) as Hbatch.
  destruct (tokenize_prompt m (prompt a)) as [n tokens]; simpl in *.
  destruct (n <? 0) eqn:Hn; [done|].
  apply Z.ltb_ge in Hn. rewrite (Hbatch Hn).
  case_decide; [done|]; simpl.
  destruct (llama_decode L _ _) as [status ctx].
  destruct (negb (status =? 0)); [by split_and!|].
  match goal with
  | |- context [loop m ?stops h ?fuel ?i ?s] =>
      destruct (Hloop stops fuel i s) as [[s' evs] ->]
  end. simpl. by split_and!.
Qed.

(** Reading the text of a request as a C string. *)
Lemma c_str_request (r : option (string * engine L * list event))
    txt st' evs :
  ('(result, st, evs) ← r; Some (StdString.c_str result, st, evs))
  = Some (txt, st', evs) →
  ∃ result, r = Some (result, st', evs) ∧ txt = StdString.c_str result.
Proof.
  destruct r as [[[result st1] evs1]|]; [|done].
  intros [= <- <- <-]. by exists result.
Qed.

Lemma outcome_c_str (r1 r2 : option (string * engine L * list event)) :
  outcome r1 = outcome r2 →
  outcome ('(result, st, evs) ← r1; Some (StdString.c_str result, st, evs))
  = outcome ('(result, st, evs) ← r2;
             Some (StdString.c_str result, st, evs)).
Proof.
  destruct r1 as [[[t1 s1] e1]|], r2 as [[[t2 s2] e2]|]; try done.
  by intros [= -> ->].
Qed.

(** [generate] on a loaded model is its request, with the text read as a
    C string. *)
Lemma generate_Some a h st m c txt st' evs :
  g_model st = Some m → g_ctx st = Some c →
  generate a h st = Some (txt, st', evs) →
  ∃ result,
    run_generation generate_loop a h m c
      (set_cancel_generation false (set_is_generating true st))
    = Some (result, st', evs)
    ∧ txt = StdString.c_str result.
Proof.
  intros Hm Hc. unfold generate. rewrite Hm, Hc.
  destruct (run_generation _ _ _ _ _ _) as [[[result st1] evs1]|];
    [|done].
  intros [= <- <- <-]. by exists result.
Qed.

Lemma generate_result a h st :
  match generate a h st with
  | Some (_, st', _) =>
      (isModelLoaded st = true → g_is_generating st' = false)
      ∧ (isModelLoaded st = false → st' = on_absent h st)
      ∧ isModelLoaded st' = isModelLoaded st
      ∧ g_model st' = g_model st
      ∧ g_load_progress st' = g_load_progress st
  | None => tokenless a st
  end.
Proof.
  unfold generate, isModelLoaded, tokenless.
  destruct (g_model st) as [m|] eqn:Hm, (g_ctx st) as [c|] eqn:Hc;
    try (simpl; rewrite ?Hm, ?Hc; by split_and!).
  pose proof (run_generation_result generate_loop a h m c
    (set_cancel_generation false (set_is_generating true st))
    (λ stops fuel i s, generate_loop_defined m stops h fuel i s)) as Hrun.
  destruct (run_generation _ _ _ _ _ _) as [[[txt st'] evs]|];
    [|simpl; by eauto].
  simpl in *. destruct Hrun as (Hgen & -> & Hctx & ->).
  rewrite Hm. destruct Hctx as [c' ->]; [by rewrite Hc|]. by split_and!.
Qed.

Lemma generateStreaming_result a h st :
  match generateStreaming a h st with
  | Some (_, st', _) =>
      (isModelLoaded st = true → g_is_generating st' = false)
      ∧ (isModelLoaded st = false → st' = on_absent h st)
      ∧ isModelLoaded st' = isModelLoaded st
      ∧ g_model st' = g_model st
      ∧ g_load_progress st' = g_load_progress st
  | None => tokenless a st
  end.
Proof.
  unfold generateStreaming, isModelLoaded, tokenless.
  destruct (g_model st) as [m|] eqn:Hm, (g_ctx st) as [c|] eqn:Hc;
    try (simpl; rewrite ?Hm, ?Hc; by split_and!).
  destruct (has_onToken h).
  2:{ simpl. rewrite Hm, Hc. by split_and!. }
  pose proof (run_generation_result streaming_loop a h m c
    (set_cancel_generation false (set_is_generating true st))
    (λ stops fuel i s, streaming_loop_defined m stops h fuel i s)) as Hrun.
  destruct (run_generation _ _ _ _ _ _) as [[[txt st'] evs]|]; [|by eauto].
  simpl in Hrun. destruct Hrun as (Hgen & -> & Hctx & ->).
  rewrite Hm. destruct Hctx as [c' ->]; [by rewrite Hc|]. by split_and!.
Qed.

(** Between calls no generation is in flight. *)
Lemma reachable_idle st : reachable st → g_is_generating st = false.
Proof.
  induction 1 as [|path nThreads st _ IH|st _ IH|st _ IH
                  |a h st txt st' evs _ IH Hrun
                  |a h st txt st' evs _ IH Hrun].
  - done.
  - unfold loadModel. destruct (release_handles st) as [st0 ev0] eqn:Hrel.
    assert (g_is_generating st0 = false) as Hst0.
    { replace st0 with (release_handles st).1 by by rewrite Hrel. done. }
    destruct path as [p|]; [|done].
    destruct (llama_model_load_from_file L p) as [reports [m|]];
      rewrite progress_reports_fold; [|done].
    by destruct (llama_init_from_model L m _).
  - done.
  - done.
  - pose proof (generate_result a h st) as Hres. rewrite Hrun in Hres.
    destruct Hres as (Hloaded & Hnot & _).
    destruct (isModelLoaded st); [by apply Hloaded|].
    by rewrite Hnot.
  - pose proof (generateStreaming_result a h st) as Hres.
    rewrite Hrun in Hres. destruct Hres as (Hloaded & Hnot & _).
    destruct (isModelLoaded st); [by apply Hloaded|].
    by rewrite Hnot.
Qed.

(** C10.  From every state the bridge can be in, a call of [generate] or
    [generateStreaming] that returns leaves [isGenerating()] false, whichever
    way it left; the only calls that do not return are those whose prompt
    has no token, where the write to [batch.logits[-1]] is undefined. *)
Theorem generating_flag_reset a h st :
  reachable st →
  match generate a h st with
  | Some (_, st', _) => isGenerating st' = false
  | None => tokenless a st
  end
  ∧ match generateStreaming a h st with
    | Some (_, st', _) => isGenerating st' = false
    | None => tokenless a st
    end.
Proof.
  intros Hidle%reachable_idle. split.
  - pose proof (generate_result a h st) as Hres.
    destruct (generate a h st) as [[[txt st'] evs]|]; [|done].
    destruct Hres as (Hloaded & Hnot & _). unfold isGenerating.
    destruct (isModelLoaded st); [by apply Hloaded|]. by rewrite Hnot.
  - pose proof (generateStreaming_result a h st) as Hres.
    destruct (generateStreaming a h st) as [[[txt st'] evs]|]; [|done].
    destruct Hres as (Hloaded & Hnot & _). unfold isGenerating.
    destruct (isModelLoaded st); [by apply Hloaded|]. by rewrite Hnot.
Qed.

(** *** Requests and their loops *)

Lemma outcome_Some (r : option (string * engine L * list event)) txt evs :
  outcome r = Some (txt, evs) ↔ ∃ st', r = Some (txt, st', evs).
Proof.
  unfold outcome. destruct r as [[[txt0 st0] evs0]|]; simpl; split.
  - intros [= -> ->]. by exists st0.
  - by intros (st' & [= -> _ ->]).
  - done.
  - by intros (st' & [=]).
Qed.

(** A request that reaches its loop: the prompt has been evaluated with
    the intended batch, and the loop starts from an empty text at the
    position after the prompt with a fresh sampler. *)
Lemma run_generation_loop loop a h m c st txt st' evs :
  run_generation loop a h m c st = Some (txt, st', evs) →
  evs = []
  ∨ (∃ status, status ≠ 0 ∧ txt = EmptyString ∧
       evs = [EvMemoryClear;
              EvDecode PromptEval
                (prompt_of (tokenize_prompt m (prompt a)).2) status])
  ∨ (∃ ctx s' e1,
       loop m (default [] (stopStrings a)) h (Z.to_nat (maxTokens a)) 0%nat
         (mk_loop EmptyString (Z.of_nat (length (tokenize_prompt m (prompt a)).2)) ctx
            (llama_sampler_chain L (random_device h) (sampler_stages a))
            (g_cancel_generation st))
       = Some (s', e1)
       ∧ txt = ls_text s' ∧ st' = finish h st s'
       ∧ evs = EvMemoryClear
               :: EvDecode PromptEval
                    (prompt_of (tokenize_prompt m (prompt a)).2) 0
               :: e1).
Proof.
  unfold run_generation.
  pose proof (prompt_batch_tokenized m (prompt a)) as Hbatch.
  pose proof (tokenize_prompt_length m (prompt a)) as Hlen.
  destruct (tokenize_prompt m (prompt a)) as [n tokens]; simpl in *.
  destruct (n <? 0) eqn:Hn; [intros [= <- <- <-]; by left|].
  apply Z.ltb_ge in Hn. rewrite (Hbatch Hn).
  case_decide; [done|]; simpl.
  destruct (llama_decode L _ _) as [status ctx].
  destruct (negb (status =? 0)) eqn:Hstatus.
  - intros [= <- <- <-]. right; left. exists status.
    by apply negb_true_iff, Z.eqb_neq in Hstatus.
  - apply negb_false_iff, Z.eqb_eq in Hstatus as ->.
    rewrite Hlen, Z2Nat.id by done.
    destruct (loop _ _ _ _ _ _) as [[s' e1]|] eqn:Hloop; simpl; [|done].
    intros [= <- <- <-]. right; right. by exists ctx, s', e1.
Qed.

(** *** Cancellation *)

Lemma run_generation_cut loop a h m c st k :
  (∀ stops fuel s, ls_cancel s = false → (k < fuel)%nat →
     same_exit (loop m stops h fuel 0%nat s) (loop m stops h k 0%nat s)) →
  g_cancel_generation st = false → Z.of_nat k < maxTokens a →
  outcome (run_generation loop a h m c st)
  = outcome (run_generation loop (with_maxTokens (Z.of_nat k) a) h m c st).
Proof.
  intros Hcut Hst Hk. unfold run_generation; simpl.
  destruct (tokenize_prompt m (prompt a)) as [n tokens].
  destruct (n <? 0); [done|].
  destruct (prompt_batch tokens) as [batch|]; [simpl|done].
  destruct (llama_decode L _ _) as [status ctx].
  destruct (negb (status =? 0)); [done|].
  rewrite Nat2Z.id, Hst.
  match goal with
  | |- context [loop m ?stops h (Z.to_nat (maxTokens a)) 0%nat ?s] =>
      specialize (Hcut stops (Z.to_nat (maxTokens a)) s eq_refl ltac:(lia))
  end.
  change (sampler_stages (with_maxTokens (Z.of_nat k) a))
    with (sampler_stages a).
  destruct (loop _ _ _ (Z.to_nat (maxTokens a)) _ _) as [[s1 e1]|],
           (loop _ _ _ k _ _) as [[s2 e2]|]; simpl in *; try done.
  by destruct Hcut as (-> & _ & _ & _ & ->).
Qed.

Lemma request_sampled loop a h m c st txt st' evs :
  (∀ stops fuel i s s' evs, loop m stops h fuel i s = Some (s', evs) →
     (length (sampled evs) ≤ fuel)%nat) →
  run_generation loop a h m c st = Some (txt, st', evs) →
  (length (sampled evs) ≤ Z.to_nat (maxTokens a))%nat.
Proof.
  intros Hloop Hrun.
  apply run_generation_loop in Hrun
    as [->|[(status & _ & _ & ->)|(ctx & s' & e1 & Hrun & _ & _ & ->)]];
    simpl; [lia..|].
  by apply Hloop in Hrun.
Qed.

Lemma generate_sampled a h st txt st' evs :
  generate a h st = Some (txt, st', evs)
  ∨ generateStreaming a h st = Some (txt, st', evs) →
  (length (sampled evs) ≤ Z.to_nat (maxTokens a))%nat.
Proof.
  unfold generate, generateStreaming.
  destruct (g_model st) as [m|], (g_ctx st) as [c|];
    try (intros [[= <- <- <-]|[= <- <- <-]]; simpl; lia).
  intros [(result & Hrun & _)%c_str_request|Hrun].
  - eapply request_sampled; [|done]. intros. by eapply generate_loop_sampled.
  - destruct (has_onToken h); [|injection Hrun as <- <- <-; simpl; lia].
    eapply request_sampled; [|done]. intros. by eapply streaming_loop_sampled.
Qed.


(** A request that was running on a loaded model and ends with the flag
    set has seen a cancellation arrive after it cleared the flag: at one
    of its polls, or after the last of them. *)
Lemma request_flag loop a h m c st txt st' evs :
  (∀ stops fuel i s s' evs, loop m stops h fuel i s = Some (s', evs) →
     ls_cancel s = false → ls_cancel s' = true →
     ∃ j, (i ≤ j < i + fuel)%nat ∧ cancel_arrives h j = true) →
  g_cancel_generation st = false →
  run_generation loop a h m c st = Some (txt, st', evs) →
  g_cancel_generation st' = true →
  (∃ j, Z.of_nat j < maxTokens a ∧ cancel_arrives h j = true)
  ∨ cancel_late h = true.
Proof.
  intros Hloop Hst Hrun Hflag. unfold run_generation in Hrun.
  destruct (tokenize_prompt m (prompt a)) as [n tokens].
  destruct (n <? 0).
  { injection Hrun as <- <- <-. simpl in Hflag. rewrite Hst in Hflag.
    by right. }
  destruct (prompt_batch tokens) as [batch|]; [simpl in Hrun|done].
  destruct (llama_decode L _ _) as [status ctx].
  destruct (negb (status =? 0)).
  { injection Hrun as <- <- <-. simpl in Hflag. rewrite Hst in Hflag.
    by right. }
  destruct (loop _ _ _ _ _ _) as [[s' e1]|] eqn:Hrun'; simpl in Hrun; [|done].
  injection Hrun as <- <- <-. simpl in Hflag.
  apply orb_true_iff in Hflag as [Hflag|Hflag]; [|by right].
  destruct (Hloop _ _ _ _ _ _ Hrun' Hst Hflag) as (j & Hj & Harr).
  left. exists j. split; [lia | done].
Qed.

(** C9.  A [cancelGeneration()] issued before a request starts does not
    affect it: the request returns the same text after the same calls, and
    on a loaded model it leaves the same globals; such a request ends with
    the flag set only if a cancellation arrived after it had cleared the
    flag, before one of its polls or after the last of them. *)
Theorem cancel_before_request_ignored a h st :
  outcome (generate a h (cancelGeneration st)) = outcome (generate a h st)
  ∧ outcome (generateStreaming a h (cancelGeneration st))
    = outcome (generateStreaming a h st)
  ∧ (isModelLoaded st = true →
     generate a h (cancelGeneration st) = generate a h st
     ∧ generateStreaming a h (cancelGeneration st) = generateStreaming a h st
     ∧ ∀ txt st' evs,
         generate a h (cancelGeneration st) = Some (txt, st', evs)
         ∨ generateStreaming a h (cancelGeneration st) = Some (txt, st', evs) →
         g_cancel_generation st' = true →
         (∃ i, Z.of_nat i < maxTokens a ∧ cancel_arrives h i = true)
         ∨ cancel_late h = true).
Proof.
  assert (isModelLoaded st = true →
     generate a h (cancelGeneration st) = generate a h st
     ∧ generateStreaming a h (cancelGeneration st) = generateStreaming a h st)
    as Heq.
  { unfold isModelLoaded, generate, generateStreaming, cancelGeneration; simpl.
    by destruct (g_model st), (g_ctx st). }
  split_and!.
  - unfold isModelLoaded, generate, cancelGeneration in *; simpl in *.
    by destruct (g_model st), (g_ctx st).
  - unfold isModelLoaded, generateStreaming, cancelGeneration in *; simpl in *.
    by destruct (g_model st), (g_ctx st).
  - intros Hloaded. destruct (Heq Hloaded) as [-> ->]. split_and!; [done..|].
    intros txt st' evs Hrun Hflag. revert Hloaded Hrun.
    unfold isModelLoaded, generate, generateStreaming.
    destruct (g_model st) as [m|], (g_ctx st) as [c|]; try done.
    intros _ [(result & Hrun & _)%c_str_request|Hrun].
    + apply (request_flag generate_loop a h m c
               (set_cancel_generation false (set_is_generating true st))
               result st' evs);
        [|reflexivity|exact Hrun|exact Hflag].
      intros. by eapply generate_loop_flag.
    + destruct (has_onToken h); [|injection Hrun as <- <- <-; by right].
      apply (request_flag streaming_loop a h m c
               (set_cancel_generation false (set_is_generating true st))
               txt st' evs);
        [|reflexivity|exact Hrun|exact Hflag].
      intros. by eapply streaming_loop_flag.
Qed.

(** *** Failure of a per-token evaluation *)

Lemma request_eval_failure loop a h m c st txt st' evs b status :
  (∀ stops fuel i s s' evs b status,
     loop m stops h fuel i s = Some (s', evs) →
     EvDecode TokenEval b status ∈ evs → status ≠ 0 →
     ls_text s' = ls_text s +:+ text_of m evs
     ∧ last evs = Some (EvDecode TokenEval b status)) →
  run_generation loop a h m c st = Some (txt, st', evs) →
  EvDecode TokenEval b status ∈ evs → status ≠ 0 →
  txt = text_of m evs
  ∧ last evs = Some (EvDecode TokenEval b status)
  ∧ g_model st' = g_model st ∧ is_Some (g_ctx st')
  ∧ g_is_generating st' = false.
Proof.
  intros Hloop Hrun Hin Hne.
  apply run_generation_loop in Hrun
    as [->|[(status0 & _ & _ & ->)|(ctx & s' & e1 & Hrun & -> & -> & ->)]].
  - by apply elem_of_nil in Hin.
  - apply elem_of_cons in Hin as [Hin|Hin]; [done|].
    by apply list_elem_of_singleton in Hin.
  - apply elem_of_cons in Hin as [Hin|Hin]; [done|].
    apply elem_of_cons in Hin as [Hin|Hin]; [done|].
    destruct (Hloop _ _ _ _ _ _ _ _ Hrun Hin Hne) as [Htext Hlast].
    split_and!; try done.
    by rewrite !last_cons, Hlast.
Qed.

(** C6, as amended.  When the evaluation of a sampled token fails, the
    request ends with that call; the text accumulated is exactly what the
    sampled tokens decoded to, the fragment of the last one included, and
    [generate] returns it as [NewStringUTF] reads it, up to its first NUL
    byte; the model and the context stay loaded and no generation is marked
    in flight. *)
Theorem token_eval_failure_partial_result a h st txt st' evs b status :
  generate a h st = Some (txt, st', evs)
  ∨ generateStreaming a h st = Some (txt, st', evs) →
  EvDecode TokenEval b status ∈ evs → status ≠ 0 →
  ∃ m, g_model st = Some m
       ∧ (generate a h st = Some (txt, st', evs) →
          txt = StdString.c_str (text_of m evs))
       ∧ last evs = Some (EvDecode TokenEval b status)
       ∧ g_model st' = Some m
       ∧ isModelLoaded st' = true
       ∧ isGenerating st' = false.
Proof.
  unfold isModelLoaded, isGenerating.
  destruct (g_model st) as [m|] eqn:Hm, (g_ctx st) as [c|] eqn:Hc;
    try (unfold generate, generateStreaming; rewrite Hm, ?Hc;
         intros [[= <- <- <-]|[= <- <- <-]] Hin;
         by apply elem_of_nil in Hin).
  intros Hrun Hin Hne. exists m.
  assert (∀ loop result,
    (∀ stops fuel i s s' evs b status,
       loop m stops h fuel i s = Some (s', evs) →
       EvDecode TokenEval b status ∈ evs → status ≠ 0 →
       ls_text s' = ls_text s +:+ text_of m evs
       ∧ last evs = Some (EvDecode TokenEval b status)) →
    run_generation loop a h m c
      (set_cancel_generation false (set_is_generating true st))
    = Some (result, st', evs) →
    result = text_of m evs
    ∧ last evs = Some (EvDecode TokenEval b status)
    ∧ g_model st' = Some m ∧ is_Some (g_ctx st')
    ∧ g_is_generating st' = false) as Hreq.
  { intros loop result Hloop Hreq. rewrite <- Hm.
    change (g_model st) with
      (g_model (set_cancel_generation false (set_is_generating true st))).
    by apply (request_eval_failure loop a h m c _ result st' evs b status). }
  assert (last evs = Some (EvDecode TokenEval b status)
          ∧ g_model st' = Some m ∧ is_Some (g_ctx st')
          ∧ g_is_generating st' = false) as (? & Hm' & [c' Hc'] & ?).
  { destruct Hrun as [Hrun|Hrun].
    - apply (generate_Some a h st m c) in Hrun as (result & Hrun & _);
        [|done..].
      eapply Hreq in Hrun as (_ & ?); [done|].
      intros. by eapply generate_loop_eval_failure.
    - revert Hrun. unfold generateStreaming. rewrite Hm, Hc.
      destruct (has_onToken h).
      2:{ intros [= <- <- <-]. by apply elem_of_nil in Hin. }
      intros Hrun. eapply Hreq in Hrun as (_ & ?); [done|].
      intros. by eapply streaming_loop_eval_failure. }
  rewrite Hm', Hc'. split_and!; try done.
  intros Hgen.
  apply (generate_Some a h st m c) in Hgen as (result & Hgen & ->);
    [|done..].
  eapply Hreq in Hgen as (-> & _); [done|].
  intros. by eapply generate_loop_eval_failure.
Qed.

(** *** What reaches the sink *)

Lemma request_sink a h m c st txt st' evs :
  run_generation streaming_loop a h m c st = Some (txt, st', evs) →
  sink_respects_stops m (default [] (stopStrings a)) EmptyString None evs.
Proof.
  intros Hrun.
  apply run_generation_loop in Hrun
    as [->|[(status0 & _ & _ & ->)|(ctx & s' & e1 & Hrun & -> & -> & ->)]];
    [done..|].
  simpl. by apply (streaming_loop_sink _ _ _ _ _ _ _ _ None) in Hrun.
Qed.

(** C5.  In a streaming request every call of the sink carries the
    non-empty fragment of the token sampled just before it, as
    [NewStringUTF] reads it, and the text accumulated up to and including
    that fragment then matches no stop string; and a sampled token whose
    fragment makes the accumulated text match a stop string is the last
    event of the request: its fragment is not passed to the sink and
    nothing is evaluated or sampled after it. *)
Theorem streaming_suppresses_stop_fragment a h st m txt st' evs :
  g_model st = Some m →
  generateStreaming a h st = Some (txt, st', evs) →
  (∀ pre p threw post,
     evs = pre ++ EvOnToken p threw :: post →
     stream_should_stop (text_of m pre) (default [] (stopStrings a)) = false
     ∧ ∃ pre0 tok, pre = pre0 ++ [EvSample tok]
                   ∧ fragment_of m tok ≠ EmptyString
                   ∧ p = StdString.c_str (fragment_of m tok))
  ∧ (∀ pre tok post,
       evs = pre ++ EvSample tok :: post →
       fragment_of m tok ≠ EmptyString →
       stream_should_stop (text_of m pre +:+ fragment_of m tok)
         (default [] (stopStrings a)) = true →
       post = []).
Proof.
  intros Hm Hrun.
  assert (sink_respects_stops m (default [] (stopStrings a)) EmptyString None evs)
    as Hmon.
  { revert Hrun. unfold generateStreaming. rewrite Hm.
    destruct (g_ctx st) as [c|]; [|by intros [= <- <- <-]].
    destruct (has_onToken h); [|by intros [= <- <- <-]].
    apply request_sink. }
  split.
  - intros pre p threw post ->.
    apply sink_respects_delivery in Hmon as (Hstop & Hpre).
    rewrite string_app_nil_l in Hstop.
    by destruct Hpre as [[_ (fragment & [=] & _)]|Hpre].
  - intros pre tok post -> Hne Hstop.
    by apply sink_respects_match in Hmon.
Qed.

(** *** Batches *)

Lemma request_batches loop a h m c st txt st' evs :
  (∀ stops fuel i s s' evs,
     loop m stops h fuel i s = Some (s', evs) →
     prompt_batches evs = []
     ∧ ∀ k b, token_batches evs !! k = Some b →
         ∃ t, sampled evs !! k = Some t
              ∧ b = single_of t (ls_n_cur s + Z.of_nat k)) →
  run_generation loop a h m c st = Some (txt, st', evs) →
  (prompt_batches evs = []
   ∨ (tokenize_prompt m (prompt a)).2 ≠ []
     ∧ prompt_batches evs = [prompt_of (tokenize_prompt m (prompt a)).2])
  ∧ (∀ k b, token_batches evs !! k = Some b →
        ∃ t, sampled evs !! k = Some t
             ∧ b = single_of t
                     (Z.of_nat (length (tokenize_prompt m (prompt a)).2)
                      + Z.of_nat k)).
Proof.
  intros Hloop Hrun.
  assert ((tokenize_prompt m (prompt a)).2 ≠ [] ∨ evs = []) as Htok.
  { revert Hrun. unfold run_generation.
    destruct (tokenize_prompt m (prompt a)) as [n tokens]; simpl.
    destruct (n <? 0); [intros [= <- <- <-]; by right|].
    destruct tokens; [by rewrite prompt_batch_empty | by left]. }
  apply run_generation_loop in Hrun
    as [->|[(status0 & _ & _ & ->)|(ctx & s' & e1 & Hrun & -> & -> & ->)]].
  - split; [by left | done].
  - destruct Htok as [Htok|[=]]. split; [by right | done].
  - destruct Htok as [Htok|[=]].
    destruct (Hloop _ _ _ _ _ _ Hrun) as [Hnone Hsingles].
    split; [right; split; [done|]; simpl; by rewrite Hnone|].
    intros k b Hk. by apply Hsingles in Hk.
Qed.

(** X3.  Batch construction in every request that returns: the prompt,
    when it is evaluated, goes in one batch holding all its tokens at
    positions 0 to N-1 with the flag on the last entry only, and the [k]-th
    singleton batch holds the [k]-th sampled token at position N + k with
    the flag set. *)
Lemma batch_construction a h st m txt st' evs :
  g_model st = Some m →
  generate a h st = Some (txt, st', evs)
  ∨ generateStreaming a h st = Some (txt, st', evs) →
  (prompt_batches evs = []
   ∨ (tokenize_prompt m (prompt a)).2 ≠ []
     ∧ prompt_batches evs = [prompt_of (tokenize_prompt m (prompt a)).2])
  ∧ (∀ k b, token_batches evs !! k = Some b →
        ∃ t, sampled evs !! k = Some t
             ∧ b = single_of t
                     (Z.of_nat (length (tokenize_prompt m (prompt a)).2)
                      + Z.of_nat k)).
Proof.
  intros Hm. unfold generate, generateStreaming. rewrite Hm.
  destruct (g_ctx st) as [c|];
    [|intros [[= <- <- <-]|[= <- <- <-]]; (split; [by left | done])].
  intros [(result & Hrun & _)%c_str_request|Hrun].
  - eapply request_batches; [|done]. intros ?????? Hloop. split.
    + by eapply generate_loop_no_prompt.
    + intros. by eapply generate_loop_batches.
  - destruct (has_onToken h);
      [|injection Hrun as <- <- <-; (split; [by left | done])].
    eapply request_batches; [|done]. intros ?????? Hloop. split.
    + by eapply streaming_loop_no_prompt.
    + intros. by eapply streaming_loop_batches.
Qed.

(** *** Determinism *)

(** The loops read the host through the cancellations and the sink
    only. *)
Lemma generate_loop_ext (m : llama_model L) stops h1 h2 fuel :
  same_interaction h1 h2 →
  ∀ i s, generate_loop m stops h1 fuel i s = generate_loop m stops h2 fuel i s.
Proof.
  intros (Hcancel & _). induction fuel as [|fuel IH]; intros i s; [done|].
  cbn [generate_loop]. rewrite Hcancel.
  destruct (ls_cancel s || cancel_arrives h2 i); [done|].
  destruct (llama_sampler_sample L _ _) as [tok smpl].
  destruct (llama_vocab_is_eog L m tok); [done|].
  destruct (piece_of m tok) as [n piece].
  destruct (if 0 <? n then _ else _) as [result [|]]; [done|].
  destruct (single_batch tok (ls_n_cur s)) as [single|]; [|done].
  cbn [mbind option_bind].
  destruct (llama_decode L _ _) as [status ctx].
  destruct (negb (status =? 0)); [done|]. by rewrite IH.
Qed.

Lemma streaming_loop_ext (m : llama_model L) stops h1 h2 fuel :
  same_interaction h1 h2 →
  ∀ i s,
    streaming_loop m stops h1 fuel i s = streaming_loop m stops h2 fuel i s.
Proof.
  intros (Hcancel & _ & Hnew & Hthrow).
  induction fuel as [|fuel IH]; intros i s; [done|].
  cbn [streaming_loop]. rewrite Hcancel.
  destruct (ls_cancel s || cancel_arrives h2 i); [done|].
  destruct (llama_sampler_sample L _ _) as [tok smpl].
  destruct (llama_vocab_is_eog L m tok); [done|].
  destruct (piece_of m tok) as [n piece].
  assert (stream_fragment stops h1 i (ls_text s) n piece
          = stream_fragment stops h2 i (ls_text s) n piece) as ->.
  { unfold stream_fragment, send_token. by rewrite !Hnew, !Hthrow. }
  destruct (stream_fragment stops h2 i (ls_text s) n piece)
    as [[accumulated sink] [|]]; [done|].
  destruct (single_batch tok (ls_n_cur s)) as [single|]; [|done].
  cbn [mbind option_bind].
  destruct (llama_decode L _ _) as [status ctx].
  destruct (negb (status =? 0)); [done|]. by rewrite IH.
Qed.

(** Whatever the other threads and the sink do during two runs of a loop
    from the same text, position, context and sampler, the tokens sampled
    in one are those sampled in the other as far as both go. *)
Lemma agree_nil_l (t : list llama_token) : agree [] t.
Proof. left. apply prefix_nil. Qed.

Lemma agree_nil_r (t : list llama_token) : agree t [].
Proof. right. apply prefix_nil. Qed.

Lemma agree_cons (x : llama_token) (t1 t2 : list llama_token) :
  agree t1 t2 → agree (x :: t1) (x :: t2).
Proof. intros [?|?]; [left | right]; by apply prefix_cons. Qed.

Lemma generate_loop_agree (m : llama_model L) stops h1 h2 fuel1 :
  ∀ fuel2 i text n ctx smpl cancel1 cancel2 s1 s2 e1 e2,
  generate_loop m stops h1 fuel1 i (mk_loop text n ctx smpl cancel1)
  = Some (s1, e1) →
  generate_loop m stops h2 fuel2 i (mk_loop text n ctx smpl cancel2)
  = Some (s2, e2) →
  agree (sampled e1) (sampled e2).
Proof.
  induction fuel1 as [|fuel1 IH];
    intros [|fuel2] i text n ctx smpl cancel1 cancel2 s1 s2 e1 e2;
    cbn [generate_loop ls_text ls_n_cur ls_ctx ls_smpl ls_cancel];
    try (intros [= <- <-] _; apply agree_nil_l);
    try (intros _ [= <- <-]; apply agree_nil_r).
  destruct (cancel1 || cancel_arrives h1 i);
    [intros [= <- <-] _; apply agree_nil_l|].
  destruct (cancel2 || cancel_arrives h2 i);
    [intros _ [= <- <-]; apply agree_nil_r|].
  destruct (llama_sampler_sample L smpl ctx) as [tok smpl'].
  destruct (llama_vocab_is_eog L m tok).
  { intros [= <- <-] [= <- <-]. by left. }
  destruct (piece_of m tok) as [k piece].
  destruct (if 0 <? k then _ else _) as [result [|]].
  { intros [= <- <-] [= <- <-]. by left. }
  destruct (single_batch tok n) as [single|]; [|done].
  cbn [mbind option_bind].
  destruct (llama_decode L ctx single) as [status ctx'].
  destruct (negb (status =? 0)).
  { intros [= <- <-] [= <- <-]. by left. }
  destruct (generate_loop m stops h1 fuel1 _ _) as [[s1' e1']|] eqn:Hrun1;
    [|done].
  destruct (generate_loop m stops h2 fuel2 _ _) as [[s2' e2']|] eqn:Hrun2;
    [|done].
  cbn [mbind option_bind]. intros [= <- <-] [= <- <-].
  apply (agree_cons tok (sampled e1') (sampled e2')).
  by eapply IH.
Qed.

Lemma streaming_loop_agree (m : llama_model L) stops h1 h2 fuel1 :
  ∀ fuel2 i text n ctx smpl cancel1 cancel2 s1 s2 e1 e2,
  streaming_loop m stops h1 fuel1 i (mk_loop text n ctx smpl cancel1)
  = Some (s1, e1) →
  streaming_loop m stops h2 fuel2 i (mk_loop text n ctx smpl cancel2)
  = Some (s2, e2) →
  agree (sampled e1) (sampled e2).
Proof.
  induction fuel1 as [|fuel1 IH];
    intros [|fuel2] i text n ctx smpl cancel1 cancel2 s1 s2 e1 e2;
    cbn [streaming_loop ls_text ls_n_cur ls_ctx ls_smpl ls_cancel];
    try (intros [= <- <-] _; apply agree_nil_l);
    try (intros _ [= <- <-]; apply agree_nil_r).
  destruct (cancel1 || cancel_arrives h1 i);
    [intros [= <- <-] _; apply agree_nil_l|].
  destruct (cancel2 || cancel_arrives h2 i);
    [intros _ [= <- <-]; apply agree_nil_r|].
  destruct (llama_sampler_sample L smpl ctx) as [tok smpl'].
  destruct (llama_vocab_is_eog L m tok).
  { intros [= <- <-] [= <- <-]. by left. }
  destruct (piece_of m tok) as [k piece].
  destruct (stream_fragment stops h1 i text k piece)
    as [[acc1 sink1] leave1] eqn:Hfrag1.
  destruct (stream_fragment stops h2 i text k piece)
    as [[acc2 sink2] leave2] eqn:Hfrag2.
  pose proof (stream_fragment_sampled stops h1 _ _ _ _ _ _ _ Hfrag1)
    as Hsink1.
  pose proof (stream_fragment_sampled stops h2 _ _ _ _ _ _ _ Hfrag2)
    as Hsink2.
  assert (acc1 = acc2) as <-.
  { apply stream_fragment_spec in Hfrag1 as (-> & _).
    by apply stream_fragment_spec in Hfrag2 as (-> & _). }
  assert (∀ sink rest, sampled sink = [] →
            sampled (EvSample tok :: sink ++ rest) = tok :: sampled rest)
    as Hhead.
  { intros sink rest Hsink.
    change (sampled (EvSample tok :: sink ++ rest))
      with (tok :: sampled (sink ++ rest)).
    by rewrite sampled_app, Hsink. }
  assert (∀ sink, sampled sink = [] → sampled (EvSample tok :: sink) = [tok])
    as Hlast.
  { intros sink Hsink. rewrite <- (right_id_L [] (++) sink).
    by rewrite Hhead. }
  destruct leave1.
  { intros [= <- <-] Hrun2. rewrite (Hlast _ Hsink1).
    assert (∃ rest, sampled e2 = tok :: rest) as [rest ->]; [|left].
    { revert Hrun2. destruct leave2.
      - intros [= <- <-]. rewrite (Hlast _ Hsink2). by eexists.
      - destruct (single_batch tok n) as [single|]; [|done].
        cbn [mbind option_bind].
        destruct (llama_decode L ctx single) as [status ctx'].
        destruct (negb (status =? 0)).
        + intros [= <- <-]. rewrite (Hhead _ _ Hsink2). by eexists.
        + destruct (streaming_loop m stops h2 fuel2 _ _) as [[s2' e2']|];
            [|done].
          cbn [mbind option_bind]. intros [= <- <-].
          rewrite (Hhead _ _ Hsink2). by eexists. }
    apply prefix_cons, prefix_nil. }
  destruct leave2.
  { intros Hrun1 [= <- <-]. rewrite (Hlast _ Hsink2).
    assert (∃ rest, sampled e1 = tok :: rest) as [rest ->]; [|right].
    { revert Hrun1.
      destruct (single_batch tok n) as [single|]; [|done].
      cbn [mbind option_bind].
      destruct (llama_decode L ctx single) as [status ctx'].
      destruct (negb (status =? 0)).
      + intros [= <- <-]. rewrite (Hhead _ _ Hsink1). by eexists.
      + destruct (streaming_loop m stops h1 fuel1 _ _) as [[s1' e1']|];
          [|done].
        cbn [mbind option_bind]. intros [= <- <-].
        rewrite (Hhead _ _ Hsink1). by eexists. }
    apply prefix_cons, prefix_nil. }
  destruct (single_batch tok n) as [single|]; [|done].
  cbn [mbind option_bind].
  destruct (llama_decode L ctx single) as [status ctx'].
  destruct (negb (status =? 0)).
  { intros [= <- <-] [= <- <-]. rewrite !Hhead by done. by left. }
  destruct (streaming_loop m stops h1 fuel1 _ _) as [[s1' e1']|] eqn:Hrun1;
    [|done].
  destruct (streaming_loop m stops h2 fuel2 _ _) as [[s2' e2']|] eqn:Hrun2;
    [|done].
  cbn [mbind option_bind]. intros [= <- <-] [= <- <-].
  rewrite !Hhead by done.
  exact (agree_cons tok (sampled e1') (sampled e2')
           (IH _ _ _ _ _ _ _ _ _ _ _ _ Hrun1 Hrun2)).
Qed.

(** A request reads the globals it starts from only through the cleared
    context and the cancellation flag, and the random device only if its
    chain asks for a random seed, which it never does. *)
Lemma request_outcome_indep loop a h1 h2 m c1 c2 st1 st2 :
  reproducible L →
  (∀ stops fuel i s, loop m stops h1 fuel i s = loop m stops h2 fuel i s) →
  llama_memory_clear L c1 = llama_memory_clear L c2 →
  g_cancel_generation st1 = g_cancel_generation st2 →
  outcome (run_generation loop a h1 m c1 st1)
  = outcome (run_generation loop a h2 m c2 st2).
Proof.
  intros Hseed Hloop Hclear Hflag. unfold run_generation.
  destruct (tokenize_prompt m (prompt a)) as [n tokens].
  destruct (n <? 0); [done|].
  rewrite Hclear, Hflag.
  rewrite (Hseed (random_device h1) (random_device h2) (sampler_stages a))
    by reflexivity.
  destruct (prompt_batch tokens) as [batch|]; [simpl|done].
  destruct (llama_decode L _ _) as [status ctx].
  destruct (negb (status =? 0)); [done|]. rewrite Hloop.
  by destruct (loop _ _ _ _ _ _) as [[s' e1]|].
Qed.

Lemma request_agree loop a h1 h2 m c1 c2 st1 st2 r1 r2 :
  reproducible L →
  (∀ stops fuel1 fuel2 i text n ctx smpl cancel1 cancel2 s1 s2 e1 e2,
     loop m stops h1 fuel1 i (mk_loop text n ctx smpl cancel1)
     = Some (s1, e1) →
     loop m stops h2 fuel2 i (mk_loop text n ctx smpl cancel2)
     = Some (s2, e2) →
     agree (sampled e1) (sampled e2)) →
  llama_memory_clear L c1 = llama_memory_clear L c2 →
  run_generation loop a h1 m c1 st1 = Some r1 →
  run_generation loop a h2 m c2 st2 = Some r2 →
  agree (sampled r1.2) (sampled r2.2).
Proof.
  intros Hseed Hloop Hclear. unfold run_generation.
  destruct (tokenize_prompt m (prompt a)) as [n tokens].
  destruct (n <? 0); [intros [= <-] _; apply agree_nil_l|].
  rewrite Hclear.
  rewrite (Hseed (random_device h1) (random_device h2) (sampler_stages a))
    by reflexivity.
  destruct (prompt_batch tokens) as [batch|]; [|done].
  cbn [mbind option_bind].
  destruct (llama_decode L _ _) as [status ctx].
  destruct (negb (status =? 0)); [intros [= <-] _; apply agree_nil_l|].
  destruct (loop m _ h1 _ _ _) as [[s1 e1]|] eqn:Hrun1; [|done].
  destruct (loop m _ h2 _ _ _) as [[s2 e2]|] eqn:Hrun2; [|done].
  cbn [mbind option_bind]. intros [= <-] [= <-].
  exact (Hloop _ _ _ _ _ _ _ _ _ _ _ _ _ _ Hrun1 Hrun2).
Qed.

(** C3.  The chain of every request ends in a draw seeded with the
    constant 42, which is not the seed that stands for a random one: no
    request reads the random device.  So on a runtime whose seeded chains
    are reproducible, take two requests on the same model with the same
    arguments, started from globals whose contexts agree once their cache
    is cleared, whatever the random device would have given each of them.
    If the other threads and the sink do the same during both, they make
    the same calls (so sample the same tokens) and produce the same text.
    Whatever those do, the tokens sampled by one request are those
    sampled by the other as far as both go. *)
Theorem same_request_same_output a h1 h2 st1 st2 m c1 c2 :
  reproducible L →
  g_model st1 = Some m → g_model st2 = Some m →
  g_ctx st1 = Some c1 → g_ctx st2 = Some c2 →
  llama_memory_clear L c1 = llama_memory_clear L c2 →
  draws_entropy (sampler_stages a) = false
  ∧ (same_interaction h1 h2 →
     outcome (generate a h1 st1) = outcome (generate a h2 st2)
     ∧ outcome (generateStreaming a h1 st1)
       = outcome (generateStreaming a h2 st2))
  ∧ (∀ r1 r2,
       generate a h1 st1 = Some r1 ∧ generate a h2 st2 = Some r2
       ∨ generateStreaming a h1 st1 = Some r1
         ∧ generateStreaming a h2 st2 = Some r2 →
       agree (sampled r1.2) (sampled r2.2)).
Proof.
  intros Hseed Hm1 Hm2 Hc1 Hc2 Hclear. split; [reflexivity|].
  unfold generate, generateStreaming. rewrite Hm1, Hm2, Hc1, Hc2.
  split.
  - intros Hsame. split.
    + apply outcome_c_str, request_outcome_indep; try done.
      intros. by apply generate_loop_ext.
    + pose proof Hsame as (_ & <- & _).
      destruct (has_onToken h1); [|done].
      apply request_outcome_indep; try done.
      intros. by apply streaming_loop_ext.
  - intros [[t1 s1] e1] [[t2 s2] e2] [[Hrun1 Hrun2]|[Hrun1 Hrun2]].
    + apply c_str_request in Hrun1 as (result1 & Hrun1 & _).
      apply c_str_request in Hrun2 as (result2 & Hrun2 & _).
      apply (request_agree generate_loop a h1 h2 m c1 c2 _ _ _ _
               Hseed (λ stops fuel1, generate_loop_agree m stops h1 h2 fuel1)
               Hclear Hrun1 Hrun2).
    + destruct (has_onToken h1);
        [|injection Hrun1 as <- <- <-; apply agree_nil_l].
      destruct (has_onToken h2);
        [|injection Hrun2 as <- <- <-; apply agree_nil_r].
      apply (request_agree streaming_loop a h1 h2 m c1 c2 _ _ _ _
               Hseed (λ stops fuel1, streaming_loop_agree m stops h1 h2 fuel1)
               Hclear Hrun1 Hrun2).
Qed.

End RequestFacts.

(** ** Stop-string matching *)

Section StopStringFacts.

Lemma prefix_app (p s : string) :
  String.prefix p s = true ↔ ∃ t, s = p +:+ t.
Proof.
  revert s. induction p as [|a p IH]; intros s.
  - split; [intros _; by exists s | by destruct s].
  - destruct s as [|b s]; simpl.
    + split; [done | by intros (t & [=])].
    + destruct (Ascii.ascii_dec a b) as [->|Hab].
      * rewrite IH. split.
        -- intros (t & ->). by exists t.
        -- intros (t & Ht). rewrite string_app_cons in Ht.
           injection Ht as ->. by exists t.
      * split; [done|]. intros (t & Ht). rewrite string_app_cons in Ht.
        by injection Ht as -> _.
Qed.

Lemma occurs_nil (pat : string) :
  StdString.occurs pat EmptyString ↔ String.prefix pat EmptyString = true.
Proof.
  rewrite prefix_app. split.
  - intros (pre & post & Heq). destruct pre; [|done].
    rewrite string_app_nil_l in Heq. by exists post.
  - intros (t & ->). by exists EmptyString, t.
Qed.

Lemma occurs_cons (pat : string) (c : Ascii.ascii) (s : string) :
  StdString.occurs pat (String c s)
  ↔ StdString.occurs pat s ∨ String.prefix pat (String c s) = true.
Proof.
  rewrite prefix_app. split.
  - intros (pre & post & Heq). destruct pre as [|c' pre].
    + right. by exists post.
    + rewrite string_app_cons in Heq. injection Heq as -> ->.
      left. by exists pre, post.
  - intros [(pre & post & ->)|(t & ->)].
    + by exists (String c pre), post.
    + by exists EmptyString, t.
Qed.

(** [rfind_at] finds a match exactly when there is one, inside the text. *)
Lemma rfind_at_spec (pat s : string) (i0 : nat) :
  match StdString.rfind_at pat s i0 with
  | Some j => StdString.occurs pat s ∧ (i0 ≤ j ≤ i0 + String.length s)%nat
  | None => ¬ StdString.occurs pat s
  end.
Proof.
  revert i0. induction s as [|c s IH]; intros i0.
  - unfold StdString.rfind_at.
    destruct (String.prefix pat EmptyString) eqn:Hp; simpl.
    + split; [by apply (proj2 (occurs_nil _)) | lia].
    + intros Hocc%occurs_nil. congruence.
  - cbn [StdString.rfind_at]. specialize (IH (S i0)).
    destruct (StdString.rfind_at pat s (S i0)) as [j|].
    + destruct IH as [Hocc Hj].
      split; [apply (proj2 (occurs_cons _ _ _)); by left | simpl; lia].
    + destruct (String.prefix pat (String c s)) eqn:Hp.
      * split; [apply (proj2 (occurs_cons _ _ _)); by right | simpl; lia].
      * intros [?|?]%occurs_cons; [done | congruence].
Qed.

(** On a text shorter than [npos], [rfind] differs from [npos] exactly
    when the pattern occurs. *)
Lemma rfind_occurs (s pat : string) :
  StdString.length s < StdString.npos →
  StdString.rfind s pat ≠ StdString.npos ↔ StdString.occurs pat s.
Proof.
  unfold StdString.rfind, StdString.length. intros Hlen.
  pose proof (rfind_at_spec pat s 0) as Hspec.
  destruct (StdString.rfind_at pat s 0) as [j|].
  - destruct Hspec as [Hocc Hj]. split; [done|]. intros _. lia.
  - split; [done | by intros ?%Hspec].
Qed.

(** X14.  The streaming check holds exactly when some configured stop
    string occurs in the accumulated text. *)
Lemma stream_should_stop_occurs (accumulated : string) (stop_strs : list string) :
  StdString.length accumulated < StdString.npos →
  stream_should_stop accumulated stop_strs = true
  ↔ ∃ stop, stop ∈ stop_strs ∧ StdString.occurs stop accumulated.
Proof.
  intros Hlen. induction stop_strs as [|stop rest IH]; simpl.
  - split; [done|]. intros (stop & Hin & _). by apply elem_of_nil in Hin.
  - destruct (StdString.rfind accumulated stop =? StdString.npos) eqn:Hr;
      simpl.
    + apply Z.eqb_eq in Hr. rewrite IH. split.
      * intros (stop' & Hin & Hocc). exists stop'. split; [|done].
        by apply elem_of_cons; right.
      * intros (stop' & Hin & Hocc). exists stop'. split; [|done].
        apply elem_of_cons in Hin as [->|Hin]; [|done].
        by apply (rfind_occurs _ _ Hlen) in Hocc.
    + apply Z.eqb_neq in Hr. split; [|done]. intros _. exists stop.
      split; [by apply elem_of_cons; left|].
      by apply (rfind_occurs _ _ Hlen).
Qed.

(** X15.  The check of [generate] never sees a stop string that is the
    whole accumulated text: [length - length - 1] wraps around to [npos],
    past the end of the text. *)
Lemma check_stop_strings_whole_text (stop : string) (rest : list string) :
  StdString.length stop < StdString.npos →
  check_stop_strings stop (stop :: rest) = check_stop_strings stop rest.
Proof.
  intros Hlen. simpl.
  assert (StdString.size_sub
            (StdString.size_sub (StdString.length stop) (StdString.length stop))
            1 = StdString.npos) as ->.
  { unfold StdString.size_sub. by rewrite Z.sub_diag. }
  unfold StdString.find. apply Z.ltb_lt in Hlen as ->.
  by rewrite Z.eqb_refl, andb_false_r.
Qed.

End StopStringFacts.

(** C1.  With the stop string ["!"] configured and a model whose first
    fragment is ["!"], [generate] does not stop: its check skips a stop
    string that is the whole accumulated text, the next fragment is
    appended, and the returned text still holds the stop string.  The
    check of [generateStreaming] matches on the same text. *)
Theorem generate_misses_stop_string :
  fst <$> outcome (generate (Toy.request "Hello" 5 ["!"]) Toy.quiet
                     (Toy.loaded "bang.gguf"))
  = Some "!more"
  ∧ fst <$> outcome (generate (Toy.request "Hello" 1 ["!"]) Toy.quiet
                       (Toy.loaded "bang.gguf"))
    = Some "!"
  ∧ check_stop_strings "!" ["!"] = ("!", false)
  ∧ stream_should_stop "!" ["!"] = true.
Proof. by vm_compute. Qed.

(** C7.  A prompt that tokenizes to no token: the batch has no final
    entry, so raising the flag on it writes to [batch.logits[-1]], outside
    the batch, and the request has no defined result. *)
Theorem prompt_batch_without_tokens :
  prompt_batch [] = None
  ∧ tokenize_prompt (L := Toy.api) (Toy.Build_model [0; 1; 2] 64 true)
      EmptyString
    = (0, [])
  ∧ generate (Toy.request EmptyString 5 ["!"]) Toy.quiet
      (Toy.loaded "toy.gguf") = None
  ∧ generateStreaming (Toy.request EmptyString 5 ["!"]) Toy.quiet
      (Toy.loaded "toy.gguf") = None.
Proof. by vm_compute. Qed.

(** ** The bridge on the small runtime *)

(** The scenario of the specification: prompt ["Hello"], five tokens at
    most, stop string ["!"], a model that emits ["there"], ["!"], ["more"].
    [generate] returns ["there"]; [generateStreaming] passes ["there"] to
    the sink and nothing else. *)
Example stop_string_scenario :
  let st := Toy.loaded "toy.gguf" in
  let a := Toy.request "Hello" 5 ["!"] in
  fst <$> outcome (generate a Toy.quiet st) = Some "there"
  ∧ (delivered ∘ snd) <$> outcome (generateStreaming a Toy.quiet st)
    = Some ["there"]
  ∧ (sampled ∘ snd) <$> outcome (generateStreaming a Toy.quiet st)
    = Some [0; 1].
Proof. by vm_compute. Qed.

(** With a budget of zero tokens nothing is sampled or evaluated after the
    prompt and the text is empty. *)
Example zero_budget :
  outcome (generate (Toy.request "Hello" 0 ["!"]) Toy.quiet
             (Toy.loaded "toy.gguf"))
  = Some (EmptyString,
          [EvMemoryClear;
           EvDecode PromptEval (prompt_of (Toy.bytes "Hello")) 0]).
Proof. by vm_compute. Qed.

(** What the other threads do matters to a request: it returns another
    text, after sampling fewer tokens, when another thread cancels it
    before its second step. *)
Lemma cancellation_changes_output :
  let st := Toy.loaded "toy.gguf" in
  let a := Toy.request "Hello" 5 [] in
  outcome (generate a Toy.quiet st) ≠ outcome (generate a (Toy.cancel_at 1) st)
  ∧ fst <$> outcome (generate a Toy.quiet st) = Some "there!more"
  ∧ fst <$> outcome (generate a (Toy.cancel_at 1) st) = Some "there"
  ∧ (sampled ∘ snd) <$> outcome (generate a Toy.quiet st) = Some [0; 1; 2; 3]
  ∧ (sampled ∘ snd) <$> outcome (generate a (Toy.cancel_at 1) st) = Some [0].
Proof. by vm_compute. Qed.

(** The small runtime keeps the promise of seeded sampling, and reads the
    random device for a chain that asks for a random seed. *)
Lemma toy_reproducible : reproducible Toy.api.
Proof.
  intros e1 e2 stages Hseeded. simpl.
  assert (Toy.random_seeded stages = false) as ->; [|done].
  induction stages as [|stage stages IH]; [done|].
  simpl in *. apply orb_false_iff in Hseeded as [Hstage Hrest].
  rewrite (IH Hrest), orb_false_r. destruct stage as [| |seed]; [done..|].
  destruct (Z.eqb_spec seed LLAMA_DEFAULT_SEED) as [->|_]; [done|].
  by destruct (Z.eqb_spec seed (-1)) as [->|_].
Qed.

Example random_seed_reads_device :
  llama_sampler_chain Toy.api 1 [Dist LLAMA_DEFAULT_SEED]
  ≠ llama_sampler_chain Toy.api 2 [Dist LLAMA_DEFAULT_SEED]
  ∧ draws_entropy [Dist LLAMA_DEFAULT_SEED] = true
  ∧ draws_entropy [Dist (-1)] = true
  ∧ draws_entropy [Dist 42] = false.
Proof. by vm_compute. Qed.

Lemma same_request_same_output_witness :
  let st1 := Toy.loaded "toy.gguf" in
  let a := Toy.request "Hello" 5 ["!"] in
  let st2 := Toy.after_request "toy.gguf" a Toy.quiet in
  let h1 := Toy.quiet_with 7 in
  let h2 := Toy.quiet_with 11 in
  reproducible Toy.api
  ∧ g_ctx st1 ≠ g_ctx st2
  ∧ same_interaction h1 h2
  ∧ draws_entropy (sampler_stages a) = false
  ∧ (same_interaction h1 h2 →
     outcome (generate a h1 st1) = outcome (generate a h2 st2)
     ∧ outcome (generateStreaming a h1 st1)
       = outcome (generateStreaming a h2 st2))
  ∧ (∀ r1 r2,
       generate a h1 st1 = Some r1 ∧ generate a h2 st2 = Some r2
       ∨ generateStreaming a h1 st1 = Some r1
         ∧ generateStreaming a h2 st2 = Some r2 →
       agree (sampled r1.2) (sampled r2.2)).
Proof.
  split; [exact toy_reproducible|]. split; [by vm_compute|].
  split; [by repeat split|].
  apply (same_request_same_output (L := Toy.api)
           (Toy.request "Hello" 5 ["!"]) (Toy.quiet_with 7)
           (Toy.quiet_with 11) (Toy.loaded "toy.gguf")
           (Toy.after_request "toy.gguf" (Toy.request "Hello" 5 ["!"]) Toy.quiet)
           (Toy.Build_model [0; 1; 2] 64 true)
           (Toy.Build_context (Toy.Build_model [0; 1; 2] 64 true) [])
           (Toy.Build_context (Toy.Build_model [0; 1; 2] 64 true)
              [328; 357; 364; 364; 367; 0]) toy_reproducible);
    vm_compute; reflexivity.
Defined.


Lemma streaming_suppresses_stop_fragment_witness :
  ∃ m txt st' evs,
    g_model (Toy.loaded "nul.gguf") = Some m
    ∧ generateStreaming (Toy.request "Hello" 5 ["more"]) Toy.quiet
        (Toy.loaded "nul.gguf") = Some (txt, st', evs)
    ∧ sampled evs = [0; 7; 2]
    ∧ delivered evs = ["there"; EmptyString]
    ∧ ((∀ pre p threw post,
          evs = pre ++ EvOnToken p threw :: post →
          stream_should_stop (text_of m pre) ["more"] = false
          ∧ ∃ pre0 tok, pre = pre0 ++ [EvSample tok]
                        ∧ fragment_of m tok ≠ EmptyString
                        ∧ p = StdString.c_str (fragment_of m tok))
       ∧ (∀ pre tok post,
            evs = pre ++ EvSample tok :: post →
            fragment_of m tok ≠ EmptyString →
            stream_should_stop (text_of m pre +:+ fragment_of m tok) ["more"]
            = true →
            post = [])).
Proof.
  eexists _, _, _, _.
  split; [vm_compute; reflexivity|].
  split; [vm_compute; reflexivity|].
  split; [vm_compute; reflexivity|].
  split; [vm_compute; reflexivity|].
  eapply (streaming_suppresses_stop_fragment (L := Toy.api)
            (Toy.request "Hello" 5 ["more"]) Toy.quiet
            (Toy.loaded "nul.gguf"));
    vm_compute; reflexivity.
Defined.

(** C6, as stated, fails: when a fragment holds a NUL byte, the text
    [generate] returns after a failed evaluation is not the text
    accumulated up to the failure but its part before that byte. *)
Lemma eval_failure_text_cut :
  ∃ m st' evs b,
    g_model (Toy.loaded "nul-small.gguf") = Some m
    ∧ generate (Toy.request "Hey" 5 []) Toy.quiet
        (Toy.loaded "nul-small.gguf") = Some ("there", st', evs)
    ∧ EvDecode TokenEval b 1 ∈ evs
    ∧ sampled evs = [0; 7; 2]
    ∧ text_of m evs = "there" +:+ String Ascii.zero "x" +:+ "more"
    ∧ "there" ≠ text_of m evs.
Proof.
  eexists _, _, _, _.
  split; [vm_compute; reflexivity|].
  split; [vm_compute; reflexivity|].
  split; [repeat first [apply list_elem_of_here | apply list_elem_of_further]|].
  by vm_compute.
Qed.

Lemma token_eval_failure_partial_result_witness :
  ∃ txt st' evs b,
    generate (Toy.request "Hey" 5 []) Toy.quiet (Toy.loaded "nul-small.gguf")
    = Some (txt, st', evs)
    ∧ EvDecode TokenEval b 1 ∈ evs
    ∧ 1 ≠ 0
    ∧ txt = "there"
    ∧ ∃ m, g_model (Toy.loaded "nul-small.gguf") = Some m
           ∧ (generate (Toy.request "Hey" 5 []) Toy.quiet
                (Toy.loaded "nul-small.gguf") = Some (txt, st', evs) →
              txt = StdString.c_str (text_of m evs))
           ∧ last evs = Some (EvDecode TokenEval b 1)
           ∧ g_model st' = Some m
           ∧ isModelLoaded st' = true
           ∧ isGenerating st' = false.
Proof.
  eexists _, _, _, _.
  split; [vm_compute; reflexivity|].
  split; [repeat first [apply list_elem_of_here | apply list_elem_of_further]|].
  split; [lia|]. split; [reflexivity|].
  apply (token_eval_failure_partial_result (L := Toy.api)
           (Toy.request "Hey" 5 []) Toy.quiet (Toy.loaded "nul-small.gguf")
           _ _ _ (single_of 2 5) 1);
    [left; vm_compute; reflexivity
    |repeat first [apply list_elem_of_here | apply list_elem_of_further]
    |lia].
Defined.

Lemma cancel_before_request_ignored_witness :
  let st := Toy.loaded "toy.gguf" in
  let a := Toy.request "Hello" 5 ["!"] in
  isModelLoaded st = true
  ∧ generate a Toy.quiet (cancelGeneration st) = generate a Toy.quiet st
  ∧ fst <$> outcome (generate a Toy.quiet (cancelGeneration st)) = Some "there"
  ∧ (λ r, g_cancel_generation r.1.2)
      <$> generate a Toy.quiet (cancelGeneration st) = Some false
  ∧ (λ r, g_cancel_generation r.1.2)
      <$> generate a Toy.cancel_after (cancelGeneration st) = Some true.
Proof.
  split; [reflexivity|]. split; [|by vm_compute].
  exact (proj1 (proj2 (proj2 (cancel_before_request_ignored (L := Toy.api)
           (Toy.request "Hello" 5 ["!"]) Toy.quiet (Toy.loaded "toy.gguf")))
           eq_refl)).
Defined.

Lemma generating_flag_reset_witness :
  let st := Toy.loaded "toy.gguf" in
  let a := Toy.request "Hello" 5 ["!"] in
  reachable st
  ∧ match generate a Toy.throwing st with
    | Some (_, st', _) => isGenerating st' = false
    | None => tokenless a st
    end
  ∧ match generateStreaming a Toy.throwing st with
    | Some (_, st', _) => isGenerating st' = false
    | None => tokenless a st
    end.
Proof.
  assert (reachable (Toy.loaded "toy.gguf")) as Hreach.
  { exact (reach_load Toy.api (Some "toy.gguf") 4 engine_init
             (reach_init Toy.api)). }
  split; [exact Hreach|].
  exact (generating_flag_reset (L := Toy.api) (Toy.request "Hello" 5 ["!"])
           Toy.throwing (Toy.loaded "toy.gguf") Hreach).
Defined.

(** * Further properties *)

(** ** The model lifecycle *)

Section LifecycleMore.
Context {L : llama_api}.

Implicit Types st : engine L.

(** The two ways a load can end. *)
Lemma loadModel_cases path nThreads st :
  let r := loadModel path nThreads st in
  (r.1.1 = false ∧ g_model r.1.2 = None ∧ g_ctx r.1.2 = None)
  ∨ (r.1.1 = true ∧ is_Some (g_model r.1.2) ∧ is_Some (g_ctx r.1.2)
     ∧ g_load_progress r.1.2 = 1%Q).
Proof.
  unfold loadModel. destruct (release_handles st) as [st0 ev0] eqn:Hrel.
  assert (g_model st0 = None ∧ g_ctx st0 = None) as [Hm Hc].
  { replace st0 with (release_handles st).1 by by rewrite Hrel. done. }
  destruct path as [p|]; simpl; [|by left].
  destruct (llama_model_load_from_file L p) as [reports [m|]];
    rewrite progress_reports_fold; simpl; [|by left].
  destruct (llama_init_from_model L m _) as [c|]; simpl; [|by left].
  right. by split_and!.
Qed.

(** X4.  A load replaces whatever was there: the value it returns and
    the handles it leaves never depend on the globals it started from.  On
    a path that is not null the same holds of the progress fraction, so
    that unloading first changes nothing; on a null path the call returns
    before it stores a fraction, which stays what it was. *)
Theorem loadModel_replaces_state path nThreads st1 st2 :
  g_is_generating st1 = g_is_generating st2 →
  g_cancel_generation st1 = g_cancel_generation st2 →
  let r1 := loadModel path nThreads st1 in
  let r2 := loadModel path nThreads st2 in
  r1.1.1 = r2.1.1
  ∧ g_model r1.1.2 = g_model r2.1.2
  ∧ g_ctx r1.1.2 = g_ctx r2.1.2
  ∧ (path ≠ None →
     r1.1 = r2.1
     ∧ (loadModel path nThreads (unloadModel st1).1).1 = r1.1)
  ∧ (path = None →
     r1.1.1 = false ∧ getLoadProgress r1.1.2 = getLoadProgress st1).
Proof.
  assert (∀ p (sta stb : engine L),
    g_is_generating sta = g_is_generating stb →
    g_cancel_generation sta = g_cancel_generation stb →
    (loadModel (Some p) nThreads sta).1 = (loadModel (Some p) nThreads stb).1)
    as Hindep.
  { intros p [ma ca ga fa pa] [mb cb gb fb pb]; simpl. intros -> ->.
    unfold loadModel, release_handles; simpl.
    destruct (llama_model_load_from_file L p) as [reports [m|]];
      rewrite !progress_reports_fold; simpl; [|done].
    by destruct (llama_init_from_model L m _). }
  intros Hgen Hcancel. destruct path as [p|]; simpl.
  - rewrite (Hindep p st1 st2 Hgen Hcancel). split_and!; try done.
    intros _. split; [done|]. by apply Hindep.
  - unfold loadModel.
    destruct (release_handles st1) as [st1' ev1] eqn:Hrel1.
    destruct (release_handles st2) as [st2' ev2] eqn:Hrel2.
    replace st1' with (release_handles st1).1 by by rewrite Hrel1.
    replace st2' with (release_handles st2).1 by by rewrite Hrel2.
    by split_and!.
Qed.

(** X5.  Between calls the two handles are both present or both absent,
    and whenever a model is loaded the progress fraction reads 1. *)
Theorem reachable_consistent st :
  reachable st →
  (g_model st = None ↔ g_ctx st = None)
  ∧ (isModelLoaded st = true → getLoadProgress st = 1%Q).
Proof.
  unfold isModelLoaded, getLoadProgress.
  induction 1 as [|path nThreads st _ IH|st _ IH|st _ IH
                  |a h st txt st' evs _ IH Hrun
                  |a h st txt st' evs _ IH Hrun].
  - done.
  - destruct (loadModel_cases path nThreads st)
      as [(_ & -> & ->)|(_ & [m ->] & [c ->] & ->)]; by split.
  - done.
  - done.
  - pose proof (generate_result a h st) as Hres. rewrite Hrun in Hres.
    destruct Hres as (_ & Hnot & Hloaded & Hm & Hp).
    unfold isModelLoaded in *. rewrite Hm, Hp.
    destruct (g_model st) as [m|]; [|by rewrite Hnot].
    rewrite Hm in Hloaded. destruct IH as [IH1 IH2].
    by destruct (g_ctx st') as [c'|], (g_ctx st) as [c|].
  - pose proof (generateStreaming_result a h st) as Hres. rewrite Hrun in Hres.
    destruct Hres as (_ & Hnot & Hloaded & Hm & Hp).
    unfold isModelLoaded in *. rewrite Hm, Hp.
    destruct (g_model st) as [m|]; [|by rewrite Hnot].
    rewrite Hm in Hloaded. destruct IH as [IH1 IH2].
    by destruct (g_ctx st') as [c'|], (g_ctx st) as [c|].
Qed.

(** X6.  A generation request neither loads nor unloads: the model
    handle, [isModelLoaded()] and [getLoadProgress()] are after the call what
    they were before it. *)
Theorem generation_keeps_model a h st txt st' evs :
  generate a h st = Some (txt, st', evs)
  ∨ generateStreaming a h st = Some (txt, st', evs) →
  g_model st' = g_model st
  ∧ isModelLoaded st' = isModelLoaded st
  ∧ getLoadProgress st' = getLoadProgress st.
Proof.
  intros [Hrun|Hrun].
  - pose proof (generate_result a h st) as Hres. rewrite Hrun in Hres.
    by destruct Hres as (_ & _ & ? & ? & ?).
  - pose proof (generateStreaming_result a h st) as Hres.
    rewrite Hrun in Hres. by destruct Hres as (_ & _ & ? & ? & ?).
Qed.

End LifecycleMore.

(** ** Stop strings in [generate] *)

Section StopStringMore.

Lemma substr0_drop (s : string) (n : nat) :
  String.substring 0 n s +:+ StdString.drop n s = s.
Proof.
  revert s. induction n as [|n IH]; intros [|c s];
    cbn [String.substring StdString.drop]; try done.
  by rewrite string_app_cons, IH.
Qed.

Lemma substring_app_length (pre x : string) :
  String.substring 0 (String.length pre) (pre +:+ x) = pre.
Proof.
  induction pre as [|c pre IH].
  - by destruct x.
  - rewrite string_app_cons. cbn [String.length String.substring].
    by rewrite IH.
Qed.

Lemma drop_app_last (pre x : string) :
  pre ≠ EmptyString →
  ∃ c, StdString.drop (String.length pre - 1) (pre +:+ x) = String c x.
Proof.
  induction pre as [|c pre IH]; [done|]. intros _.
  destruct pre as [|c' pre].
  - by exists c.
  - destruct IH as [d Hd]; [done|]. exists d.
    rewrite string_app_cons. simpl in *. by rewrite Nat.sub_0_r in *.
Qed.

Lemma occurs_length (pat s : string) :
  StdString.occurs pat s → (String.length pat ≤ String.length s)%nat.
Proof. intros (pre & post & ->). rewrite !string_length_app. lia. Qed.

Lemma occurs_drop (pat s : string) (n : nat) :
  StdString.occurs pat (StdString.drop n s) → StdString.occurs pat s.
Proof.
  intros (pre & post & Heq). exists (String.substring 0 n s +:+ pre), post.
  by rewrite string_app_assoc, <- Heq, substr0_drop.
Qed.

(** A match of [find_at] is an occurrence. *)
Lemma find_at_occurs (pat s : string) (i0 j : nat) :
  StdString.find_at pat s i0 = Some j →
  StdString.occurs pat s ∧ (i0 ≤ j ≤ i0 + String.length s)%nat.
Proof.
  revert i0. induction s as [|c s IH]; intros i0; cbn [StdString.find_at].
  - destruct (String.prefix pat EmptyString) eqn:Hp; [|done].
    intros [= <-]. split; [by apply occurs_nil | simpl; lia].
  - destruct (String.prefix pat (String c s)) eqn:Hp.
    + intros [= <-]. split; [|simpl; lia].
      apply (proj2 (occurs_cons _ _ _)). by right.
    + intros [Hocc Hj]%IH. split; [|simpl; lia].
      apply (proj2 (occurs_cons _ _ _)). by left.
Qed.

Lemma find_occurs (s pat : string) (pos : Z) :
  StdString.length s < StdString.npos →
  StdString.find s pat pos ≠ StdString.npos → StdString.occurs pat s.
Proof.
  unfold StdString.find. intros Hlen.
  destruct (StdString.length s <? pos); [done|].
  destruct (StdString.find_at _ _ _) as [j|] eqn:Hfind; [|done].
  intros _. apply find_at_occurs in Hfind as [Hocc _].
  by apply occurs_drop in Hocc.
Qed.

(** The offset [rfind_at] returns is one at which the pattern starts. *)
Lemma rfind_at_start (pat s : string) (i0 j : nat) :
  StdString.rfind_at pat s i0 = Some j →
  ∃ k, j = (i0 + k)%nat
       ∧ String.prefix pat (StdString.drop k s) = true.
Proof.
  revert i0. induction s as [|c s IH]; intros i0; cbn [StdString.rfind_at].
  - destruct (String.prefix pat EmptyString) eqn:Hp; [|done].
    intros [= <-]. exists 0%nat. split; [lia | done].
  - destruct (StdString.rfind_at pat s (S i0)) as [j'|] eqn:Hr.
    + intros [= <-]. destruct (IH _ Hr) as (k & -> & Hk).
      exists (S k). split; [lia | done].
    + destruct (String.prefix pat (String c s)) eqn:Hp; [|done].
      intros [= <-]. exists 0%nat. split; [lia | done].
Qed.

Lemma rfind_at_self (pat : string) (i0 : nat) :
  StdString.rfind_at pat pat i0 = Some i0.
Proof.
  assert (String.prefix pat pat = true) as Hp.
  { apply prefix_app. exists EmptyString. by rewrite string_app_nil_r. }
  destruct pat as [|c pat]; [done|]. cbn [StdString.rfind_at].
  pose proof (rfind_at_spec (String c pat) pat (S i0)) as Hspec.
  destruct (StdString.rfind_at (String c pat) pat (S i0)).
  - destruct Hspec as [Hocc%occurs_length _]. simpl in Hocc. lia.
  - by rewrite Hp.
Qed.

(** The last match of a pattern the text ends with is that ending. *)
Lemma rfind_at_suffix (pre pat : string) (i0 : nat) :
  StdString.rfind_at pat (pre +:+ pat) i0 = Some (i0 + String.length pre)%nat.
Proof.
  revert i0. induction pre as [|c pre IH]; intros i0.
  - rewrite string_app_nil_l, rfind_at_self. f_equal. simpl. lia.
  - rewrite string_app_cons. cbn [StdString.rfind_at].
    rewrite IH. f_equal. simpl. lia.
Qed.

Lemma drop_app_length (pre x : string) :
  StdString.drop (String.length pre) (pre +:+ x) = x.
Proof.
  induction pre as [|c pre IH]; [by rewrite string_app_nil_l|].
  by rewrite string_app_cons.
Qed.

Lemma substring_length (s : string) (n : nat) :
  (n ≤ String.length s)%nat → String.length (String.substring 0 n s) = n.
Proof.
  revert s. induction n as [|n IH]; intros [|c s]; simpl; try done; [lia|].
  intros Hn. rewrite IH; [done | lia].
Qed.

Lemma prefix_drop_occurs (pat s : string) (k : nat) :
  String.prefix pat (StdString.drop k s) = true → StdString.occurs pat s.
Proof.
  intros [post Hpost]%prefix_app. apply (occurs_drop _ _ k).
  exists EmptyString, post. by rewrite string_app_nil_l.
Qed.

(** No match starts after the offset [rfind_at] returns. *)
Lemma rfind_at_last (pat s : string) (i0 j k : nat) :
  StdString.rfind_at pat s i0 = Some j →
  (k ≤ String.length s)%nat →
  String.prefix pat (StdString.drop k s) = true →
  (i0 + k ≤ j)%nat.
Proof.
  revert i0 k. induction s as [|c s IH]; intros i0 k;
    cbn [StdString.rfind_at].
  - destruct (String.prefix pat EmptyString); [|done].
    intros [= <-]. simpl. lia.
  - pose proof (rfind_at_spec pat s (S i0)) as Hspec.
    destruct (StdString.rfind_at pat s (S i0)) as [j'|] eqn:Hr.
    + intros [= <-] Hk Hp. destruct k as [|k]; [lia|].
      cbn [StdString.drop String.length] in *.
      specialize (IH (S i0) k Hr ltac:(lia) Hp). lia.
    + destruct (String.prefix pat (String c s)); [|done].
      intros [= <-] Hk Hp. destruct k as [|k]; [lia|].
      cbn [StdString.drop] in Hp. by apply prefix_drop_occurs in Hp.
Qed.

(** X7.  Whatever the stop-string loop of [generate] does, it only ever
    cuts, and it cuts at the last occurrence of a stop string: when it
    stops, the accumulated text is the text it leaves, followed by one of
    the configured stop strings, followed by a rest, and that stop string
    starts nowhere later in the accumulated text; when it does not stop
    the text is unchanged. *)
Theorem check_stop_strings_cut (text r : string) (stop_strs : list string)
    (b : bool) :
  StdString.length text < StdString.npos →
  check_stop_strings text stop_strs = (r, b) →
  if b then
    ∃ stop post,
      stop ∈ stop_strs ∧ text = r +:+ stop +:+ post
      ∧ ∀ pre' post', text = pre' +:+ stop +:+ post' →
          (String.length pre' ≤ String.length r)%nat
  else r = text.
Proof.
  intros Hlen. induction stop_strs as [|stop rest IH]; simpl.
  { by intros [= <- <-]. }
  destruct (_ && _) eqn:Hcond.
  - apply andb_true_iff in Hcond as [_ Hfind].
    apply negb_true_iff, Z.eqb_neq, (find_occurs _ _ _ Hlen) in Hfind.
    pose proof (proj2 (rfind_occurs _ _ Hlen) Hfind) as Hr.
    apply Z.eqb_neq in Hr. rewrite Hr. intros [= <- <-].
    unfold StdString.rfind, StdString.substr0 in *.
    pose proof (rfind_at_spec stop text 0) as Hspec.
    destruct (StdString.rfind_at stop text 0) as [j|] eqn:Hj;
      [|by apply Z.eqb_neq in Hr].
    destruct Hspec as [_ Hbound].
    pose proof (rfind_at_start _ _ _ _ Hj) as (k & Hjk & Hk).
    simpl in Hjk. subst k.
    apply prefix_app in Hk as [post Hk].
    exists stop, post. rewrite Nat2Z.id. split_and!.
    + by apply elem_of_cons; left.
    + rewrite <- Hk. by rewrite substr0_drop.
    + intros pre' post' Htext.
      rewrite substring_length by (simpl in Hbound; lia).
      apply (rfind_at_last stop text 0 j (String.length pre') Hj).
      * rewrite Htext, string_length_app. lia.
      * rewrite Htext, drop_app_length. apply prefix_app. by exists post'.
  - intros Hrest. specialize (IH Hrest). destruct b; [|done].
    destruct IH as (stop' & post & Hin & -> & Hlast). exists stop', post.
    split_and!; [by apply elem_of_cons; right | done..].
Qed.

(** X8.  When the accumulated text ends with the first configured stop
    string and is longer than it, the loop of [generate] stops and leaves
    exactly the text before that ending. *)
Theorem check_stop_strings_suffix (pre stop : string) (rest : list string) :
  pre ≠ EmptyString →
  StdString.length (pre +:+ stop) < StdString.npos →
  check_stop_strings (pre +:+ stop) (stop :: rest) = (pre, true).
Proof.
  intros Hne Hlen. cbn [check_stop_strings].
  assert (0 < String.length pre)%nat as Hpre by (destruct pre; [done | simpl; lia]).
  unfold StdString.length in *. rewrite string_length_app in *.
  assert (StdString.size_sub
            (StdString.size_sub
               (Z.of_nat (String.length pre + String.length stop))
               (Z.of_nat (String.length stop))) 1
          = Z.of_nat (String.length pre - 1)) as ->.
  { unfold StdString.size_sub, StdString.npos, StdString.size_bits in *.
    change (2 ^ 64) with 18446744073709551616 in *.
    replace (Z.of_nat (String.length pre + String.length stop)
             - Z.of_nat (String.length stop))
      with (Z.of_nat (String.length pre)) by lia.
    rewrite (Z.mod_small (Z.of_nat (String.length pre))) by lia.
    rewrite Z.mod_small by lia. lia. }
  assert (StdString.find (pre +:+ stop) stop (Z.of_nat (String.length pre - 1))
          ≠ StdString.npos) as Hfind.
  { unfold StdString.find, StdString.length. rewrite string_length_app.
    rewrite (proj2 (Z.ltb_ge _ _)) by lia. rewrite Nat2Z.id.
    destruct (drop_app_last pre stop Hne) as [c ->].
    destruct (StdString.find_at stop (String c stop) _) as [j|] eqn:Hj.
    - apply find_at_occurs in Hj as [_ Hj]. simpl in Hj. lia.
    - cbn [StdString.find_at] in Hj.
      destruct (String.prefix stop (String c stop)); [done|].
      assert (String.prefix stop stop = true) as Hp.
      { apply prefix_app. exists EmptyString. by rewrite string_app_nil_r. }
      destruct stop; cbn [StdString.find_at] in Hj; by rewrite Hp in Hj. }
  apply Z.eqb_neq in Hfind. rewrite Hfind.
  rewrite (proj2 (Z.leb_le _ _)) by lia. simpl.
  unfold StdString.rfind. rewrite rfind_at_suffix. simpl.
  rewrite (proj2 (Z.eqb_neq _ _)) by lia.
  unfold StdString.substr0. by rewrite Nat2Z.id, substring_app_length.
Qed.

End StopStringMore.

(** ** More on generation requests *)

Section LoopMore.
Context {L : llama_api}.
Context (model : llama_model L) (stop_strs : list string) (h : host).

Implicit Types s : loop_state L.

Lemma check_stop_strings_prefix (text r : string) (b : bool) :
  check_stop_strings text stop_strs = (r, b) → ∃ rest, text = r +:+ rest.
Proof.
  induction stop_strs as [|stop rest IH]; simpl.
  { intros [= <- <-]. exists EmptyString. by rewrite string_app_nil_r. }
  destruct (_ && _); [|done].
  destruct (StdString.rfind text stop =? StdString.npos); intros [= <- <-].
  - exists EmptyString. by rewrite string_app_nil_r.
  - eexists. unfold StdString.substr0. by rewrite substr0_drop.
Qed.

(** The text at the exit of the loop of [generate] is a prefix of the text
    at its start followed by the fragments of the tokens sampled since. *)
Lemma generate_loop_prefix fuel : ∀ i s s' evs,
  generate_loop model stop_strs h fuel i s = Some (s', evs) →
  ∃ rest, ls_text s +:+ text_of model evs = ls_text s' +:+ rest
          ∧ (stop_strs = [] → rest = EmptyString).
Proof.
  induction fuel as [|fuel IH]; intros i s s' evs; simpl.
  { intros [= <- <-]. by exists EmptyString. }
  destruct (ls_cancel s || cancel_arrives h i).
  { intros [= <- <-]. by exists EmptyString. }
  destruct (llama_sampler_sample L _ _) as [tok smpl].
  destruct (llama_vocab_is_eog L model tok) eqn:Heog.
  { intros [= <- <-]. simpl. rewrite fragment_of_eog by done.
    by exists EmptyString. }
  destruct (piece_of model tok) as [n piece] eqn:Hpiece.
  destruct (if 0 <? n then _ else _) as [result [|]] eqn:Hstep;
    pose proof (fragment_of_piece _ _ _ _ Heog Hpiece) as Hfragment.
  { intros [= <- <-]. simpl. rewrite Hfragment, string_app_nil_r.
    destruct (0 <? n); [|done].
    destruct (check_stop_strings_prefix _ _ _ Hstep) as [rest ->].
    exists rest. split; [done|]. intros ->. simpl in Hstep. congruence. }
  apply generate_step_text in Hstep. rewrite <- Hfragment in Hstep.
  rewrite single_batch_defined; simpl.
  destruct (llama_decode L _ _) as [status0 ctx].
  destruct (negb (status0 =? 0)).
  - intros [= <- <-]. simpl. rewrite Hstep. exists EmptyString.
    by rewrite string_app_assoc.
  - destruct (generate_loop _ _ _ fuel _ _) as [[s1 e1]|] eqn:Hrec;
      simpl; [|done].
    intros [= <- <-]. destruct (IH _ _ _ _ Hrec) as (rest & Hrest & Hnil).
    simpl in Hrest. exists rest. split; [|done].
    by rewrite <- Hrest, Hstep, string_app_assoc.
Qed.

(** The loops evaluate at most one batch per sampled token. *)
Lemma loop_batches_sampled (evs : list event) :
  (∀ k b, token_batches evs !! k = Some b → is_Some (sampled evs !! k)) →
  (length (token_batches evs) ≤ length (sampled evs))%nat.
Proof.
  intros Hk.
  destruct (le_lt_dec (length (token_batches evs)) (length (sampled evs)))
    as [|Hlt]; [done|].
  apply lookup_lt_is_Some_2 in Hlt as [b Hb].
  apply Hk in Hb as [t Ht%lookup_lt_Some]. lia.
Qed.

(** A sink that threw has ended the loop, with nothing evaluated after
    it. *)
Lemma streaming_loop_throw fuel : ∀ i s s' evs p,
  streaming_loop model stop_strs h fuel i s = Some (s', evs) →
  EvOnToken p true ∈ evs →
  last evs = Some (EvOnToken p true).
Proof.
  induction fuel as [|fuel IH]; intros i s s' evs p; simpl.
  { intros [= <- <-] Hin. by apply elem_of_nil in Hin. }
  destruct (ls_cancel s || cancel_arrives h i).
  { intros [= <- <-] Hin. by apply elem_of_nil in Hin. }
  destruct (llama_sampler_sample L _ _) as [tok smpl].
  destruct (llama_vocab_is_eog L model tok) eqn:Heog.
  { intros [= <- <-] Hin. by apply list_elem_of_singleton in Hin. }
  destruct (piece_of model tok) as [n piece] eqn:Hpiece.
  destruct (stream_fragment _ _ _ _ _ _) as [[accumulated sink] leave]
    eqn:Hfrag.
  apply stream_fragment_spec in Hfrag as (_ & Hsink & _).
  destruct leave.
  { intros [= <- <-] Hin. apply elem_of_cons in Hin as [Hin|Hin]; [done|].
    destruct Hsink as [->|(threw & -> & _)].
    - by apply elem_of_nil in Hin.
    - by apply list_elem_of_singleton in Hin as ->. }
  assert (EvOnToken p true ∉ sink) as Hnot.
  { intros Hin. destruct Hsink as [->|(threw & -> & Hleave & _)].
    - by apply elem_of_nil in Hin.
    - apply list_elem_of_singleton in Hin as [= _ <-]. by specialize (Hleave eq_refl). }
  rewrite single_batch_defined; simpl.
  destruct (llama_decode L _ _) as [status0 ctx].
  destruct (negb (status0 =? 0)).
  - intros [= <- <-] Hin. apply elem_of_cons in Hin as [Hin|Hin]; [done|].
    apply elem_of_app in Hin as [Hin|Hin]; [done|].
    by apply list_elem_of_singleton in Hin.
  - destruct (streaming_loop _ _ _ fuel _ _) as [[s1 e1]|] eqn:Hrec;
      simpl; [|done].
    intros [= <- <-] Hin. apply elem_of_cons in Hin as [Hin|Hin]; [done|].
    apply elem_of_app in Hin as [Hin|Hin]; [done|].
    apply elem_of_cons in Hin as [Hin|Hin]; [done|].
    by rewrite last_cons, last_app, last_cons, (IH _ _ _ _ _ Hrec Hin).
Qed.

End LoopMore.

Section RequestMore.
Context {L : llama_api}.

Implicit Types st : engine L.
Implicit Types loop :
  llama_model L → list string → host → nat → nat → loop_state L
  → option (loop_state L * list event).

(** A request that got past the model check either ends before its loop,
    with an empty text and nothing sampled, or runs its loop. *)
Lemma run_generation_text loop a h m c st txt st' evs :
  run_generation loop a h m c st = Some (txt, st', evs) →
  (txt = EmptyString ∧ text_of m evs = EmptyString ∧ sampled evs = []
   ∧ token_batches evs = [] ∧ delivered evs = [])
  ∨ (∃ ctx s' e1,
       loop m (default [] (stopStrings a)) h (Z.to_nat (maxTokens a)) 0%nat
         (mk_loop EmptyString (tokenize_prompt m (prompt a)).1 ctx
            (llama_sampler_chain L (random_device h) (sampler_stages a))
            (g_cancel_generation st))
       = Some (s', e1)
       ∧ txt = ls_text s'
       ∧ text_of m evs = text_of m e1 ∧ sampled evs = sampled e1
       ∧ token_batches evs = token_batches e1
       ∧ delivered evs = delivered e1).
Proof.
  unfold run_generation.
  destruct (tokenize_prompt m (prompt a)) as [n tokens]; simpl.
  destruct (n <? 0); [intros [= <- <- <-]; by left|].
  destruct (prompt_batch tokens) as [batch|]; [simpl|done].
  destruct (llama_decode L _ _) as [status ctx].
  destruct (negb (status =? 0)); [intros [= <- <- <-]; by left|].
  destruct (loop _ _ _ _ _ _) as [[s' e1]|] eqn:Hloop; simpl; [|done].
  intros [= <- <- <-]. right. by exists ctx, s', e1.
Qed.

(** A text read as a C string is all of the text exactly when it holds no
    NUL byte. *)
Lemma c_str_whole (s : string) :
  StdString.c_str s = s
  ↔ ¬ StdString.occurs (String Ascii.zero EmptyString) s.
Proof.
  induction s as [|c s IH].
  - split; [|done]. by intros _ Hocc%occurs_nil.
  - rewrite occurs_cons. cbn [StdString.c_str String.prefix].
    destruct (Ascii.eqb_spec c Ascii.zero) as [->|Hc].
    + split; [done|]. intros []. right.
      destruct (Ascii.ascii_dec Ascii.zero Ascii.zero) as [_|[]]; [|done].
      by destruct s.
    + destruct (Ascii.ascii_dec Ascii.zero c) as [<-|_]; [done|].
      split.
      * intros [= Hs%IH]. by intros [?|?].
      * intros Hno. f_equal. apply IH. intros ?. apply Hno. by left.
Qed.

Lemma c_str_prefix (s : string) : ∃ rest, s = StdString.c_str s +:+ rest.
Proof.
  induction s as [|c s [rest IH]]; [by exists EmptyString|].
  cbn [StdString.c_str]. destruct (Ascii.eqb c Ascii.zero).
  - exists (String c s). by rewrite string_app_nil_l.
  - exists rest. by rewrite string_app_cons, <- IH.
Qed.

(** X9.  [generate] returns a prefix of what the sampled tokens decoded
    to: stop strings only ever cut text off the end, and so does the first
    NUL byte.  With no stop string configured it returns all of it, up to
    its first NUL byte. *)
Theorem returned_text_is_prefix a h st m txt st' evs :
  g_model st = Some m →
  generate a h st = Some (txt, st', evs) →
  ∃ rest, text_of m evs = txt +:+ rest
          ∧ (default [] (stopStrings a) = [] →
             txt = StdString.c_str (text_of m evs)).
Proof.
  intros Hm. unfold generate. rewrite Hm.
  destruct (g_ctx st) as [c|]; [|intros [= <- <- <-]; by exists EmptyString].
  intros (result & Hrun & ->)%c_str_request.
  apply run_generation_text in Hrun
    as [(-> & -> & _)|(ctx & s' & e1 & Hloop & -> & -> & _)].
  { by exists EmptyString. }
  apply generate_loop_prefix in Hloop as (rest & Hrest & Hnil).
  cbn [ls_text] in Hrest. rewrite string_app_nil_l in Hrest.
  destruct (c_str_prefix (ls_text s')) as [rest0 Hcut].
  exists (rest0 +:+ rest). split.
  - by rewrite Hrest, <- string_app_assoc, <- Hcut.
  - intros Hstops. rewrite Hrest, (Hnil Hstops). by rewrite string_app_nil_r.
Qed.

Lemma request_budget loop a h m c st txt st' evs :
  (∀ stops i s, loop m stops h 0%nat i s = Some (s, [])) →
  (∀ stops fuel i s s' evs k b,
     loop m stops h fuel i s = Some (s', evs) →
     token_batches evs !! k = Some b → is_Some (sampled evs !! k)) →
  run_generation loop a h m c st = Some (txt, st', evs) →
  (length (token_batches evs) ≤ length (sampled evs))%nat
  ∧ (maxTokens a ≤ 0 →
     txt = EmptyString ∧ sampled evs = [] ∧ token_batches evs = []
     ∧ delivered evs = []).
Proof.
  intros Hzero Hbatches
    [(-> & _ & -> & -> & ->)
    |(ctx & s' & e1 & Hloop & -> & _ & -> & -> & ->)]%run_generation_text.
  { done. }
  split.
  - apply loop_batches_sampled. intros k b. by eapply Hbatches.
  - intros Hk. replace (Z.to_nat (maxTokens a)) with 0%nat in Hloop by lia.
    rewrite Hzero in Hloop. by injection Hloop as <- <-.
Qed.

(** X10.  The token budget is respected: a request samples at most
    [maxTokens] tokens and evaluates at most one batch per sampled token;
    with a budget of zero or less it samples and evaluates nothing after
    the prompt, calls no sink and its text is empty. *)
Theorem token_budget_respected a h st txt st' evs :
  generate a h st = Some (txt, st', evs)
  ∨ generateStreaming a h st = Some (txt, st', evs) →
  (length (sampled evs) ≤ Z.to_nat (maxTokens a))%nat
  ∧ (length (token_batches evs) ≤ length (sampled evs))%nat
  ∧ (maxTokens a ≤ 0 →
     txt = EmptyString ∧ sampled evs = [] ∧ token_batches evs = []
     ∧ delivered evs = []).
Proof.
  intros Hrun. split; [by eapply generate_sampled|].
  revert Hrun. unfold generate, generateStreaming.
  destruct (g_model st) as [m|], (g_ctx st) as [c|];
    try (intros [[= <- <- <-]|[= <- <- <-]]; by split_and!).
  intros [(result & Hrun & ->)%c_str_request|Hrun].
  - destruct (request_budget generate_loop a h m c
                (set_cancel_generation false (set_is_generating true st))
                result st' evs)
      as [Hlen Hzero]; [done| |exact Hrun|].
    { intros ???????? Hl Hk.
      destruct (generate_loop_batches _ _ _ _ _ _ _ _ _ _ Hl Hk)
        as (t & -> & _).
      by eexists. }
    split; [done|]. intros Hk. destruct (Hzero Hk) as (-> & ? & ? & ?).
    by split_and!.
  - destruct (has_onToken h); [|injection Hrun as <- <- <-; by split_and!].
    eapply request_budget; [| |exact Hrun]; [done|].
    intros ???????? Hl Hk.
    destruct (streaming_loop_batches _ _ _ _ _ _ _ _ _ _ Hl Hk) as (t & -> & _).
    by eexists.
Qed.

(** X11.  When the sink throws, the streaming request ends with that
    call: nothing is evaluated, sampled or delivered after it; the model
    stays loaded and no generation is marked in flight. *)
Theorem sink_failure_ends_request a h st txt st' evs p :
  generateStreaming a h st = Some (txt, st', evs) →
  EvOnToken p true ∈ evs →
  last evs = Some (EvOnToken p true)
  ∧ isModelLoaded st' = true
  ∧ isGenerating st' = false.
Proof.
  intros Hrun Hin.
  pose proof (generateStreaming_result a h st) as Hres. rewrite Hrun in Hres.
  destruct Hres as (Hgen & _ & Hloaded & _).
  revert Hrun Hgen Hloaded. unfold generateStreaming, isModelLoaded, isGenerating.
  destruct (g_model st) as [m|], (g_ctx st) as [c|];
    try (intros [= <- <- <-]; by apply elem_of_nil in Hin).
  destruct (has_onToken h);
    [|intros [= <- <- <-]; by apply elem_of_nil in Hin].
  intros Hrun Hgen ->. split; [|by split; [|apply Hgen]].
  apply run_generation_loop in Hrun
    as [->|[(status0 & _ & _ & ->)|(ctx & s' & e1 & Hrun & _ & _ & ->)]].
  - by apply elem_of_nil in Hin.
  - apply elem_of_cons in Hin as [Hin|Hin]; [done|].
    by apply list_elem_of_singleton in Hin.
  - apply elem_of_cons in Hin as [Hin|Hin]; [done|].
    apply elem_of_cons in Hin as [Hin|Hin]; [done|].
    by rewrite !last_cons, (streaming_loop_throw _ _ _ _ _ _ _ _ _ Hrun Hin).
Qed.

Lemma joined_app (xs ys : list string) :
  joined (xs ++ ys) = joined xs +:+ joined ys.
Proof.
  induction xs as [|x xs IH]; cbn [joined foldr app].
  - by rewrite string_app_nil_l.
  - fold (joined (xs ++ ys)) (joined xs). by rewrite IH, string_app_assoc.
Qed.

Lemma c_str_app_cases (a b : string) :
  (StdString.c_str a = a
   ∧ StdString.c_str (a +:+ b) = a +:+ StdString.c_str b)
  ∨ StdString.c_str (a +:+ b) = StdString.c_str a.
Proof.
  induction a as [|c a IH]; [left; by rewrite !string_app_nil_l|].
  rewrite string_app_cons. cbn [StdString.c_str].
  destruct (Ascii.eqb c Ascii.zero); [by right|].
  destruct IH as [[-> ->] | ->]; [left | right];
    by rewrite ?string_app_cons.
Qed.

Lemma c_str_app_whole (a b : string) :
  StdString.c_str (a +:+ b) = a +:+ b →
  StdString.c_str a = a ∧ StdString.c_str b = b.
Proof.
  induction a as [|c a IH]; [by rewrite !string_app_nil_l|].
  rewrite string_app_cons. cbn [StdString.c_str].
  destruct (Ascii.eqb c Ascii.zero); [done|].
  by intros [= [-> ->]%IH].
Qed.

(** Fragments read one by one as C strings, against their concatenation
    read as one. *)
Lemma c_str_joined (pieces : list string) :
  (∃ rest, joined (StdString.c_str <$> pieces)
           = StdString.c_str (joined pieces) +:+ rest)
  ∧ (StdString.c_str (joined pieces) = joined pieces →
     StdString.c_str <$> pieces = pieces).
Proof.
  induction pieces as [|piece pieces [[rest IH1] IH2]].
  { split; [by exists EmptyString | done]. }
  cbn [joined foldr fmap list_fmap].
  fold (joined pieces) (joined (StdString.c_str <$> pieces)). split.
  - destruct (c_str_app_cases piece (joined pieces)) as [[-> ->]| ->].
    + exists rest. by rewrite IH1, string_app_assoc.
    + by eexists.
  - intros [-> Hrest%IH2]%c_str_app_whole.
    change (list_fmap _ _ StdString.c_str pieces)
      with (StdString.c_str <$> pieces). by rewrite Hrest.
Qed.

(** With no stop string and a sink that accepts every fragment, the two
    loops do the same: same exit, same calls apart from those of the sink,
    and the sink has received, each as a C string, the fragments that make
    the text accumulated in the loop. *)
Lemma loops_agree_without_stops (m : llama_model L) (h : host) fuel :
  (∀ p, new_string_utf h p = true) →
  (∀ i p, onToken_throws h i p = false) →
  ∀ i (s : loop_state L),
  ∃ s' e1 e2 pieces,
    generate_loop m [] h fuel i s = Some (s', e1)
    ∧ streaming_loop m [] h fuel i s = Some (s', e2)
    ∧ e1 = without_sink e2
    ∧ ls_text s' = ls_text s +:+ joined pieces
    ∧ delivered e2 = StdString.c_str <$> pieces.
Proof.
  intros Hnew Hthrow. induction fuel as [|fuel IH]; intros i s; simpl.
  { exists s, [], [], []. by rewrite string_app_nil_r. }
  destruct (ls_cancel s || cancel_arrives h i).
  { eexists _, [], [], []. split_and!; try done.
    by rewrite string_app_nil_r. }
  destruct (llama_sampler_sample L _ _) as [tok smpl].
  destruct (llama_vocab_is_eog L m tok).
  { eexists _, _, _, []. split_and!; try done.
    by rewrite string_app_nil_r. }
  destruct (piece_of m tok) as [n piece].
  assert (∃ sink pieces0,
    stream_fragment [] h i (ls_text s) n piece
    = (if 0 <? n then ls_text s +:+ piece else ls_text s, sink, false)
    ∧ without_sink sink = []
    ∧ (if 0 <? n then piece else EmptyString) = joined pieces0
    ∧ delivered sink = StdString.c_str <$> pieces0)
    as (sink & pieces0 & -> & Hws & Hjoin & Hsink).
  { unfold stream_fragment, send_token.
    destruct (0 <? n); [|by exists [], []].
    simpl. rewrite Hnew, Hthrow, andb_true_r.
    destruct (String.eqb piece EmptyString) eqn:Hp; simpl.
    - apply String.eqb_eq in Hp as ->. by exists [], [].
    - exists [EvOnToken (StdString.c_str piece) false], [piece].
      split_and!; try done. simpl. by rewrite string_app_nil_r. }
  assert (∀ e, without_sink (EvSample tok :: sink ++ e)
               = EvSample tok :: without_sink e) as Hws'.
  { intros e. change (without_sink (EvSample tok :: sink ++ e))
      with (EvSample tok :: without_sink (sink ++ e)).
    unfold without_sink at 1. rewrite omap_app.
    fold (without_sink sink). by rewrite Hws. }
  assert (∀ e, delivered (EvSample tok :: sink ++ e)
               = delivered sink ++ delivered e) as Hd.
  { intros e. change (delivered (EvSample tok :: sink ++ e))
      with (delivered (sink ++ e)). apply omap_app. }
  replace (if 0 <? n then (ls_text s +:+ piece, false)
           else (ls_text s, false))
    with (if 0 <? n then ls_text s +:+ piece else ls_text s, false)
    by by destruct (0 <? n).
  assert ((if 0 <? n then ls_text s +:+ piece else ls_text s)
          = ls_text s +:+ joined pieces0) as Htext.
  { rewrite <- Hjoin. destruct (0 <? n); [done|].
    by rewrite string_app_nil_r. }
  simpl. rewrite single_batch_defined; simpl.
  destruct (llama_decode L _ _) as [status ctx].
  destruct (negb (status =? 0)).
  - eexists _, _, _, pieces0. split_and!; [done..| | |].
    + by rewrite Hws'.
    + cbn [ls_text]. by rewrite Htext.
    + rewrite Hd, Hsink.
      change (delivered [EvDecode TokenEval (single_of tok (ls_n_cur s)) status])
        with ([] : list string).
      by rewrite (right_id_L [] (++)).
  - match goal with
    | |- context [generate_loop _ _ _ fuel (S i) ?s1] =>
        destruct (IH (S i) s1)
          as (s' & e1 & e2 & pieces & -> & -> & -> & Htext' & Hpieces)
    end.
    cbn [mbind option_bind ls_text] in *.
    eexists _, _, _, (pieces0 ++ pieces).
    split_and!; [done..| | |].
    + by rewrite Hws'.
    + by rewrite Htext', Htext, joined_app, string_app_assoc.
    + rewrite Hd, Hsink, fmap_app.
      change (delivered (EvDecode TokenEval (single_of tok (ls_n_cur s)) status
                         :: e2)) with (delivered e2).
      by rewrite Hpieces.
Qed.

(** X12.  Without stop strings, and with a sink that accepts every string
    and never throws, [generateStreaming] does what [generate] does: it
    accumulates the text that [generate] returns as a C string, leaves the
    same globals and makes the same runtime calls.  What [generate]
    returns is a prefix of the strings handed to [onToken], put one after
    the other, and it is all of them when the accumulated text holds no
    NUL byte. *)
Theorem streaming_matches_buffering a h st txt st' evs :
  default [] (stopStrings a) = [] →
  has_onToken h = true →
  (∀ p, new_string_utf h p = true) →
  (∀ i p, onToken_throws h i p = false) →
  generate a h st = Some (txt, st', evs) →
  ∃ accumulated evs',
    generateStreaming a h st = Some (accumulated, st', evs')
    ∧ txt = StdString.c_str accumulated
    ∧ evs = without_sink evs'
    ∧ (∃ rest, joined (delivered evs') = txt +:+ rest)
    ∧ (txt = accumulated → joined (delivered evs') = txt).
Proof.
  intros Hstops Hsink Hnew Hthrow. unfold generate, generateStreaming.
  rewrite Hsink.
  destruct (g_model st) as [m|];
    [|intros [= <- <- <-]; exists EmptyString, []; split_and!; try done;
      by exists EmptyString].
  destruct (g_ctx st) as [c|];
    [|intros [= <- <- <-]; exists EmptyString, []; split_and!; try done;
      by exists EmptyString].
  unfold run_generation. rewrite Hstops.
  destruct (tokenize_prompt m (prompt a)) as [n_tok tokens].
  destruct (n_tok <? 0);
    [intros [= <- <- <-]; exists EmptyString, []; split_and!; try done;
     by exists EmptyString|].
  destruct (prompt_batch tokens) as [batch|]; [|done]. cbn [mbind option_bind].
  destruct (llama_decode L _ batch) as [status ctx].
  destruct (negb (status =? 0));
    [intros [= <- <- <-]; eexists EmptyString, _; split_and!; try done;
     by exists EmptyString|].
  match goal with
  | |- context [generate_loop _ _ _ ?fuel ?i ?s1] =>
      destruct (loops_agree_without_stops m h fuel Hnew Hthrow i s1)
        as (s' & e1 & e2 & pieces & -> & -> & -> & Htext & Hpieces)
  end.
  cbn [mbind option_bind ls_text] in *. rewrite string_app_nil_l in Htext.
  intros [= <- <- <-]. eexists _, _. split_and!; [done..| |].
  - change (delivered (EvMemoryClear :: EvDecode PromptEval batch status
                       :: e2)) with (delivered e2).
    rewrite Hpieces, Htext. apply c_str_joined.
  - change (delivered (EvMemoryClear :: EvDecode PromptEval batch status
                       :: e2)) with (delivered e2).
    rewrite Hpieces, Htext. intros Hwhole.
    by rewrite (proj2 (c_str_joined pieces) Hwhole).
Qed.

Lemma run_generation_prompt_failure loop a h m c st txt st' evs :
  g_ctx st = Some c →
  (tokenize_prompt m (prompt a)).1 < 0
  ∨ (llama_decode L (llama_memory_clear L c)
       (prompt_of (tokenize_prompt m (prompt a)).2)).1 ≠ 0 →
  run_generation loop a h m c st = Some (txt, st', evs) →
  txt = EmptyString ∧ sampled evs = [] ∧ token_batches evs = []
  ∧ delivered evs = [] ∧ g_is_generating st' = false
  ∧ is_Some (g_ctx st') ∧ g_model st' = g_model st
  ∧ ((tokenize_prompt m (prompt a)).1 < 0 →
     evs = [] ∧ g_ctx st' = g_ctx st).
Proof.
  intros Hc. unfold run_generation.
  pose proof (prompt_batch_tokenized m (prompt a)) as Hbatch.
  destruct (tokenize_prompt m (prompt a)) as [n tokens]; simpl in *.
  destruct (n <? 0) eqn:Hn.
  { intros _ [= <- <- <-]. simpl. rewrite Hc. by split_and!. }
  apply Z.ltb_ge in Hn. rewrite (Hbatch Hn).
  intros [?|Hstatus]; [lia|].
  case_decide; [done|]; simpl.
  destruct (llama_decode L _ _) as [status ctx]. simpl in Hstatus.
  apply Z.eqb_neq in Hstatus as ->. simpl.
  intros [= <- <- <-]. simpl. split_and!; try done. lia.
Qed.

(** X13.  A prompt that does not tokenize into the buffer sized for it
    (its length plus 128 entries), or whose evaluation fails, gives an
    empty text: nothing is sampled, evaluated after the prompt or handed to
    the sink, the model stays loaded and no generation is marked in flight.
    After a tokenizer failure the runtime has not been called at all. *)
Theorem prompt_failure_empty_result a h st m c txt st' evs :
  g_model st = Some m →
  g_ctx st = Some c →
  (tokenize_prompt m (prompt a)).1 < 0
  ∨ (llama_decode L (llama_memory_clear L c)
       (prompt_of (tokenize_prompt m (prompt a)).2)).1 ≠ 0 →
  generate a h st = Some (txt, st', evs)
  ∨ generateStreaming a h st = Some (txt, st', evs) →
  txt = EmptyString ∧ sampled evs = [] ∧ token_batches evs = []
  ∧ delivered evs = []
  ∧ isModelLoaded st' = true ∧ isGenerating st' = false
  ∧ ((tokenize_prompt m (prompt a)).1 < 0 →
     evs = [] ∧ g_ctx st' = Some c).
Proof.
  intros Hm Hc Hfail. unfold generate, generateStreaming, isModelLoaded,
    isGenerating. rewrite Hm, Hc.
  assert (∀ loop result,
    run_generation loop a h m c
      (set_cancel_generation false (set_is_generating true st))
    = Some (result, st', evs) →
    result = EmptyString ∧ sampled evs = [] ∧ token_batches evs = []
    ∧ delivered evs = []
    ∧ match g_model st', g_ctx st' with
      | Some _, Some _ => true
      | _, _ => false
      end = true
    ∧ g_is_generating st' = false
    ∧ ((tokenize_prompt m (prompt a)).1 < 0 →
       evs = [] ∧ g_ctx st' = Some c)) as Hloop.
  { intros loop result Hrun.
    apply (run_generation_prompt_failure loop a h m c _ result st' evs)
      in Hrun
      as (-> & -> & -> & -> & -> & [c' Hc'] & Hm' & Hneg); [|done..].
    simpl in Hm'. rewrite Hm', Hm, Hc'. split_and!; try done.
    intros Hn. destruct (Hneg Hn) as [-> Hctx]. split; [done|].
    simpl in Hctx. congruence. }
  intros [(result & Hrun & ->)%c_str_request|Hrun].
  { apply Hloop in Hrun as (-> & Hrest). by split. }
  destruct (has_onToken h); [by eapply Hloop|].
  injection Hrun as <- <- <-. simpl. rewrite Hm, Hc. by split_and!.
Qed.

End RequestMore.

(** ** The Piper bridge *)

Section PiperFacts.
Import Piper.

Lemma without_blanks_app (a b : string) :
  without_blanks (a +:+ b) = without_blanks a +:+ without_blanks b.
Proof.
  induction a as [|c a IH]; [by rewrite !string_app_nil_l|].
  rewrite string_app_cons. cbn [without_blanks].
  destruct (contains blanks c); [done|]. by rewrite string_app_cons, IH.
Qed.

Lemma unterminated_app (a b : string) :
  unterminated (a +:+ b) = unterminated a && unterminated b.
Proof.
  induction a as [|c a IH]; [by rewrite string_app_nil_l|].
  rewrite string_app_cons. cbn [unterminated]. by rewrite IH, andb_assoc.
Qed.

Lemma terminated_snoc (body : string) (c : Ascii.ascii) :
  unterminated body = true → ends_sentence c = true →
  terminated (body +:+ String c EmptyString) = true.
Proof.
  intros Hbody Hc. induction body as [|d body IH].
  - rewrite string_app_nil_l. cbn [terminated]. by rewrite Hc.
  - rewrite string_app_cons. cbn [terminated unterminated] in *.
    apply andb_true_iff in Hbody as [Hd Hbody].
    apply negb_true_iff in Hd as ->. by apply IH.
Qed.

Lemma blank_not_end (c : Ascii.ascii) :
  contains blanks c = true → ends_sentence c = false.
Proof.
  unfold blanks, ends_sentence. cbn [contains].
  rewrite orb_false_r, !orb_true_iff, !Ascii.eqb_eq.
  by intros [->|[->| ->]].
Qed.

(** What trimming finds: the text from the first character that is not a
    blank on, or nothing in a text of blanks. *)
Lemma trim_at (s : string) : ∀ i,
  match find_first_not_of_at blanks s i with
  | Some k =>
      ∃ j, k = (i + j)%nat
           ∧ find_first_not_of (StdString.drop j s) blanks = Some 0%nat
           ∧ without_blanks (StdString.drop j s) = without_blanks s
           ∧ terminated (StdString.drop j s) = terminated s
           ∧ unterminated (StdString.drop j s) = unterminated s
  | None => without_blanks s = EmptyString ∧ unterminated s = true
  end.
Proof.
  induction s as [|c s IH]; intros i; cbn [find_first_not_of_at]; [done|].
  destruct (contains blanks c) eqn:Hc.
  - specialize (IH (S i)). pose proof (blank_not_end c Hc) as Hend.
    cbn [without_blanks terminated unterminated]. rewrite Hc, Hend.
    destruct (find_first_not_of_at blanks s (S i)) as [k|]; [|done].
    destruct IH as (j & -> & IH). exists (S j). split; [lia|]. exact IH.
  - exists 0%nat. split; [lia|]. cbn [StdString.drop].
    unfold find_first_not_of. cbn [find_first_not_of_at]. by rewrite Hc.
Qed.

Lemma push_trimmed_cases (sentences : list string) (current : string) :
  (push_trimmed sentences current = sentences
   ∧ without_blanks current = EmptyString ∧ unterminated current = true)
  ∨ (∃ s, push_trimmed sentences current = sentences ++ [s]
          ∧ find_first_not_of s blanks = Some 0%nat
          ∧ without_blanks s = without_blanks current
          ∧ terminated s = terminated current
          ∧ unterminated s = unterminated current).
Proof.
  unfold push_trimmed, find_first_not_of.
  pose proof (trim_at current 0) as H.
  destruct (find_first_not_of_at blanks current 0) as [k|];
    [|left; by split].
  destruct H as (j & -> & H). right.
  exists (StdString.drop j current). split; [done | exact H].
Qed.


Lemma split_loop_inv (text : string) : ∀ current sentences,
  unterminated current = true →
  Forall pushed sentences →
  let r := split_loop text current sentences in
  unterminated r.1 = true
  ∧ Forall pushed r.2
  ∧ without_blanks (joined r.2) +:+ without_blanks r.1
    = without_blanks (joined sentences) +:+ without_blanks current
      +:+ without_blanks text
  ∧ (length r.2 + String.length r.1 `min` 1
     ≤ length sentences + String.length current `min` 1
       + String.length text)%nat.
Proof.
  induction text as [|c text IH]; intros current sentences Hcur Hsent;
    cbn [split_loop].
  { cbn [fst snd without_blanks String.length].
    rewrite string_app_nil_r. split_and!; [done..|lia]. }
  set (current' := current +:+ String c EmptyString).
  assert (without_blanks current' +:+ without_blanks text
          = without_blanks current +:+ without_blanks (String c text)) as Hnb.
  { unfold current'. rewrite without_blanks_app, string_app_assoc.
    f_equal. cbn [without_blanks]. by destruct (contains blanks c). }
  assert (String.length current' `min` 1 = 1)%nat as Hlen.
  { unfold current'. rewrite string_length_app. simpl. lia. }
  destruct (ends_sentence c) eqn:Hc.
  - pose proof (terminated_snoc current c Hcur Hc) as Hterm.
    fold current' in Hterm.
    destruct (push_trimmed_cases sentences current')
      as [(_ & _ & Hun)|(s & -> & Hs & Hnbs & Hts & _)].
    { unfold current' in Hun. rewrite unterminated_app in Hun.
      cbn [unterminated] in Hun. rewrite Hc in Hun.
      by rewrite andb_false_r in Hun. }
    destruct (IH EmptyString (sentences ++ [s])) as (H1 & H2 & H3 & H4).
    { done. }
    { apply Forall_app. split; [done|]. apply Forall_singleton.
      split; [done|]. by rewrite Hts. }
    split_and!; [done..| |].
    + rewrite H3, joined_app, without_blanks_app.
      cbn [joined foldr without_blanks]. rewrite string_app_nil_r, Hnbs.
      rewrite string_app_nil_l, string_app_assoc. by rewrite Hnb.
    + rewrite length_app in H4. cbn [String.length length] in *. lia.
  - destruct (IH current' sentences) as (H1 & H2 & H3 & H4).
    { unfold current'. rewrite unterminated_app, Hcur.
      cbn [unterminated]. by rewrite Hc. }
    { done. }
    split_and!; [done..| |].
    + by rewrite H3, Hnb.
    + cbn [String.length]. lia.
Qed.


Lemma starts_nonblank (s : string) :
  find_first_not_of s blanks = Some 0%nat →
  ∃ c rest, s = String c rest ∧ contains blanks c = false.
Proof.
  unfold find_first_not_of. destruct s as [|c rest]; [done|].
  cbn [find_first_not_of_at]. destruct (contains blanks c) eqn:Hc.
  - pose proof (trim_at rest 1) as H.
    destruct (find_first_not_of_at blanks rest 1) as [k|]; [|done].
    destruct H as (j & -> & _). intros [=].
  - intros _. by exists c, rest.
Qed.

Lemma blank_unterminated (s : string) :
  without_blanks s = EmptyString → unterminated s = true.
Proof.
  induction s as [|c s IH]; [done|]. cbn [without_blanks unterminated].
  destruct (contains blanks c) eqn:Hc; [|done].
  intros Hs. by rewrite (blank_not_end c Hc), IH.
Qed.

(** The two ways the splitting ends: nothing but blanks, and the text
    itself is the one sentence; or sentences found by the loop, the last
    of which may be the unterminated rest of the text. *)
Lemma split_sentences_cases (text : string) :
  (without_blanks text = EmptyString ∧ split_sentences text = [text])
  ∨ (∃ init final,
       split_sentences text = init ++ [final]
       ∧ Forall pushed init
       ∧ find_first_not_of final blanks = Some 0%nat
       ∧ (terminated final = true ∨ unterminated final = true)
       ∧ without_blanks (joined (init ++ [final])) = without_blanks text
       ∧ (length (init ++ [final]) ≤ String.length text)%nat).
Proof.
  unfold split_sentences.
  pose proof (split_loop_inv text EmptyString [] eq_refl (Forall_nil_2 _))
    as (Hun & Hsent & Hnb & Hlen).
  destruct (split_loop text EmptyString []) as [current sentences].
  cbn [fst snd joined foldr without_blanks length String.length] in *.
  rewrite !string_app_nil_l in Hnb.
  assert (∀ l : list string,
    Forall pushed l →
    without_blanks (joined l) = without_blanks text →
    (length l ≤ String.length text)%nat →
    (without_blanks text = EmptyString
     ∧ match l with [] => [text] | _ :: _ => l end = [text])
    ∨ (∃ init final,
         match l with [] => [text] | _ :: _ => l end = init ++ [final]
         ∧ Forall pushed init
         ∧ find_first_not_of final blanks = Some 0%nat
         ∧ (terminated final = true ∨ unterminated final = true)
         ∧ without_blanks (joined (init ++ [final])) = without_blanks text
         ∧ (length (init ++ [final]) ≤ String.length text)%nat)) as Hall.
  { intros l Hl Hnbl Hlenl. destruct l as [|s l] using rev_ind.
    { left. by split. }
    right. exists l, s. apply Forall_app in Hl as [Hl Hs].
    apply Forall_singleton in Hs as [Hs1 Hs2].
    assert (match l ++ [s] with [] => [text] | _ :: _ => l ++ [s] end
            = l ++ [s]) as -> by by destruct l.
    split_and!; try done. by left. }
  destruct (String.eqb current EmptyString) eqn:Hcur; cbn [negb].
  { apply String.eqb_eq in Hcur as ->. cbn [without_blanks] in Hnb.
    rewrite string_app_nil_r in Hnb. apply Hall; [done..|].
    simpl in Hlen. lia. }
  apply String.eqb_neq in Hcur.
  assert (String.length current `min` 1 = 1)%nat as Hone
    by (destruct current; [done | simpl; lia]).
  destruct (push_trimmed_cases sentences current)
    as [(-> & Hblank & _)|(s & -> & Hs & Hnbs & _ & Huns)].
  { rewrite Hblank, string_app_nil_r in Hnb. apply Hall; [done..|lia]. }
  right. exists sentences, s.
  assert (match sentences ++ [s] with
          | [] => [text]
          | _ :: _ => sentences ++ [s]
          end = sentences ++ [s]) as -> by by destruct sentences.
  split_and!; try done.
  - right. by rewrite Huns.
  - rewrite joined_app, without_blanks_app. cbn [joined foldr].
    by rewrite string_app_nil_r, Hnbs.
  - rewrite length_app. simpl. lia.
Qed.

(** X17.  A text of blanks only (the empty text too) is synthesized as it
    is, in one piece; in every other text each sentence starts with a
    character that is not a blank. *)
Theorem split_sentences_trimmed (text : string) :
  (without_blanks text = EmptyString → split_sentences text = [text])
  ∧ (without_blanks text ≠ EmptyString →
     Forall (λ s, find_first_not_of s blanks = Some 0%nat)
       (split_sentences text)).
Proof.
  destruct (split_sentences_cases text)
    as [[Hblank ->]|(init & final & -> & Hinit & Hfinal & _ & Hnb & _)].
  { done. }
  split.
  - intros Hblank. rewrite Hblank in Hnb. exfalso.
    assert (∃ s l, init ++ [final] = s :: l
                   ∧ find_first_not_of s blanks = Some 0%nat)
      as (s & l & Heq & (c & rest & -> & Hc)%starts_nonblank).
    { destruct init as [|s init]; [by exists final, []|].
      exists s, (init ++ [final]). split; [done|].
      by apply Forall_cons in Hinit as [[? _] _]. }
    rewrite Heq in Hnb. cbn [joined foldr] in Hnb.
    rewrite string_app_cons in Hnb. cbn [without_blanks] in Hnb.
    by rewrite Hc in Hnb.
  - intros _. apply Forall_app. split.
    + eapply Forall_impl; [exact Hinit|]. by intros s [? _].
    + by apply Forall_singleton.
Qed.

(** X18.  Every sentence but the last ends with its only [.], [!] or [?];
    the last one does so too, or has none of them. *)
Theorem split_sentences_terminated (text : string) :
  ∃ init final,
    split_sentences text = init ++ [final]
    ∧ Forall (λ s, terminated s = true) init
    ∧ (terminated final = true ∨ unterminated final = true).
Proof.
  destruct (split_sentences_cases text)
    as [[Hblank ->]|(init & final & -> & Hinit & _ & Hfinal & _)].
  - exists [], text. split_and!; [done..|].
    right. by apply blank_unterminated.
  - exists init, final. split_and!; [done| |done].
    eapply Forall_impl; [exact Hinit|]. by intros s [_ ?].
Qed.

(** X19.  Splitting loses nothing but blanks: the sentences, one after the
    other, and the text are the same once blanks are removed.  There are
    at most as many sentences as the text has characters, and one for the
    empty text. *)
Theorem split_sentences_content (text : string) :
  without_blanks (joined (split_sentences text)) = without_blanks text
  ∧ (length (split_sentences text) ≤ String.length text `max` 1)%nat.
Proof.
  destruct (split_sentences_cases text)
    as [[Hblank ->]|(init & final & -> & _ & _ & _ & Hnb & Hlen)].
  - cbn [joined foldr length]. rewrite string_app_nil_r. split; [done|lia].
  - split; [done|lia].
Qed.


Context {P : piper_api}.

Implicit Types st : tts P.

(** The flag of the chunk made at index [i] of [size] sentences. *)
Lemma is_last_index (size : Z) (i n : nat) :
  size = Z.of_nat (i + S n) → size < 2 ^ StdString.size_bits →
  (Z.of_nat i =? StdString.size_sub size 1) = bool_decide (n = 0%nat).
Proof.
  intros -> Hsize. unfold StdString.size_sub.
  rewrite Z.mod_small by lia.
  case_bool_decide; [apply Z.eqb_eq | apply Z.eqb_neq]; lia.
Qed.

Lemma stream_sentences_chunks (sentences : list string) :
  ∀ size i (voice : Voice P) sample_rate,
  size = Z.of_nat (i + length sentences) →
  size < 2 ^ StdString.size_bits →
  let r := stream_sentences sentences size i voice sample_rate in
  Forall (λ ch, samples ch ≠ [] ∧ rate ch = sample_rate) r.1
  ∧ (length r.1 ≤ length sentences)%nat
  ∧ (∀ k ch, r.1 !! k = Some ch → isLast ch = true → S k = length r.1).
Proof.
  induction sentences as [|sentence rest IH];
    intros size i voice sample_rate Hsize Hmax; cbn [stream_sentences].
  { by split_and!. }
  destruct (textToAudio P voice sentence) as [voice1 [audio|]];
    [|split_and!; [done|simpl; lia|done]].
  specialize (IH size (S i) voice1 sample_rate).
  destruct (stream_sentences rest size (S i) voice1 sample_rate)
    as [chunks voice2] eqn:Hrest.
  destruct IH as (IH1 & IH2 & IH3); [simpl in *; lia|done|].
  cbn [fst] in *. case_bool_decide as Haudio; cbn [fst length].
  { split_and!; [done|lia|done]. }
  split_and!.
  - by apply Forall_cons.
  - lia.
  - intros [|k] ch; cbn [lookup list_lookup].
    + intros [= <-]. cbn [isLast list_lookup].
      rewrite (is_last_index size i (length rest)) by done.
      intros ->%bool_decide_eq_true%nil_length_inv.
      simpl in Hrest. by injection Hrest as <- _.
    + intros Hk Hlast. by rewrite (IH3 k ch Hk Hlast).
Qed.

(** When the last sentence gives no audio, no chunk carries the flag. *)
Lemma stream_sentences_unflagged (sentences : list string) (final : string) :
  ∀ size i (voice : Voice P) sample_rate,
  size = Z.of_nat (i + length sentences) →
  size < 2 ^ StdString.size_bits →
  last sentences = Some final →
  (∀ v, (textToAudio P v final).2 = None
        ∨ (textToAudio P v final).2 = Some []) →
  Forall (λ ch, isLast ch = false)
    (stream_sentences sentences size i voice sample_rate).1.
Proof.
  intros size i voice sample_rate Hsize Hmax Hfinal Hsilent.
  revert i voice Hsize Hfinal.
  induction sentences as [|sentence rest IH]; intros i voice Hsize Hfinal;
    cbn [stream_sentences]; [done|].
  destruct (textToAudio P voice sentence) as [voice1 [audio|]] eqn:Haudio;
    [|done].
  destruct rest as [|sentence' rest].
  - injection Hfinal as ->. destruct (Hsilent voice) as [Hv|Hv];
      rewrite Haudio in Hv; [done|]. injection Hv as ->.
    by rewrite bool_decide_eq_true_2.
  - specialize (IH (S i) voice1).
    destruct (stream_sentences (sentence' :: rest) size (S i) voice1
                sample_rate) as [chunks voice2].
    cbn [fst] in IH. rewrite last_cons_cons in Hfinal.
    assert (Forall (λ ch, isLast ch = false) chunks) as Hchunks.
    { apply IH; [simpl in *; lia | done]. }
    case_bool_decide; [done|]. apply Forall_cons. split; [|done].
    cbn [isLast].
    rewrite (is_last_index size i (length (sentence' :: rest))) by done.
    by apply bool_decide_eq_false_2.
Qed.

(** When every sentence gives audio, there is a chunk for each and the
    last chunk carries the flag. *)
Lemma stream_sentences_flagged (sentences : list string) :
  ∀ size i (voice : Voice P) sample_rate,
  size = Z.of_nat (i + length sentences) →
  size < 2 ^ StdString.size_bits →
  (∀ v s, s ∈ sentences →
     ∃ audio, (textToAudio P v s).2 = Some audio ∧ audio ≠ []) →
  let r := stream_sentences sentences size i voice sample_rate in
  length r.1 = length sentences
  ∧ (sentences ≠ [] → isLast <$> last r.1 = Some true).
Proof.
  induction sentences as [|sentence rest IH];
    intros size i voice sample_rate Hsize Hmax Haudio;
    cbn [stream_sentences]; [done|].
  destruct (Haudio voice sentence) as (audio & Hsome & Hne);
    [by apply elem_of_cons; left|].
  destruct (textToAudio P voice sentence) as [voice1 r1].
  cbn [snd] in Hsome. subst r1.
  specialize (IH size (S i) voice1 sample_rate).
  destruct (stream_sentences rest size (S i) voice1 sample_rate)
    as [chunks voice2] eqn:Hrest.
  destruct IH as [IH1 IH2]; [simpl in *; lia|done| |].
  { intros v s Hs. apply Haudio. by apply elem_of_cons; right. }
  rewrite bool_decide_eq_false_2 by done. cbn [fst length] in *.
  split; [by rewrite IH1|]. intros _.
  destruct rest as [|sentence' rest].
  - destruct chunks; [|done]. cbn [last fmap option_fmap option_map isLast].
    by rewrite (is_last_index size i 0), bool_decide_eq_true_2.
  - destruct chunks as [|ch chunks]; [done|].
    rewrite last_cons_cons. by apply IH2.
Qed.

Lemma split_sentences_size (text : string) :
  StdString.length text < StdString.npos →
  Z.of_nat (0 + length (split_sentences text)) < 2 ^ StdString.size_bits.
Proof.
  unfold StdString.length, StdString.npos.
  change (2 ^ StdString.size_bits) with 18446744073709551616.
  destruct (split_sentences_cases text)
    as [[_ ->]|(init & final & -> & _ & _ & _ & _ & Hlen)]; simpl; lia.
Qed.

(** X20.  What the callback of [synthesizeStreaming] sees: every chunk has
    samples and carries the sample rate of the voice; there is at most one
    chunk per sentence; and only the last chunk delivered can carry the
    flag.  The call leaves [isInitialized()] and [getSampleRate()] as they
    were, and without a voice or without the callback method it does
    nothing. *)
Theorem streaming_chunks (text : string) (has_onAudioChunk : bool) st :
  StdString.length text < StdString.npos →
  let r := synthesizeStreaming text has_onAudioChunk st in
  Forall (λ ch, samples ch ≠ [] ∧ rate ch = getSampleRate st) r.1
  ∧ (length r.1 ≤ length (split_sentences text))%nat
  ∧ (∀ k ch, r.1 !! k = Some ch → isLast ch = true → S k = length r.1)
  ∧ isInitialized r.2 = isInitialized st
  ∧ getSampleRate r.2 = getSampleRate st
  ∧ (isInitialized st = false ∨ has_onAudioChunk = false → r = ([], st)).
Proof.
  intros Hlen. unfold synthesizeStreaming, isInitialized, getSampleRate.
  destruct (g_initialized st) eqn:Hinit; cbn [negb];
    [|split_and!; (done || simpl; lia)].
  destruct has_onAudioChunk; cbn [negb];
    [|split_and!; (done || simpl; lia)].
  pose proof (stream_sentences_chunks (split_sentences text) _ 0%nat
                (g_voice st) (g_sampleRate st) eq_refl
                (split_sentences_size text Hlen)) as (H1 & H2 & H3).
  destruct (stream_sentences _ _ _ _ _) as [chunks voice].
  cbn [fst snd g_initialized g_sampleRate] in *.
  split_and!; try done. by intros [|].
Qed.

(** X21.  The end of the speech is signalled when every sentence gives
    audio: then there is one chunk per sentence and the last chunk carries
    the flag. *)
Theorem streaming_end_signalled (text : string) st :
  StdString.length text < StdString.npos →
  isInitialized st = true →
  (∀ v s, s ∈ split_sentences text →
     ∃ audio, (textToAudio P v s).2 = Some audio ∧ audio ≠ []) →
  let chunks := (synthesizeStreaming text true st).1 in
  length chunks = length (split_sentences text)
  ∧ isLast <$> last chunks = Some true.
Proof.
  intros Hlen Hinit Haudio. unfold synthesizeStreaming.
  unfold isInitialized in Hinit. rewrite Hinit. cbn [negb].
  pose proof (stream_sentences_flagged (split_sentences text) _ 0%nat
                (g_voice st) (g_sampleRate st) eq_refl
                (split_sentences_size text Hlen) Haudio) as [H1 H2].
  destruct (stream_sentences _ _ _ _ _) as [chunks voice].
  cbn [fst] in *. split; [done|]. apply H2.
  destruct (split_sentences_cases text) as [[_ ->]|(init & final & -> & _)];
    [done | by destruct init].
Qed.

(** X22.  The end of the speech is not signalled when the last sentence
    gives no audio or makes the synthesizer throw: no chunk carries the
    flag, however many chunks were delivered. *)
Theorem streaming_end_not_signalled (text final : string)
    (has_onAudioChunk : bool) st :
  StdString.length text < StdString.npos →
  last (split_sentences text) = Some final →
  (∀ v, (textToAudio P v final).2 = None
        ∨ (textToAudio P v final).2 = Some []) →
  Forall (λ ch, isLast ch = false)
    (synthesizeStreaming text has_onAudioChunk st).1.
Proof.
  intros Hlen Hfinal Hsilent. unfold synthesizeStreaming.
  destruct (g_initialized st); cbn [negb]; [|done].
  destruct has_onAudioChunk; cbn [negb]; [|done].
  pose proof (stream_sentences_unflagged (split_sentences text) final _
                0%nat (g_voice st) (g_sampleRate st) eq_refl
                (split_sentences_size text Hlen) Hfinal Hsilent) as H.
  by destruct (stream_sentences _ _ _ _ _) as [chunks voice].
Qed.

(** The speaker and the three scales passed to [synthesize] have no
    effect: they are stored in a local copy of the configuration, and the
    synthesizer is run on the voice as it was loaded. *)
Theorem synthesize_ignores_parameters (text : string) st
    (speaker1 speaker2 : Z)
    (length_scale1 noise_scale1 noise_w1 : jfloat)
    (length_scale2 noise_scale2 noise_w2 : jfloat) :
  synthesize text speaker1 length_scale1 noise_scale1 noise_w1 st
  = synthesize text speaker2 length_scale2 noise_scale2 noise_w2 st.
Proof. reflexivity. Qed.

(** X23.  After [release], and after an [initialize] that failed, there is
    no voice: [synthesize] returns an empty array and
    [synthesizeStreaming] calls nothing, whatever voice was loaded before.
    A failed [initialize] leaves [getSampleRate()] at the rate of the
    voice loaded before it. *)
Theorem synthesis_needs_voice (modelPath configPath : string) st st' :
  st' = release st
  ∨ (initialize modelPath configPath st = (false, st')) →
  isInitialized st' = false
  ∧ getSampleRate st' = getSampleRate st
  ∧ (∀ text speaker length_scale noise_scale noise_w,
       synthesize text speaker length_scale noise_scale noise_w st'
       = ([], st'))
  ∧ (∀ text has_onAudioChunk,
       synthesizeStreaming text has_onAudioChunk st' = ([], st')).
Proof.
  intros Hst'.
  assert (g_initialized st' = false ∧ g_sampleRate st' = g_sampleRate st)
    as [Hinit Hrate].
  { destruct Hst' as [->|Hinit].
    - unfold release. by destruct (g_initialized st) eqn:Hst.
    - revert Hinit. unfold initialize.
      destruct (loadVoice P _ _ _) as [voice []]; [done|].
      intros [= <-]. by destruct (g_initialized st). }
  unfold isInitialized, getSampleRate, synthesize, synthesizeStreaming.
  by rewrite Hinit.
Qed.

End PiperFacts.

(** ** The further properties on the small runtime *)

Lemma loadModel_failure_unloaded_witness :
  let r := loadModel (L := Toy.api) (Some "huge.gguf") 4
             (Toy.loaded "toy.gguf") in
  isModelLoaded (Toy.loaded "toy.gguf") = true
  ∧ r.1.1 = false
  ∧ g_model r.1.2 = None ∧ g_ctx r.1.2 = None ∧ isModelLoaded r.1.2 = false.
Proof.
  split; [reflexivity|]. split; [reflexivity|].
  exact (loadModel_failure_unloaded (L := Toy.api) (Some "huge.gguf") 4
           (Toy.loaded "toy.gguf") eq_refl).
Defined.

Lemma batch_construction_witness :
  ∃ m txt st' evs,
    g_model (Toy.loaded "toy.gguf") = Some m
    ∧ generate (Toy.request "Hi" 5 []) Toy.quiet (Toy.loaded "toy.gguf")
      = Some (txt, st', evs)
    ∧ token_batches evs = [single_of 0 2; single_of 1 3; single_of 2 4]
    ∧ (prompt_batches evs = []
       ∨ (tokenize_prompt m "Hi").2 ≠ []
         ∧ prompt_batches evs = [prompt_of (tokenize_prompt m "Hi").2])
    ∧ (∀ k b, token_batches evs !! k = Some b →
          ∃ t, sampled evs !! k = Some t
               ∧ b = single_of t
                       (Z.of_nat (length (tokenize_prompt m "Hi").2)
                        + Z.of_nat k)).
Proof.
  eexists _, _, _, _.
  split; [vm_compute; reflexivity|].
  split; [vm_compute; reflexivity|].
  split; [vm_compute; reflexivity|].
  eapply (batch_construction (L := Toy.api) (Toy.request "Hi" 5 [])
            Toy.quiet (Toy.loaded "toy.gguf"));
    [vm_compute; reflexivity | left; vm_compute; reflexivity].
Defined.


Lemma loadModel_replaces_state_witness :
  let st1 := engine_init (L := Toy.api) in
  let st2 := Toy.loaded "small.gguf" in
  let r1 := loadModel (Some "toy.gguf") 4 st1 in
  let r2 := loadModel (Some "toy.gguf") 4 st2 in
  g_is_generating st1 = g_is_generating st2
  ∧ g_cancel_generation st1 = g_cancel_generation st2
  ∧ getLoadProgress st1 ≠ getLoadProgress st2
  ∧ r1.1.1 = r2.1.1
  ∧ g_model r1.1.2 = g_model r2.1.2
  ∧ g_ctx r1.1.2 = g_ctx r2.1.2
  ∧ (Some "toy.gguf" ≠ None →
     r1.1 = r2.1
     ∧ (loadModel (Some "toy.gguf") 4 (unloadModel st1).1).1 = r1.1)
  ∧ (Some "toy.gguf" = None →
     r1.1.1 = false ∧ getLoadProgress r1.1.2 = getLoadProgress st1).
Proof.
  split; [reflexivity|]. split; [reflexivity|]. split; [discriminate|].
  exact (loadModel_replaces_state (L := Toy.api) (Some "toy.gguf") 4
           engine_init (Toy.loaded "small.gguf") eq_refl eq_refl).
Defined.

Lemma reachable_consistent_witness :
  let st := Toy.after_request "toy.gguf" (Toy.request "Hello" 5 ["!"])
              Toy.quiet in
  reachable st
  ∧ (g_model st = None ↔ g_ctx st = None)
  ∧ (isModelLoaded st = true → getLoadProgress st = 1%Q).
Proof.
  assert (reachable (Toy.after_request "toy.gguf"
                       (Toy.request "Hello" 5 ["!"]) Toy.quiet)) as Hreach.
  { eapply (reach_generate Toy.api (Toy.request "Hello" 5 ["!"]) Toy.quiet
              (Toy.loaded "toy.gguf")).
    - exact (reach_load Toy.api (Some "toy.gguf") 4 engine_init
               (reach_init Toy.api)).
    - vm_compute. reflexivity. }
  split; [exact Hreach|].
  exact (reachable_consistent (L := Toy.api) _ Hreach).
Defined.

Lemma generation_keeps_model_witness :
  ∃ txt st' evs,
    generateStreaming (Toy.request "Hello" 5 ["!"]) Toy.throwing
      (Toy.loaded "toy.gguf") = Some (txt, st', evs)
    ∧ g_model st' = g_model (Toy.loaded "toy.gguf")
    ∧ isModelLoaded st' = isModelLoaded (Toy.loaded "toy.gguf")
    ∧ getLoadProgress st' = getLoadProgress (Toy.loaded "toy.gguf").
Proof.
  eexists _, _, _. split; [vm_compute; reflexivity|].
  eapply (generation_keeps_model (L := Toy.api) (Toy.request "Hello" 5 ["!"])
            Toy.throwing (Toy.loaded "toy.gguf")).
  right. vm_compute. reflexivity.
Defined.

Lemma check_stop_strings_cut_witness :
  StdString.length "so!there!x" < StdString.npos
  ∧ check_stop_strings "so!there!x" ["?"; "!"] = ("so!there", true)
  ∧ ∃ stop post,
      stop ∈ ["?"; "!"] ∧ "so!there!x" = "so!there" +:+ stop +:+ post
      ∧ ∀ pre' post', "so!there!x" = pre' +:+ stop +:+ post' →
          (String.length pre' ≤ String.length "so!there")%nat.
Proof.
  split; [reflexivity|]. split; [reflexivity|].
  exact (check_stop_strings_cut "so!there!x" "so!there" ["?"; "!"] true
           eq_refl eq_refl).
Defined.

Lemma check_stop_strings_suffix_witness :
  "there" ≠ EmptyString
  ∧ StdString.length ("there" +:+ "!") < StdString.npos
  ∧ check_stop_strings ("there" +:+ "!") ["!"; "?"] = ("there", true).
Proof.
  assert ("there" ≠ EmptyString) as Hne by discriminate.
  split; [exact Hne|]. split; [reflexivity|].
  exact (check_stop_strings_suffix "there" "!" ["?"] Hne eq_refl).
Defined.

Lemma stream_should_stop_occurs_witness :
  StdString.length "there!" < StdString.npos
  ∧ (stream_should_stop "there!" ["?"; "!"] = true
     ↔ ∃ stop, stop ∈ ["?"; "!"] ∧ StdString.occurs stop "there!").
Proof.
  split; [reflexivity|].
  exact (stream_should_stop_occurs "there!" ["?"; "!"] eq_refl).
Defined.

Lemma check_stop_strings_whole_text_witness :
  StdString.length "!" < StdString.npos
  ∧ check_stop_strings "!" ["!"] = check_stop_strings "!" []
  ∧ check_stop_strings "!" [] = ("!", false).
Proof.
  split; [reflexivity|]. split; [|reflexivity].
  exact (check_stop_strings_whole_text "!" [] eq_refl).
Defined.

Lemma returned_text_is_prefix_witness :
  ∃ m txt st' evs,
    g_model (Toy.loaded "nul.gguf") = Some m
    ∧ generate (Toy.request "Hello" 5 []) Toy.quiet (Toy.loaded "nul.gguf")
      = Some (txt, st', evs)
    ∧ txt = "there"
    ∧ text_of m evs = "there" +:+ String Ascii.zero "x" +:+ "more"
    ∧ ∃ rest, text_of m evs = txt +:+ rest
              ∧ (default [] (stopStrings (Toy.request "Hello" 5 [])) = [] →
                 txt = StdString.c_str (text_of m evs)).
Proof.
  eexists _, _, _, _.
  split; [vm_compute; reflexivity|].
  split; [vm_compute; reflexivity|].
  split; [reflexivity|]. split; [vm_compute; reflexivity|].
  eapply (returned_text_is_prefix (L := Toy.api) (Toy.request "Hello" 5 [])
            Toy.quiet (Toy.loaded "nul.gguf"));
    vm_compute; reflexivity.
Defined.

Lemma token_budget_respected_witness :
  ∃ txt st' evs,
    generate (Toy.request "Hello" 2 []) Toy.quiet (Toy.loaded "toy.gguf")
    = Some (txt, st', evs)
    ∧ sampled evs = [0; 1]
    ∧ (length (sampled evs) ≤ Z.to_nat (maxTokens (Toy.request "Hello" 2 [])))%nat
    ∧ (length (token_batches evs) ≤ length (sampled evs))%nat
    ∧ (maxTokens (Toy.request "Hello" 2 []) ≤ 0 →
       txt = EmptyString ∧ sampled evs = [] ∧ token_batches evs = []
       ∧ delivered evs = []).
Proof.
  eexists _, _, _. split; [vm_compute; reflexivity|].
  split; [vm_compute; reflexivity|].
  eapply (token_budget_respected (L := Toy.api) (Toy.request "Hello" 2 [])
            Toy.quiet (Toy.loaded "toy.gguf")).
  left. vm_compute. reflexivity.
Defined.

Lemma sink_failure_ends_request_witness :
  ∃ txt st' evs,
    generateStreaming (Toy.request "Hello" 5 []) Toy.throwing
      (Toy.loaded "toy.gguf") = Some (txt, st', evs)
    ∧ EvOnToken "there" true ∈ evs
    ∧ sampled evs = [0]
    ∧ last evs = Some (EvOnToken "there" true)
    ∧ isModelLoaded st' = true
    ∧ isGenerating st' = false.
Proof.
  eexists _, _, _. split; [vm_compute; reflexivity|].
  split; [repeat first [apply list_elem_of_here | apply list_elem_of_further]|].
  split; [vm_compute; reflexivity|].
  eapply (sink_failure_ends_request (L := Toy.api) (Toy.request "Hello" 5 [])
            Toy.throwing (Toy.loaded "toy.gguf"));
    [vm_compute; reflexivity
    |repeat first [apply list_elem_of_here | apply list_elem_of_further]].
Defined.

Lemma streaming_matches_buffering_witness :
  ∃ txt st' evs,
    generate (Toy.request "Hello" 5 []) Toy.quiet (Toy.loaded "nul.gguf")
    = Some (txt, st', evs)
    ∧ txt = "there"
    ∧ ∃ accumulated evs',
        generateStreaming (Toy.request "Hello" 5 []) Toy.quiet
          (Toy.loaded "nul.gguf") = Some (accumulated, st', evs')
        ∧ txt = StdString.c_str accumulated
        ∧ evs = without_sink evs'
        ∧ (∃ rest, joined (delivered evs') = txt +:+ rest)
        ∧ (txt = accumulated → joined (delivered evs') = txt).
Proof.
  eexists _, _, _. split; [vm_compute; reflexivity|].
  split; [reflexivity|].
  apply (streaming_matches_buffering (L := Toy.api) (Toy.request "Hello" 5 [])
           Toy.quiet (Toy.loaded "nul.gguf"));
    [reflexivity | reflexivity | intros; reflexivity | intros; reflexivity
    |vm_compute; reflexivity].
Defined.

Lemma prompt_failure_empty_result_witness :
  ∃ m c txt st' evs,
    g_model (Toy.loaded "toy.gguf") = Some m
    ∧ g_ctx (Toy.loaded "toy.gguf") = Some c
    ∧ (tokenize_prompt m (prompt (Toy.request "*" 5 []))).1 < 0
    ∧ generate (Toy.request "*" 5 []) Toy.quiet (Toy.loaded "toy.gguf")
      = Some (txt, st', evs)
    ∧ txt = EmptyString ∧ sampled evs = [] ∧ token_batches evs = []
    ∧ delivered evs = []
    ∧ isModelLoaded st' = true ∧ isGenerating st' = false
    ∧ ((tokenize_prompt m (prompt (Toy.request "*" 5 []))).1 < 0 →
       evs = [] ∧ g_ctx st' = Some c).
Proof.
  eexists _, _, _, _, _.
  split; [vm_compute; reflexivity|].
  split; [vm_compute; reflexivity|].
  split; [vm_compute; reflexivity|].
  split; [vm_compute; reflexivity|].
  eapply (prompt_failure_empty_result (L := Toy.api) (Toy.request "*" 5 [])
            Toy.quiet (Toy.loaded "toy.gguf"));
    [vm_compute; reflexivity | vm_compute; reflexivity
    |left; vm_compute; reflexivity
    |left; vm_compute; reflexivity].
Defined.

(** ** The Piper bridge on a small voice *)

Lemma split_sentences_trimmed_witness :
  Piper.split_sentences " Hi there.  How are you? ok "
  = ["Hi there."; "How are you?"; "ok "]
  ∧ Piper.split_sentences "   " = ["   "]
  ∧ Forall (λ s, Piper.find_first_not_of s Piper.blanks = Some 0%nat)
      (Piper.split_sentences " Hi there.  How are you? ok ").
Proof.
  split; [reflexivity|]. split.
  - exact (proj1 (split_sentences_trimmed "   ") eq_refl).
  - apply (proj2 (split_sentences_trimmed " Hi there.  How are you? ok ")).
    discriminate.
Defined.

Lemma streaming_chunks_witness :
  let st := Piper.mk_tts (P := Piper.toy) 0%nat true 16000 in
  let r := Piper.synthesizeStreaming "Hi. ? Bye." true st in
  StdString.length "Hi. ? Bye." < StdString.npos
  ∧ r.1 = [Piper.mk_chunk [3] 16000 false; Piper.mk_chunk [4] 16000 true]
  ∧ Forall (λ ch, Piper.samples ch ≠ []
                  ∧ Piper.rate ch = Piper.getSampleRate st) r.1
  ∧ (length r.1 ≤ length (Piper.split_sentences "Hi. ? Bye."))%nat
  ∧ (∀ k ch, r.1 !! k = Some ch → Piper.isLast ch = true → S k = length r.1)
  ∧ Piper.isInitialized r.2 = Piper.isInitialized st
  ∧ Piper.getSampleRate r.2 = Piper.getSampleRate st
  ∧ (Piper.isInitialized st = false ∨ true = false → r = ([], st)).
Proof.
  split; [reflexivity|]. split; [reflexivity|].
  exact (streaming_chunks (P := Piper.toy) "Hi. ? Bye." true
           (Piper.mk_tts (P := Piper.toy) 0%nat true 16000) eq_refl).
Defined.

Lemma streaming_end_signalled_witness :
  let st := Piper.mk_tts (P := Piper.toy) 0%nat true 16000 in
  let chunks := (Piper.synthesizeStreaming "Hi. Go on" true st).1 in
  StdString.length "Hi. Go on" < StdString.npos
  ∧ Piper.isInitialized st = true
  ∧ length chunks = length (Piper.split_sentences "Hi. Go on")
  ∧ Piper.isLast <$> last chunks = Some true.
Proof.
  split; [reflexivity|]. split; [reflexivity|].
  apply (streaming_end_signalled (P := Piper.toy) "Hi. Go on"
           (Piper.mk_tts (P := Piper.toy) 0%nat true 16000) eq_refl eq_refl).
  intros v s Hs.
  change (Piper.split_sentences "Hi. Go on") with ["Hi."; "Go on"] in Hs.
  apply elem_of_cons in Hs as [->|Hs];
    [|apply list_elem_of_singleton in Hs as ->];
    (eexists; split; [reflexivity | discriminate]).
Defined.

Lemma streaming_end_not_signalled_witness :
  let st := Piper.mk_tts (P := Piper.toy) 0%nat true 16000 in
  StdString.length "Hello. ?" < StdString.npos
  ∧ last (Piper.split_sentences "Hello. ?") = Some "?"
  ∧ (Piper.synthesizeStreaming "Hello. ?" true st).1
    = [Piper.mk_chunk [6] 16000 false]
  ∧ Forall (λ ch, Piper.isLast ch = false)
      (Piper.synthesizeStreaming "Hello. ?" true st).1.
Proof.
  split; [reflexivity|]. split; [reflexivity|]. split; [reflexivity|].
  apply (streaming_end_not_signalled (P := Piper.toy) "Hello. ?" "?" true
           (Piper.mk_tts (P := Piper.toy) 0%nat true 16000) eq_refl eq_refl).
  intros v. right. reflexivity.
Defined.

Lemma synthesis_needs_voice_witness :
  let st := Piper.mk_tts (P := Piper.toy) 0%nat true 16000 in
  let st' := Piper.mk_tts (P := Piper.toy) 0%nat false 16000 in
  Piper.initialize "missing.onnx" "missing.json" st = (false, st')
  ∧ (Piper.synthesize "Hi." 0 1%Q 1%Q 1%Q st).1 = [3]
  ∧ Piper.isInitialized st' = false
  ∧ Piper.getSampleRate st' = Piper.getSampleRate st
  ∧ (∀ text speaker length_scale noise_scale noise_w,
       Piper.synthesize text speaker length_scale noise_scale noise_w st'
       = ([], st'))
  ∧ (∀ text has_onAudioChunk,
       Piper.synthesizeStreaming text has_onAudioChunk st' = ([], st')).
Proof.
  split; [reflexivity|]. split; [reflexivity|].
  apply (synthesis_needs_voice (P := Piper.toy) "missing.onnx" "missing.json"
           (Piper.mk_tts (P := Piper.toy) 0%nat true 16000)).
  right. reflexivity.
Defined.
